(** * A shallow embedding of the advanced-vector container

    The development models the two classes of [vector.h]: [RawMemory<T>],
    an owner of raw storage, and [Vector<T>], the container built on it.
    The repository holds two versions of the header; the functions on
    which they differ ([Emplace], [PopBack], [Erase]) are embedded once
    per version, in the modules [VectorH] and [Part000].

    Objects live in an explicit store, so that [this] and the arguments
    passed by reference can alias as they do in C++:
    - [raws]  : every [RawMemory] object, by address (members and locals);
    - [sizes] : the [size_] member of every [Vector] object, by address
                (the member [data_] of the vector at address [v] is the
                [RawMemory] object at address [v]);
    - [heap]  : the blocks handed out by [operator new], each a list of
                slots, a slot being raw ([None]) or holding a live
                element ([Some x]);
    - [leaked]: elements whose storage was released while they were alive;
    - [world] : whatever the special member functions of the element type
                and the allocator observe and change.

    A computation ends normally, with an exception in flight, in
    undefined behaviour, or by aborting the program (a failed [assert],
    [std::terminate]). *)

From stdpp Require Import gmap list.
From Stdlib Require Import ZArith NArith Lia.

Set Default Proof Using "Type".

(** ** Machine integers *)

(** [size_t] is 64 bits wide.  Counts are kept in [nat], because they index
    lists, and the wrap-around of the arithmetic the code performs is
    computed in [N]. *)
Definition PTRDIFF_MAX : N := 2 ^ 63 - 1.

Definition size_t_of (n : N) : nat := N.to_nat (n mod 2 ^ 64).

(** [a + b], [a * b] and [a - b] on [size_t]. *)
Definition size_add (a b : nat) : nat := size_t_of (N.of_nat a + N.of_nat b).
Definition size_mul (a b : nat) : nat := size_t_of (N.of_nat a * N.of_nat b).
Definition size_sub (a b : nat) : nat :=
  if b <=? a then a - b else size_t_of (2 ^ 64 - (N.of_nat (b - a)) mod 2 ^ 64).

(** The wrapped results are computed on demand only. *)
Arguments size_t_of : simpl never.
Arguments size_add : simpl never.
Arguments size_mul : simpl never.
Arguments size_sub : simpl never.

(** ** Exceptions *)

Inductive exn : Type :=
| bad_alloc
| thrown (code : nat).

(** ** The element type

    [T] is the type of element values, [A] the type of the argument packs
    its constructors accept and [W] the state of the world its special
    member functions can read and write.  A constructor returns the new
    object or the exception it throws; an assignment returns the
    exception, if any, and the value the target is left with; the moving
    operations also return the value the source is left with. *)
Class Element (T A W : Type) := {
  sizeof : positive;
  construct : A -> W -> (exn + T) * W;
  value_construct : W -> (exn + T) * W;
  copy_construct : T -> W -> (exn + T) * W;
  move_construct : T -> W -> (exn + T) * T * W;
  copy_assign : T -> T -> W -> option exn * T * W;
  move_assign : T -> T -> W -> option exn * T * T * W;
  destroy : T -> W -> W;
  is_nothrow_move_constructible : bool;
  is_copy_constructible : bool;
  (** the decision of the global allocator for a request of so many bytes *)
  allocator : N -> W -> bool * W
}.

(** Assertions are compiled in unless [NDEBUG] is defined. *)
Class Build := { NDEBUG : bool }.

(** What a forwarded argument pack of [Emplace] builds the element from. *)
Inductive ctor_args (T A : Type) : Type :=
| FromArgs (a : A)
| FromLvalue (x : T)
| FromRvalue (x : T).
Arguments FromArgs {T A} a.
Arguments FromLvalue {T A} x.
Arguments FromRvalue {T A} x.

(** ** Pointers and the store *)

Inductive ptr : Type :=
| nullptr
| Ptr (h : positive) (i : nat).

Global Instance ptr_eq_dec : EqDecision ptr.
Proof. solve_decision. Defined.

Record RawMemoryObj := { buffer_ : ptr; capacity_ : nat }.

Record state (T W : Type) := State {
  raws : gmap positive RawMemoryObj;
  sizes : gmap positive nat;
  heap : gmap positive (list (option T));
  leaked : list T;
  world : W
}.
Arguments State {T W} raws sizes heap leaked world.
Arguments raws {T W} s.
Arguments sizes {T W} s.
Arguments heap {T W} s.
Arguments leaked {T W} s.
Arguments world {T W} s.

Definition set_raws {T W} (f : gmap positive RawMemoryObj -> gmap positive RawMemoryObj)
    (s : state T W) : state T W :=
  {| raws := f (raws s); sizes := sizes s; heap := heap s;
     leaked := leaked s; world := world s |}.
Definition set_sizes {T W} (f : gmap positive nat -> gmap positive nat)
    (s : state T W) : state T W :=
  {| raws := raws s; sizes := f (sizes s); heap := heap s;
     leaked := leaked s; world := world s |}.
Definition set_heap {T W}
    (f : gmap positive (list (option T)) -> gmap positive (list (option T)))
    (s : state T W) : state T W :=
  {| raws := raws s; sizes := sizes s; heap := f (heap s);
     leaked := leaked s; world := world s |}.
Definition set_leaked {T W} (f : list T -> list T) (s : state T W) : state T W :=
  {| raws := raws s; sizes := sizes s; heap := heap s;
     leaked := f (leaked s); world := world s |}.
Definition set_world {T W} (w : W) (s : state T W) : state T W :=
  {| raws := raws s; sizes := sizes s; heap := heap s;
     leaked := leaked s; world := w |}.

(** An address at which no object lives, and a handle no block has. *)
Definition free_address {T W} (s : state T W) : positive :=
  fresh (dom (raws s) ∪ dom (sizes s)).
Definition free_block {T W} (s : state T W) : positive :=
  fresh (dom (heap s)).
Arguments free_address : simpl never.
Arguments free_block : simpl never.

(** ** The monad of computations *)

Inductive result (S X : Type) : Type :=
| Ok (x : X) (s : S)
| Exn (e : exn) (s : S)
| Undefined
| Aborted.
Arguments Ok {S X} x s.
Arguments Exn {S X} e s.
Arguments Undefined {S X}.
Arguments Aborted {S X}.

Definition M (S X : Type) : Type := S -> result S X.

Definition ret {S X} (x : X) : M S X := fun s => Ok x s.

Definition bind {S X Y} (m : M S X) (f : X -> M S Y) : M S Y :=
  fun s => match m s with
           | Ok x s' => f x s'
           | Exn e s' => Exn e s'
           | Undefined => Undefined
           | Aborted => Aborted
           end.

Declare Scope cpp_scope.
Delimit Scope cpp_scope with cpp.
Notation "x <- m ;; k" := (bind m (fun x => k))
  (at level 100, m at next level, right associativity) : cpp_scope.
Notation "m ;; k" := (bind m (fun _ => k))
  (at level 100, right associativity) : cpp_scope.
Open Scope cpp_scope.

Definition throw {S X} (e : exn) : M S X := fun s => Exn e s.
Definition undefined {S X} : M S X := fun _ => Undefined.

(** [try { body } catch (...) { handler; throw; }] *)
Definition catch_all {S X} (body : M S X) (handler : M S unit) : M S X :=
  fun s => match body s with
           | Exn e s' => (handler ;; throw e) s'
           | r => r
           end.

(** [cleanup] runs when the scope is left, normally or by an exception:
    the destructor of an automatic object. *)
Definition finally {S X} (body : M S X) (cleanup : M S unit) : M S X :=
  fun s => match body s with
           | Ok x s' => (cleanup ;; ret x) s'
           | Exn e s' => (cleanup ;; throw e) s'
           | r => r
           end.

(** An exception that leaves a [noexcept] function ends the program. *)
Definition noexcept {S X} (body : M S X) : M S X :=
  fun s => match body s with
           | Exn _ _ => Aborted
           | r => r
           end.

(** Runs [m] and reports how it ended, for the algorithms that need the
    loop position in their handler. *)
Definition attempt {S X} (m : M S X) : M S (exn + X) :=
  fun s => match m s with
           | Ok x s' => Ok (inr x) s'
           | Exn e s' => Ok (inl e) s'
           | Undefined => Undefined
           | Aborted => Aborted
           end.

(** A scalar automatic variable of type [L], in scope for [m]. *)
Definition local {S L X} (init : L) (m : M (L * S) X) : M S X :=
  fun s => match m (init, s) with
           | Ok x (_, s') => Ok x s'
           | Exn e (_, s') => Exn e s'
           | Undefined => Undefined
           | Aborted => Aborted
           end.

Definition lift {S L X} (m : M S X) : M (L * S) X :=
  fun ls => match m (snd ls) with
            | Ok x s' => Ok x (fst ls, s')
            | Exn e s' => Exn e (fst ls, s')
            | Undefined => Undefined
            | Aborted => Aborted
            end.

Definition get_local {S L} : M (L * S) L := fun ls => Ok (fst ls) ls.
Definition set_local {S L} (l : L) : M (L * S) unit := fun ls => Ok tt (l, snd ls).

Section Primitives.
Context {T A W : Type} `{!Element T A W} `{!Build}.

Local Abbreviation st := (state T W).

Definition assert_ (c : bool) : M st unit :=
  fun s => if NDEBUG then Ok tt s else if c then Ok tt s else Aborted.

(** *** Fields of the objects in the store *)

Definition get_buffer (l : positive) : M st ptr :=
  fun s => match raws s !! l with Some r => Ok (buffer_ r) s | None => Undefined end.
Definition get_capacity (l : positive) : M st nat :=
  fun s => match raws s !! l with Some r => Ok (capacity_ r) s | None => Undefined end.
Definition set_buffer (l : positive) (p : ptr) : M st unit :=
  fun s => match raws s !! l with
           | Some r => Ok tt (set_raws <[l := {| buffer_ := p; capacity_ := capacity_ r |}]> s)
           | None => Undefined
           end.
Definition set_capacity (l : positive) (n : nat) : M st unit :=
  fun s => match raws s !! l with
           | Some r => Ok tt (set_raws <[l := {| buffer_ := buffer_ r; capacity_ := n |}]> s)
           | None => Undefined
           end.
Definition get_size (v : positive) : M st nat :=
  fun s => match sizes s !! v with Some n => Ok n s | None => Undefined end.
Definition set_size (v : positive) (n : nat) : M st unit :=
  fun s => match sizes s !! v with
           | Some _ => Ok tt (set_sizes <[v := n]> s)
           | None => Undefined
           end.

(** Member initialisers bring the members into existence. *)
Definition init_raw (l : positive) (r : RawMemoryObj) : M st unit :=
  fun s => Ok tt (set_raws <[l := r]> s).
Definition init_size (v : positive) (n : nat) : M st unit :=
  fun s => Ok tt (set_sizes <[v := n]> s).
(** The storage of an object whose lifetime has ended. *)
Definition end_raw (l : positive) : M st unit :=
  fun s => Ok tt (set_raws (delete l) s).
Definition end_size (v : positive) : M st unit :=
  fun s => Ok tt (set_sizes (delete v) s).

(** An address for a new automatic object. *)
Definition alloca : M st positive :=
  fun s => Ok (free_address s) s.

(** *** Pointer arithmetic

    A pointer may be moved within its block and one past its end. *)
Definition ptr_add (p : ptr) (k : nat) : M st ptr :=
  fun s => match p with
           | nullptr => if k =? 0 then Ok nullptr s else Undefined
           | Ptr h i => match heap s !! h with
                        | Some blk => if i + k <=? length blk then Ok (Ptr h (i + k)) s
                                      else Undefined
                        | None => Undefined
                        end
           end.
Definition ptr_sub (p : ptr) (k : nat) : M st ptr :=
  fun s => match p with
           | nullptr => if k =? 0 then Ok nullptr s else Undefined
           | Ptr h i => match heap s !! h with
                        | Some blk => if (k <=? i) && (i <=? length blk) then Ok (Ptr h (i - k)) s
                                      else Undefined
                        | None => Undefined
                        end
           end.
(** [p - q], converted to [size_t] *)
Definition ptr_diff (p q : ptr) : M st nat :=
  fun s => match p, q with
           | nullptr, nullptr => Ok 0 s
           | Ptr h i, Ptr h' j => if decide (h = h') then Ok (size_sub i j) s else Undefined
           | _, _ => Undefined
           end.

(** Inside the library algorithms the iterators advance without a check:
    every position they reach is dereferenced, which checks it. *)
Definition shift (p : ptr) (k : nat) : ptr :=
  match p with nullptr => nullptr | Ptr h i => Ptr h (i + k) end.

(** *** Slots *)

Definition slot_of (s : st) (p : ptr) : option (option T) :=
  match p with
  | nullptr => None
  | Ptr h i => match heap s !! h with Some blk => blk !! i | None => None end
  end.

Definition store_slot (p : ptr) (v : option T) (s : st) : st :=
  match p with
  | nullptr => s
  | Ptr h i => set_heap (alter (fun blk => <[i := v]> blk) h) s
  end.

(** reading through a pointer to a live object *)
Definition read_obj (p : ptr) : M st T :=
  fun s => match slot_of s p with Some (Some x) => Ok x s | _ => Undefined end.
(** the new value of a live object after an assignment to it *)
Definition write_obj (p : ptr) (x : T) : M st unit :=
  fun s => match slot_of s p with
           | Some (Some _) => Ok tt (store_slot p (Some x) s)
           | _ => Undefined
           end.
(** [p] addresses storage for one element *)
Definition storage_at (p : ptr) : M st unit :=
  fun s => match slot_of s p with Some _ => Ok tt s | None => Undefined end.
(** an object starts to live at [p]; an object that lived there and was
    not destroyed is lost *)
Definition begin_lifetime (p : ptr) (x : T) : M st unit :=
  fun s => match slot_of s p with
           | Some None => Ok tt (store_slot p (Some x) s)
           | Some (Some old) => Ok tt (store_slot p (Some x) (set_leaked (fun l => l ++ [old]) s))
           | None => Undefined
           end.
(** [p->~T()] *)
Definition destroy_at (p : ptr) : M st unit :=
  fun s => match slot_of s p with
           | Some (Some x) => Ok tt (store_slot p None (set_world (destroy x (world s)) s))
           | _ => Undefined
           end.

(** *** Running the special member functions of the element type *)

Definition run_ctor (c : W -> (exn + T) * W) : M st T :=
  fun s => match c (world s) with
           | (inr x, w) => Ok x (set_world w s)
           | (inl e, w) => Exn e (set_world w s)
           end.

(** [::new (p) T()] *)
Definition new_value (p : ptr) : M st unit :=
  storage_at p ;; x <- run_ctor value_construct ;; begin_lifetime p x.

(** [::new (p) T(src[0])] *)
Definition new_copy (p src : ptr) : M st unit :=
  storage_at p ;; x <- read_obj src ;; y <- run_ctor (copy_construct x) ;; begin_lifetime p y.

(** [T(std::move(x))] for an object [x] held by the caller; a throwing move
    constructor that is declared [noexcept] ends the program *)
Definition run_move_ctor (x : T) : M st (T * T) :=
  fun s => match move_construct x (world s) with
           | (inr y, x', w) => Ok (y, x') (set_world w s)
           | (inl e, x', w) =>
               if is_nothrow_move_constructible then Aborted
               else Exn e (set_world w s)
           end.

(** [::new (p) T(std::move(src[0]))]; the source keeps the state the move
    constructor leaves it in, also when the constructor throws *)
Definition new_move (p src : ptr) : M st unit :=
  storage_at p ;;
  x <- read_obj src ;;
  fun s => match move_construct x (world s) with
           | (inr y, x', w) => (write_obj src x' ;; begin_lifetime p y) (set_world w s)
           | (inl e, x', w) =>
               if is_nothrow_move_constructible then Aborted
               else (write_obj src x' ;; throw e) (set_world w s)
           end.

(** [T(std::forward<Args>(args)...)] *)
Definition run_args_ctor (a : ctor_args T A) : M st T :=
  match a with
  | FromArgs a => run_ctor (construct a)
  | FromLvalue x => run_ctor (copy_construct x)
  | FromRvalue x => yx <- run_move_ctor x ;; ret (fst yx)
  end.

(** [::new (p) T(std::forward<Args>(args)...)] *)
Definition new_args (p : ptr) (a : ctor_args T A) : M st unit :=
  storage_at p ;; x <- run_args_ctor a ;; begin_lifetime p x.

(** [dst[0] = src[0]] *)
Definition assign_copy (dst src : ptr) : M st unit :=
  d <- read_obj dst ;;
  x <- read_obj src ;;
  fun s => match copy_assign d x (world s) with
           | (None, d', w) => write_obj dst d' (set_world w s)
           | (Some e, d', w) => (write_obj dst d' ;; throw e) (set_world w s)
           end.

(** [dst[0] = std::move(src[0])] *)
Definition assign_move (dst src : ptr) : M st unit :=
  d <- read_obj dst ;;
  x <- read_obj src ;;
  fun s => match move_assign d x (world s) with
           | (None, d', x', w) => (write_obj src x' ;; write_obj dst d') (set_world w s)
           | (Some e, d', x', w) =>
               (write_obj src x' ;; write_obj dst d' ;; throw e) (set_world w s)
           end.

(** [dst[0] = std::move(tmp)] for the automatic object [tmp] of the
    enclosing scope, which keeps what the assignment leaves in it *)
Definition assign_move_from (dst : ptr) : M (T * st) unit :=
  d <- lift (read_obj dst) ;;
  tmp <- get_local ;;
  fun ls => match move_assign d tmp (world (snd ls)) with
            | (None, d', tmp', w) =>
                lift (write_obj dst d') (tmp', set_world w (snd ls))
            | (Some e, d', tmp', w) =>
                lift (write_obj dst d' ;; throw e) (tmp', set_world w (snd ls))
            end.

(** An automatic object of type [T], destroyed when its scope is left. *)
Definition scoped_obj {X} (init : T) (body : M (T * st) X) : M st X :=
  fun s => match body (init, s) with
           | Ok x (t, s') => Ok x (set_world (destroy t (world s')) s')
           | Exn e (t, s') => Exn e (set_world (destroy t (world s')) s')
           | Undefined => Undefined
           | Aborted => Aborted
           end.

(** *** The global allocation functions

    Modelled from the C++ standard: [operator new] returns a block of the
    requested size that no live block overlaps, or throws
    [std::bad_alloc]; no block is larger than [PTRDIFF_MAX] bytes.  A
    block of [bytes] bytes has room for [bytes / sizeof(T)] elements. *)
Definition operator_new (bytes : N) : M st ptr :=
  fun s => if (PTRDIFF_MAX <? bytes)%N then Exn bad_alloc s
           else match allocator bytes (world s) with
                | (true, w) =>
                    let h := free_block s in
                    Ok (Ptr h 0)
                       (set_heap <[h := replicate (N.to_nat (bytes / Npos sizeof)) None]>
                          (set_world w s))
                | (false, w) => Exn bad_alloc (set_world w s)
                end.

Definition live_objects (blk : list (option T)) : list T := omap id blk.

(** Modelled from the C++ standard: [operator delete] accepts a null
    pointer or a pointer obtained from [operator new] and not yet
    released.  Objects still alive in the block are never destroyed. *)
Definition operator_delete (p : ptr) : M st unit :=
  fun s => match p with
           | nullptr => Ok tt s
           | Ptr h 0 => match heap s !! h with
                        | Some blk =>
                            Ok tt (set_heap (delete h)
                                     (set_leaked (fun l => l ++ live_objects blk) s))
                        | None => Undefined
                        end
           | Ptr _ (S _) => Undefined
           end.

(** *** Algorithms of [<memory>] and [<algorithm>]

    Modelled from the C++ standard.  The uninitialized algorithms
    construct [n] objects one after the other; when a constructor throws
    they destroy the objects they constructed and rethrow. *)
Fixpoint construct_n (one : nat -> M st unit) (k n : nat) : M st (option (exn * nat)) :=
  match n with
  | 0 => ret None
  | S n' =>
      r <- attempt (one k) ;;
      match r with
      | inl e => ret (Some (e, k))
      | inr _ => construct_n one (S k) n'
      end
  end.

(** [std::destroy_n(first, n)]; the iterator it returns is not used *)
Fixpoint destroy_n (first : ptr) (n : nat) : M st unit :=
  match n with
  | 0 => ret tt
  | S n' => destroy_at first ;; destroy_n (shift first 1) n'
  end.

Definition uninitialized_n (one : nat -> M st unit) (n : nat) (result : ptr) : M st ptr :=
  r <- construct_n one 0 n ;;
  match r with
  | None => ret (shift result n)
  | Some (e, k) => destroy_n result k ;; throw e
  end.

Definition uninitialized_value_construct_n (first : ptr) (n : nat) : M st ptr :=
  uninitialized_n (fun k => new_value (shift first k)) n first.

Definition uninitialized_copy_n (first : ptr) (n : nat) (result : ptr) : M st ptr :=
  uninitialized_n (fun k => new_copy (shift result k) (shift first k)) n result.

Definition uninitialized_move_n (first : ptr) (n : nat) (result : ptr) : M st ptr :=
  uninitialized_n (fun k => new_move (shift result k) (shift first k)) n result.

(** the length of the range [[first, last)], which must lie in one block *)
Definition range_length (first last : ptr) : M st nat :=
  match first, last with
  | nullptr, nullptr => ret 0
  | Ptr h i, Ptr h' j =>
      if decide (h = h') then if i <=? j then ret (j - i) else undefined
      else undefined
  | _, _ => undefined
  end.

Definition uninitialized_copy (first last result : ptr) : M st ptr :=
  n <- range_length first last ;; uninitialized_copy_n first n result.

Definition uninitialized_move (first last result : ptr) : M st ptr :=
  n <- range_length first last ;; uninitialized_move_n first n result.

(** [std::destroy(first, last)] *)
Definition destroy_range (first last : ptr) : M st unit :=
  n <- range_length first last ;; destroy_n first n.

Fixpoint move_loop (first d_first : ptr) (n : nat) : M st ptr :=
  match n with
  | 0 => ret d_first
  | S n' => assign_move d_first first ;; move_loop (shift first 1) (shift d_first 1) n'
  end.

(** [std::move(first, last, d_first)] *)
Definition std_move (first last d_first : ptr) : M st ptr :=
  n <- range_length first last ;; move_loop first d_first n.

Definition step_back (p : ptr) : M st ptr :=
  match p with
  | Ptr h (S i) => ret (Ptr h i)
  | _ => undefined
  end.

Fixpoint move_backward_loop (last d_last : ptr) (n : nat) : M st ptr :=
  match n with
  | 0 => ret d_last
  | S n' =>
      last' <- step_back last ;;
      d_last' <- step_back d_last ;;
      assign_move d_last' last' ;;
      move_backward_loop last' d_last' n'
  end.

(** [std::move_backward(first, last, d_last)] *)
Definition move_backward (first last d_last : ptr) : M st ptr :=
  n <- range_length first last ;; move_backward_loop last d_last n.

(** [for (; i < n; ++i) body(i)], returning the final [i] *)
Fixpoint for_loop (i n : nat) (body : nat -> M st unit) : M st nat :=
  match n with
  | 0 => ret i
  | S n' => body i ;; for_loop (S i) n' body
  end.

End Primitives.

(** ** [class RawMemory]

    Every member function takes the address [this] of the object it is
    called on. *)
Module RawMemory.
Section Methods.
Context {T A W : Type} `{!Element T A W} `{!Build}.

Local Abbreviation st := (state T W).

(** [static T* Allocate(size_t n)] *)
Definition Allocate (n : nat) : M st ptr :=
  if negb (n =? 0) then operator_new ((N.of_nat n * Npos sizeof) mod 2 ^ 64)
  else ret nullptr.

(** [static void Deallocate(T* buf) noexcept] *)
Definition Deallocate (buf : ptr) : M st unit :=
  noexcept (operator_delete buf).

(** [RawMemory() = default] *)
Definition ctor_default (this : positive) : M st unit :=
  init_raw this {| buffer_ := nullptr; capacity_ := 0 |}.

(** [explicit RawMemory(size_t capacity)] *)
Definition ctor (this : positive) (capacity : nat) : M st unit :=
  b <- Allocate capacity ;;
  init_raw this {| buffer_ := b; capacity_ := capacity |}.

(** [RawMemory(RawMemory&& other) noexcept] *)
Definition move_ctor (this other : positive) : M st unit :=
  noexcept (
    b <- get_buffer other ;;
    c <- get_capacity other ;;
    init_raw this {| buffer_ := b; capacity_ := c |}).

(** [RawMemory& operator=(RawMemory&& rhs) noexcept] *)
Definition move_assign (this rhs : positive) : M st unit :=
  noexcept (
    b <- get_buffer rhs ;;
    set_buffer this b ;;
    c <- get_capacity rhs ;;
    set_capacity this c ;;
    set_buffer rhs nullptr ;;
    set_capacity rhs 0).

(** [~RawMemory()]; the storage of the object itself is given back by
    whoever owns it *)
Definition dtor (this : positive) : M st unit :=
  b <- get_buffer this ;;
  Deallocate b.

(** [T* operator+(size_t offset) noexcept] *)
Definition plus (this : positive) (offset : nat) : M st ptr :=
  noexcept (
    c <- get_capacity this ;;
    assert_ (offset <=? c) ;;
    b <- get_buffer this ;;
    ptr_add b offset).

(** [T& operator[](size_t index) noexcept]; the reference is the address
    of the slot *)
Definition index (this : positive) (i : nat) : M st ptr :=
  noexcept (
    c <- get_capacity this ;;
    assert_ (i <? c) ;;
    b <- get_buffer this ;;
    ptr_add b i).

(** [std::swap] of two [T*] and of two [size_t] members *)
Definition swap_buffer (a b : positive) : M st unit :=
  tmp <- get_buffer a ;;
  x <- get_buffer b ;;
  set_buffer a x ;;
  set_buffer b tmp.
Definition swap_capacity (a b : positive) : M st unit :=
  tmp <- get_capacity a ;;
  x <- get_capacity b ;;
  set_capacity a x ;;
  set_capacity b tmp.

(** [void Swap(RawMemory& other) noexcept] *)
Definition Swap (this other : positive) : M st unit :=
  noexcept (swap_buffer this other ;; swap_capacity this other).

(** [T* GetAddress() noexcept] *)
Definition GetAddress (this : positive) : M st ptr :=
  noexcept (get_buffer this).

(** [size_t Capacity() const] *)
Definition Capacity (this : positive) : M st nat :=
  get_capacity this.

(** An automatic [RawMemory] object: constructed by [init] at a free
    address, in scope for [body], destroyed when the scope is left. *)
Definition scoped {X} (init : positive -> M st unit) (body : positive -> M st X) : M st X :=
  l <- alloca ;;
  init l ;;
  finally (body l) (dtor l ;; end_raw l).

(** [std::swap(a, b)] for two [RawMemory] objects: a temporary
    move-constructed from [a], then two move assignments *)
Definition std_swap (a b : positive) : M st unit :=
  scoped (fun tmp => move_ctor tmp a)
         (fun tmp => move_assign a b ;; move_assign b tmp).

End Methods.
End RawMemory.

(** ** [class Vector]: the member functions the two versions share *)
Module Vector.
Section Methods.
Context {T A W : Type} `{!Element T A W} `{!Build}.

Local Abbreviation st := (state T W).

(** [size_t Size() const noexcept] *)
Definition Size (this : positive) : M st nat :=
  noexcept (get_size this).

(** [size_t Capacity() const noexcept] *)
Definition Capacity (this : positive) : M st nat :=
  noexcept (RawMemory.Capacity this).

(** [iterator begin() noexcept] *)
Definition begin (this : positive) : M st ptr :=
  noexcept (RawMemory.GetAddress this).

(** [iterator end() noexcept] *)
Definition end_ (this : positive) : M st ptr :=
  noexcept (n <- get_size this ;; RawMemory.plus this n).

(** [const_iterator cbegin() const noexcept] *)
Definition cbegin (this : positive) : M st ptr :=
  noexcept (begin this).

(** [const_iterator cend() const noexcept] *)
Definition cend (this : positive) : M st ptr :=
  noexcept (end_ this).

(** the destructors of the members [size_] and [data_], in that order *)
Definition destroy_members (this : positive) : M st unit :=
  end_size this ;;
  RawMemory.dtor this ;;
  end_raw this.

(** [~Vector()] *)
Definition dtor (this : positive) : M st unit :=
  a <- RawMemory.GetAddress this ;;
  n <- get_size this ;;
  destroy_n a n ;;
  destroy_members this.

(** [std::swap] of two [size_t] members *)
Definition swap_size (a b : positive) : M st unit :=
  tmp <- get_size a ;;
  x <- get_size b ;;
  set_size a x ;;
  set_size b tmp.

(** [void Swap(Vector& other) noexcept] *)
Definition Swap (this other : positive) : M st unit :=
  noexcept (RawMemory.std_swap this other ;; swap_size this other).

(** [Vector() noexcept = default] *)
Definition ctor_default (this : positive) : M st unit :=
  noexcept (RawMemory.ctor_default this ;; init_size this 0).

(** [explicit Vector(size_t size)]; when the body throws, the members
    already initialised are destroyed *)
Definition ctor_size (this : positive) (size : nat) : M st unit :=
  RawMemory.ctor this size ;;
  init_size this size ;;
  catch_all
    (a <- RawMemory.GetAddress this ;;
     uninitialized_value_construct_n a size ;;
     ret tt)
    (destroy_members this).

(** [Vector(const Vector& other)] *)
Definition copy_ctor (this other : positive) : M st unit :=
  n <- get_size other ;;
  RawMemory.ctor this n ;;
  n <- get_size other ;;
  init_size this n ;;
  catch_all
    (src <- RawMemory.GetAddress other ;;
     n <- get_size other ;;
     dst <- RawMemory.GetAddress this ;;
     uninitialized_copy_n src n dst ;;
     ret tt)
    (destroy_members this).

(** [Vector(Vector&& other) noexcept] *)
Definition move_ctor (this other : positive) : M st unit :=
  noexcept (
    RawMemory.ctor_default this ;;
    init_size this 0 ;;
    Swap this other).

(** An automatic [Vector] object. *)
Definition scoped {X} (init : positive -> M st unit) (body : positive -> M st X) : M st X :=
  l <- alloca ;;
  init l ;;
  finally (body l) (dtor l).

(** [data_[i] = rhs.data_[i]] *)
Definition assign_element (this rhs : positive) (i : nat) : M st unit :=
  dst <- RawMemory.index this i ;;
  src <- RawMemory.index rhs i ;;
  assign_copy dst src.

(** [Vector& operator=(const Vector& rhs)]; the reference it returns is
    [this] *)
Definition copy_assign (this rhs : positive) : M st positive :=
  (if negb (bool_decide (this = rhs)) then
     rhs_size <- get_size rhs ;;
     c <- RawMemory.Capacity this ;;
     if c <? rhs_size then
       scoped (fun rhs_copy => copy_ctor rhs_copy rhs)
              (fun rhs_copy => Swap this rhs_copy)
     else
       (size <- get_size this ;;
        if rhs_size <? size then
          i <- for_loop 0 rhs_size (assign_element this rhs) ;;
          p <- RawMemory.plus this i ;;
          rhs_size <- get_size rhs ;;
          destroy_n p (size_sub size rhs_size)
        else
          i <- for_loop 0 size (assign_element this rhs) ;;
          src <- RawMemory.plus rhs i ;;
          rhs_size <- get_size rhs ;;
          dst <- RawMemory.plus this i ;;
          uninitialized_copy_n src (size_sub rhs_size size) dst ;;
          ret tt) ;;
       rhs_size <- get_size rhs ;;
       set_size this rhs_size
   else ret tt) ;;
  ret this.

(** [Vector& operator=(Vector&& rhs) noexcept] *)
Definition move_assign (this rhs : positive) : M st positive :=
  noexcept (Swap this rhs ;; ret this).

(** [void Reserve(size_t new_capacity)] *)
Definition Reserve (this : positive) (new_capacity : nat) : M st unit :=
  c <- RawMemory.Capacity this ;;
  if new_capacity <=? c then ret tt
  else
    RawMemory.scoped (fun new_data => RawMemory.ctor new_data new_capacity)
      (fun new_data =>
         (if is_nothrow_move_constructible || negb is_copy_constructible then
            src <- RawMemory.GetAddress this ;;
            n <- get_size this ;;
            dst <- RawMemory.GetAddress new_data ;;
            uninitialized_move_n src n dst
          else
            src <- RawMemory.GetAddress this ;;
            n <- get_size this ;;
            dst <- RawMemory.GetAddress new_data ;;
            uninitialized_copy_n src n dst) ;;
         a <- RawMemory.GetAddress this ;;
         n <- get_size this ;;
         destroy_n a n ;;
         RawMemory.Swap this new_data).

(** [void Resize(size_t new_size)] *)
Definition Resize (this : positive) (new_size : nat) : M st unit :=
  size <- get_size this ;;
  if new_size =? size then ret tt
  else
    (if new_size <? size then
       p <- RawMemory.plus this new_size ;;
       destroy_n p (size_sub size new_size)
     else
       Reserve this new_size ;;
       size <- get_size this ;;
       p <- RawMemory.plus this size ;;
       uninitialized_value_construct_n p (size_sub new_size size) ;;
       ret tt) ;;
    set_size this new_size.

(** [T& operator[](size_t index) noexcept] *)
Definition index (this : positive) (i : nat) : M st ptr :=
  noexcept (
    size <- get_size this ;;
    assert_ (i <? size) ;;
    RawMemory.index this i).

(** [++size_] and [--size_] *)
Definition incr_size (this : positive) : M st unit :=
  n <- get_size this ;; set_size this (size_add n 1).
Definition decr_size (this : positive) : M st unit :=
  n <- get_size this ;; set_size this (size_sub n 1).

End Methods.
End Vector.

(** ** The insertion and removal functions of [advanced-vector/vector.h] *)
Module VectorH.
Section Methods.
Context {T A W : Type} `{!Element T A W} `{!Build}.

Local Abbreviation st := (state T W).

(** [void UninitializedMoveOrCopy(iterator begin, iterator end, iterator dest)] *)
Definition UninitializedMoveOrCopy (first last dest : ptr) : M st unit :=
  if is_nothrow_move_constructible || negb is_copy_constructible then
    uninitialized_move first last dest ;; ret tt
  else
    uninitialized_copy first last dest ;; ret tt.

(** [iterator EmplaceRealloc(const_iterator pos, Args&&... args)] *)
Definition EmplaceRealloc (this : positive) (pos : ptr) (args : ctor_args T A) : M st ptr :=
  size <- get_size this ;;
  let new_capacity := if size =? 0 then 1 else size_mul size 2 in
  RawMemory.scoped (fun new_data => RawMemory.ctor new_data new_capacity)
    (fun new_data =>
       let position := pos in
       new_begin <- RawMemory.GetAddress new_data ;;
       cb <- Vector.cbegin this ;;
       d <- ptr_diff pos cb ;;
       new_position <- RawMemory.plus new_data d ;;
       local 0 (
         catch_all
           (lift (new_args new_position args) ;;
            step <- get_local ;; set_local (step + 1) ;;
            b <- lift (Vector.begin this) ;;
            lift (UninitializedMoveOrCopy b position new_begin) ;;
            step <- get_local ;; set_local (step + 1) ;;
            e <- lift (Vector.end_ this) ;;
            np1 <- lift (ptr_add new_position 1) ;;
            lift (UninitializedMoveOrCopy position e np1) ;;
            b <- lift (Vector.begin this) ;;
            size <- lift (get_size this) ;;
            lift (destroy_n b size) ;;
            lift (RawMemory.Swap this new_data))
           (step <- get_local ;;
            if step =? 1 then lift (destroy_n new_position 1)
            else if step =? 2 then
              np1 <- lift (ptr_add new_position 1) ;;
              lift (destroy_range new_begin np1)
            else ret tt)) ;;
       Vector.incr_size this ;;
       ret new_position).

(** [iterator Emplace(const_iterator pos, Args&&... args)] *)
Definition Emplace (this : positive) (pos : ptr) (args : ctor_args T A) : M st ptr :=
  let position := pos in
  size <- get_size this ;;
  c <- Vector.Capacity this ;;
  if size =? c then EmplaceRealloc this pos args
  else
    e <- Vector.end_ this ;;
    if bool_decide (position = e) then
      new_args position args ;;
      Vector.incr_size this ;;
      ret position
    else
      tmp <- run_args_ctor args ;;
      scoped_obj tmp (
        e <- lift (Vector.end_ this) ;;
        last <- lift (ptr_sub e 1) ;;
        e <- lift (Vector.end_ this) ;;
        lift (uninitialized_move_n last 1 e) ;;
        e <- lift (Vector.end_ this) ;;
        last <- lift (ptr_sub e 1) ;;
        e <- lift (Vector.end_ this) ;;
        lift (move_backward position last e) ;;
        assign_move_from position ;;
        lift (Vector.incr_size this) ;;
        ret position).

(** [iterator Insert(const_iterator pos, T&& value)] *)
Definition Insert_rvalue (this : positive) (pos : ptr) (value : T) : M st ptr :=
  Emplace this pos (FromRvalue value).

(** [iterator Insert(const_iterator pos, const T& value)] *)
Definition Insert (this : positive) (pos : ptr) (value : T) : M st ptr :=
  Emplace this pos (FromLvalue value).

(** [T& EmplaceBack(Args&&... args)] *)
Definition EmplaceBack (this : positive) (args : ctor_args T A) : M st ptr :=
  e <- Vector.end_ this ;;
  Emplace this e args.

(** [void PushBack(T&& value)] *)
Definition PushBack_rvalue (this : positive) (value : T) : M st unit :=
  EmplaceBack this (FromRvalue value) ;; ret tt.

(** [void PushBack(const T& value)] *)
Definition PushBack (this : positive) (value : T) : M st unit :=
  EmplaceBack this (FromLvalue value) ;; ret tt.

(** [void PopBack() noexcept] *)
Definition PopBack (this : positive) : M st unit :=
  noexcept (
    size <- get_size this ;;
    assert_ (0 <? size) ;;
    e <- Vector.end_ this ;;
    last <- ptr_sub e 1 ;;
    destroy_n last 1 ;;
    Vector.decr_size this).

(** [iterator Erase(const_iterator pos)] *)
Definition Erase (this : positive) (pos : ptr) : M st ptr :=
  let position := pos in
  next <- ptr_add position 1 ;;
  e <- Vector.end_ this ;;
  std_move next e position ;;
  PopBack this ;;
  ret position.

End Methods.
End VectorH.

(** ** The insertion and removal functions of the second version of the
    header ([unnamed/part_000]) *)
Module Part000.
Section Methods.
Context {T A W : Type} `{!Element T A W} `{!Build}.

Local Abbreviation st := (state T W).

(** [iterator Emplace(const_iterator pos, Args&&... args)] *)
Definition Emplace (this : positive) (pos : ptr) (args : ctor_args T A) : M st ptr :=
  cb <- Vector.cbegin this ;;
  indx <- ptr_diff pos cb ;;
  b <- Vector.begin this ;;
  position <- ptr_add b indx ;;
  size <- get_size this ;;
  c <- Vector.Capacity this ;;
  (if size =? c then
     size <- get_size this ;;
     let new_capacity := if size =? 0 then 1 else size_mul size 2 in
     RawMemory.scoped (fun new_data => RawMemory.ctor new_data new_capacity)
       (fun new_data =>
          local 0 (
            catch_all
              (p <- lift (RawMemory.plus new_data indx) ;;
               lift (new_args p args) ;;
               step <- get_local ;; set_local (step + 1) ;;
               (if is_nothrow_move_constructible || negb is_copy_constructible then
                  b <- lift (Vector.begin this) ;;
                  d <- lift (RawMemory.GetAddress new_data) ;;
                  lift (uninitialized_move b position d) ;;
                  step <- get_local ;; set_local (step + 1) ;;
                  e <- lift (Vector.end_ this) ;;
                  p <- lift (RawMemory.plus new_data indx) ;;
                  p1 <- lift (ptr_add p 1) ;;
                  lift (uninitialized_move position e p1) ;;
                  ret tt
                else
                  b <- lift (Vector.begin this) ;;
                  d <- lift (RawMemory.GetAddress new_data) ;;
                  lift (uninitialized_copy b position d) ;;
                  step <- get_local ;; set_local (step + 2) ;;
                  e <- lift (Vector.end_ this) ;;
                  p <- lift (RawMemory.plus new_data indx) ;;
                  p1 <- lift (ptr_add p 1) ;;
                  lift (uninitialized_copy position e p1) ;;
                  ret tt) ;;
               b <- lift (Vector.begin this) ;;
               size <- lift (get_size this) ;;
               lift (destroy_n b size) ;;
               lift (RawMemory.Swap this new_data))
              (step <- get_local ;;
               if step =? 1 then
                 p <- lift (RawMemory.index new_data indx) ;;
                 lift (destroy_at p)
               else if 1 <? step then
                 d <- lift (RawMemory.GetAddress new_data) ;;
                 lift (destroy_n d (size_add indx 1))
               else ret tt)))
   else
     ce <- Vector.cend this ;;
     if bool_decide (pos = ce) then
       e <- Vector.end_ this ;;
       new_args e args
     else
       tmp <- run_args_ctor args ;;
       scoped_obj tmp (
         e <- lift (Vector.end_ this) ;;
         last <- lift (ptr_sub e 1) ;;
         e <- lift (Vector.end_ this) ;;
         lift (uninitialized_move_n last 1 e) ;;
         e <- lift (Vector.end_ this) ;;
         last <- lift (ptr_sub e 1) ;;
         e <- lift (Vector.end_ this) ;;
         lift (move_backward position last e) ;;
         p <- lift (RawMemory.index this indx) ;;
         assign_move_from p)) ;;
  Vector.incr_size this ;;
  b <- Vector.begin this ;;
  ptr_add b indx.

(** [iterator Insert(const_iterator pos, T&& value)] *)
Definition Insert_rvalue (this : positive) (pos : ptr) (value : T) : M st ptr :=
  Emplace this pos (FromRvalue value).

(** [iterator Insert(const_iterator pos, const T& value)] *)
Definition Insert (this : positive) (pos : ptr) (value : T) : M st ptr :=
  Emplace this pos (FromLvalue value).

(** [T& EmplaceBack(Args&&... args)] *)
Definition EmplaceBack (this : positive) (args : ctor_args T A) : M st ptr :=
  e <- Vector.end_ this ;;
  Emplace this e args.

(** [void PushBack(T&& value)] *)
Definition PushBack_rvalue (this : positive) (value : T) : M st unit :=
  EmplaceBack this (FromRvalue value) ;; ret tt.

(** [void PushBack(const T& value)] *)
Definition PushBack (this : positive) (value : T) : M st unit :=
  EmplaceBack this (FromLvalue value) ;; ret tt.

(** [void PopBack() noexcept] *)
Definition PopBack (this : positive) : M st unit :=
  noexcept (
    e <- Vector.end_ this ;;
    last <- ptr_sub e 1 ;;
    destroy_n last 1 ;;
    Vector.decr_size this).

(** [iterator Erase(const_iterator pos)] *)
Definition Erase (this : positive) (pos : ptr) : M st ptr :=
  b <- Vector.begin this ;;
  indx <- ptr_diff pos b ;;
  b <- Vector.begin this ;;
  p <- ptr_add b indx ;;
  next <- ptr_add p 1 ;;
  e <- Vector.end_ this ;;
  b <- Vector.begin this ;;
  dst <- ptr_add b indx ;;
  std_move next e dst ;;
  e <- Vector.end_ this ;;
  last <- ptr_sub e 1 ;;
  destroy_n last 1 ;;
  Vector.decr_size this ;;
  b <- Vector.begin this ;;
  ptr_add b indx.

End Methods.
End Part000.

(** * Specification vocabulary *)

Section Vocabulary.
Context {T A W : Type} {HE : Element T A W}.

(** the destructors of [xs] run from the first to the last *)
Definition destroy_all (xs : list T) (w : W) : W :=
  foldl (fun w x => destroy x w) w xs.

(** Copy-constructing [xs] one after the other: the copies made, the
    exception that stopped the loop, the world afterwards. *)
Fixpoint copy_list (xs : list T) (w : W) : list T * option exn * W :=
  match xs with
  | [] => ([], None, w)
  | x :: xs' =>
      match copy_construct x w with
      | (inr y, w') => let '(ys, r, w'') := copy_list xs' w' in (y :: ys, r, w'')
      | (inl e, w') => ([], Some e, w')
      end
  end.

(** Move-constructing from [xs]: the new objects, what is left in the
    sources, the exception that stopped the loop, the world. *)
Fixpoint move_list (xs : list T) (w : W) : list T * list T * option exn * W :=
  match xs with
  | [] => ([], [], None, w)
  | x :: xs' =>
      match move_construct x w with
      | (inr y, x', w') =>
          let '(ys, srcs, r, w'') := move_list xs' w' in (y :: ys, x' :: srcs, r, w'')
      | (inl e, x', w') => ([], x' :: xs', Some e, w')
      end
  end.

(** Value-constructing [n] objects. *)
Fixpoint value_list (n : nat) (w : W) : list T * option exn * W :=
  match n with
  | 0 => ([], None, w)
  | S n' =>
      match value_construct w with
      | (inr y, w') => let '(ys, r, w'') := value_list n' w' in (y :: ys, r, w'')
      | (inl e, w') => ([], Some e, w')
      end
  end.

(** The transfer policy of [Reserve] and of the reallocating insertion. *)
Definition relocates_by_move : bool :=
  is_nothrow_move_constructible || negb is_copy_constructible.

Definition relocate_list (xs : list T) (w : W) : list T * list T * option exn * W :=
  if relocates_by_move then move_list xs w
  else let '(ys, r, w') := copy_list xs w in (ys, xs, r, w').

(** Relocation cannot damage the old elements: it copies, or it moves
    with a move constructor that does not throw. *)
Definition safe_relocation : Prop :=
  if is_nothrow_move_constructible
  then forall x w, exists y x' w', move_construct x w = (inr y, x', w')
  else is_copy_constructible = true.

(** The slots of a buffer of capacity [cap] whose first [length xs] slots
    hold [xs]. *)
Definition block_of (xs : list T) (cap : nat) : list (option T) :=
  (Some <$> xs) ++ replicate (cap - length xs) None.

(** The representation invariant: the vector at address [v] owns the
    buffer [buf] of capacity [cap] and holds the elements [xs]. *)
Record vec_at (s : state T W) (v : positive) (buf : ptr) (xs : list T) (cap : nat) : Prop := {
  va_raw : raws s !! v = Some {| buffer_ := buf; capacity_ := cap |};
  va_size : sizes s !! v = Some (length xs);
  va_le : length xs <= cap;
  va_buf : match buf with
           | nullptr => cap = 0
           | Ptr h i => i = 0 /\ 0 < cap /\ heap s !! h = Some (block_of xs cap)
           end;
  va_bound : (N.of_nat cap * Npos sizeof <= PTRDIFF_MAX)%N
}.

(** the iterator [begin() + i] of a vector whose buffer is [buf] *)
Definition iter (buf : ptr) (i : nat) : ptr := shift buf i.

(** Two buffers do not share a block. *)
Definition separate (p q : ptr) : Prop :=
  match p, q with
  | Ptr h _, Ptr h' _ => h <> h'
  | _, _ => True
  end.

(** The capacity after [k] calls of [PushBack] on an empty vector, in the
    words of the specification: [capacity' = max(1, 2 * capacity)],
    applied at the steps where size equals capacity before the push. *)
Fixpoint spec_capacity (k : nat) : nat :=
  match k with
  | 0 => 0
  | S k' =>
      let c := spec_capacity k' in
      if k' =? c then Nat.max 1 (2 * c) else c
  end.

(** ** Allocation *)

(** Whether [Allocate(n)] obtains storage, for [n > 0] elements whose
    byte count fits [size_t]. *)
Definition allocation (n : nat) (w : W) : bool * W :=
  if (PTRDIFF_MAX <? N.of_nat n * Npos sizeof)%N then (false, w)
  else allocator (N.of_nat n * Npos sizeof)%N w.

(** the byte count of [n] elements is representable in [size_t] *)
Definition representable (n : nat) : Prop :=
  (N.of_nat n * Npos sizeof < 2 ^ 64)%N.

(** the heap after the block of buffer [p] is released *)
Definition released (p : ptr) (hp : gmap positive (list (option T))) :
    gmap positive (list (option T)) :=
  match p with
  | nullptr => hp
  | Ptr h _ => delete h hp
  end.

(** [ys'] are copies of [ys], made by the copy constructor one by one *)
Definition copies_of (ys ys' : list T) : Prop :=
  Forall2 (fun y y' => exists w w', copy_construct y w = (inr y', w')) ys ys'.
(** the heap in which the block of buffer [p], of capacity [cap], holds [xs] *)
Definition with_elements (p : ptr) (xs : list T) (cap : nat)
    (hp : gmap positive (list (option T))) : gmap positive (list (option T)) :=
  match p with
  | nullptr => hp
  | Ptr h _ => <[h := block_of xs cap]> hp
  end.
(** ** Insertion and removal, as functions of the elements *)

(** What [T(std::forward<Args>(args)...)] yields; [None] when a move
    constructor declared [noexcept] throws. *)
Definition args_outcome (a : ctor_args T A) (w : W) : option ((exn + T) * W) :=
  match a with
  | FromArgs a => Some (construct a w)
  | FromLvalue x => Some (copy_construct x w)
  | FromRvalue x =>
      match move_construct x w with
      | (inr y, _, w') => Some (inr y, w')
      | (inl e, _, w') =>
          if is_nothrow_move_constructible then None else Some (inl e, w')
      end
  end.

(** the capacity the reallocating insertion asks for *)
Definition grown (size : nat) : nat := if size =? 0 then 1 else size * 2.

(** How an operation on the elements [xs] of a vector ends. *)
Inductive outcome : Type :=
| Done (elems : list T) (w : W)       (** completed: the new elements *)
| Failed (e : exn) (elems : list T) (w : W)
                                      (** threw [e]: what the old elements are now *)
| Terminated.                         (** [std::terminate] *)

(** The reallocating insertion of an element built from [args] at index
    [indx] of a full vector holding [xs], step by step: allocation, the
    new element, the elements before [indx], the elements from [indx]. *)
Definition realloc_insert (xs : list T) (indx : nat) (args : ctor_args T A) (w : W) : outcome :=
  match allocation (grown (length xs)) w with
  | (false, w0) => Failed bad_alloc xs w0
  | (true, w0) =>
      match args_outcome args w0 with
      | None => Terminated
      | Some (inl e, w1) => Failed e xs w1
      | Some (inr x, w1) =>
          match relocate_list (take indx xs) w1 with
          | (ys1, srcs1, Some e, w2) =>
              if is_nothrow_move_constructible then Terminated
              else Failed e (srcs1 ++ drop indx xs) (destroy x (destroy_all ys1 w2))
          | (ys1, srcs1, None, w2) =>
              match relocate_list (drop indx xs) w2 with
              | (ys2, srcs2, Some e, w3) =>
                  if is_nothrow_move_constructible then Terminated
                  else Failed e (srcs1 ++ srcs2)
                         (destroy_all (ys1 ++ [x]) (destroy_all ys2 w3))
              | (ys2, srcs2, None, w3) =>
                  Done (ys1 ++ x :: ys2) (destroy_all (srcs1 ++ srcs2) w3)
              end
          end
      end
  end.

(** Move-assigning along a row of objects: [d] receives the first of
    [xs], which receives the second, and so on.  The row afterwards, the
    exception that stopped the loop, the world. *)
Fixpoint move_chain (d : T) (xs : list T) (w : W) : list T * option exn * W :=
  match xs with
  | [] => ([d], None, w)
  | x :: xs' =>
      match move_assign d x w with
      | (None, d', x', w') =>
          let '(seg, r, w'') := move_chain x' xs' w' in (d' :: seg, r, w'')
      | (Some e, d', x', w') => (d' :: x' :: xs', Some e, w')
      end
  end.

(** The in-place insertion at the end of a vector with room. *)
Definition append_in_place (xs : list T) (args : ctor_args T A) (w : W) : outcome :=
  match args_outcome args w with
  | None => Terminated
  | Some (inl e, w') => Failed e xs w'
  | Some (inr x, w') => Done (xs ++ [x]) w'
  end.

(** The in-place insertion before index [length xa] of a vector holding
    [xa ++ mid ++ [z]]: the temporary, the move of the last element into
    the raw slot behind it, the shift to the right from the back, the
    assignment of the temporary.  A failure after the second step leaves
    one more live object in the block than the size counts. *)
Definition insert_in_place (xa mid : list T) (z : T) (args : ctor_args T A) (w : W) : outcome :=
  match args_outcome args w with
  | None => Terminated
  | Some (inl e, w0) => Failed e (xa ++ mid ++ [z]) w0
  | Some (inr tmp, w0) =>
      match move_construct z w0 with
      | (inl e, z', w1) =>
          if is_nothrow_move_constructible then Terminated
          else Failed e (xa ++ mid ++ [z']) (destroy tmp w1)
      | (inr y, z', w1) =>
          match move_chain z' (rev mid) w1 with
          | (seg, Some e, w2) => Failed e (xa ++ rev seg ++ [y]) (destroy tmp w2)
          | (seg, None, w2) =>
              match rev seg with
              | [] => Terminated
              | d :: rest =>
                  match move_assign d tmp w2 with
                  | (Some e, d', tmp', w3) =>
                      Failed e (xa ++ d' :: rest ++ [y]) (destroy tmp' w3)
                  | (None, d', tmp', w3) =>
                      Done (xa ++ d' :: rest ++ [y]) (destroy tmp' w3)
                  end
              end
          end
      end
  end.

(** Erasing the element [d] of a vector holding [xa ++ d :: xb]: the
    elements behind it are move-assigned one slot to the left, then the
    last slot is destroyed. *)
Definition erase_at (xa : list T) (d : T) (xb : list T) (w : W) : outcome :=
  match move_chain d xb w with
  | (seg, Some e, w') => Failed e (xa ++ seg) w'
  | (seg, None, w') =>
      match rev seg with
      | [] => Terminated
      | last :: front => Done (xa ++ rev front) (destroy last w')
      end
  end.

(** The state a vector operation leaves when it works inside the buffer
    [buf] of capacity [cap]: the elements of the outcome fill the first
    slots of the block; the size changes only when the operation
    completes. *)
Definition commit_in_place (s : state T W) (this : positive) (buf : ptr) (cap : nat)
    (ret : ptr) (size : nat) (o : outcome) : result (state T W) ptr :=
  match o with
  | Done elems w' =>
      Ok ret (State (raws s) (<[this := size]> (sizes s))
                (with_elements buf elems cap (heap s)) (leaked s) w')
  | Failed e elems w' =>
      Exn e (State (raws s) (sizes s) (with_elements buf elems cap (heap s)) (leaked s) w')
  | Terminated => Aborted
  end.

(** The state the reallocating insertion leaves: a completed insertion
    installs a new block of the grown capacity and releases the old one; a
    failed one leaves the vector object alone, and the old block with
    whatever the transfer left in the old elements. *)
Definition commit_realloc (s : state T W) (this : positive) (buf : ptr) (cap : nat)
    (indx size : nat) (o : outcome) : result (state T W) ptr :=
  match o with
  | Done elems w' =>
      Ok (Ptr (free_block s) indx)
         (State (<[this := {| buffer_ := Ptr (free_block s) 0; capacity_ := grown size |}]>
                   (raws s))
                (<[this := S size]> (sizes s))
                (released buf (<[free_block s := block_of elems (grown size)]> (heap s)))
                (leaked s) w')
  | Failed e elems w' =>
      Exn e (State (raws s) (sizes s) (with_elements buf elems cap (heap s)) (leaked s) w')
  | Terminated => Aborted
  end.

(** What an observer reads from the vector at [v]: its elements (the
    live objects in the first [Size()] slots) and its capacity. *)
Definition snapshot (s : state T W) (v : positive) : option (list T * nat) :=
  match raws s !! v, sizes s !! v with
  | Some r, Some n =>
      match buffer_ r with
      | nullptr => Some ([], capacity_ r)
      | Ptr h _ =>
          match heap s !! h with
          | Some blk => Some (omap id (take n blk), capacity_ r)
          | None => None
          end
      end
  | _, _ => None
  end.

(** [x] is the element an insertion with the arguments [args] puts into
    the vector: the object constructed from [args], or the object that
    received it by move assignment. *)
Definition inserted (args : ctor_args T A) (x : T) : Prop :=
  exists w w' t, args_outcome args w = Some (inr t, w')
    /\ (x = t \/ exists d t' w1 w2, move_assign d t w1 = (None, x, t', w2)).

(** [x] is what the erased object [d] became when the element [next]
    behind it was move-assigned to it. *)
Definition received (d next x : T) : Prop :=
  exists next' w1 w2, move_assign d next w1 = (None, x, next', w2).

(** ** Clients and observers *)

(** A client that calls [push] once for each value of [xs], in order:
    [length xs] consecutive calls of [PushBack]. *)
Fixpoint push_all (push : positive -> T -> M (state T W) unit) (v : positive) (xs : list T) :
    M (state T W) unit :=
  match xs with
  | [] => ret tt
  | x :: xs' => push v x ;; push_all push v xs'
  end.

(** A client with two automatic [RawMemory] objects, the second
    move-constructed from the first:
    [{ RawMemory<T> a(n); { RawMemory<T> b(std::move(a)); } }]. *)
Definition move_construct_client (n : nat) : M (state T W) unit :=
  RawMemory.scoped (fun a => RawMemory.ctor a n)
    (fun a => RawMemory.scoped (fun b => RawMemory.move_ctor b a) (fun _ => ret tt)).

Context {HB : Build}.

(** the overloads of [PushBack] in the two versions of the header *)
Definition is_PushBack (push : positive -> T -> M (state T W) unit) : Prop :=
  push = VectorH.PushBack \/ push = VectorH.PushBack_rvalue
  \/ push = Part000.PushBack \/ push = Part000.PushBack_rvalue.

(** An operation on the vector at [v], started in [s], is transactional:
    it completes and leaves a consistent vector, or it throws and leaves
    the state it found (the vector object, its size, its capacity, its
    block and elements, every other object) up to the world, in which
    constructors and destructors have run. *)
Definition transactional {X} (s : state T W) (v : positive) (r : result (state T W) X) : Prop :=
  match r with
  | Ok _ s' => exists buf xs cap, vec_at s' v buf xs cap
  | Exn _ s' => exists w', s' = set_world w' s
  | Undefined | Aborted => False
  end.

(** The run [r] ended with the exception [e], and an observer of the
    vector at [v] then reads the elements and the capacity [obs]. *)
Definition throws_leaving {X} (r : result (state T W) X) (e : exn) (v : positive)
    (obs : list T * nat) : Prop :=
  match r with
  | Exn e' s' => e' = e /\ snapshot s' v = Some obs
  | _ => False
  end.

End Vocabulary.

(** * Example element types and states *)

(** [nat] elements whose copy operations throw on the value 13; the world
    counts the live objects.  The type is copyable and its move
    constructor is not declared [noexcept]: relocation copies. *)
Definition fragile_nat : Element nat nat nat := {|
  sizeof := 4;
  construct := fun a w => if a =? 13 then (inl (thrown 13), w) else (inr a, S w);
  value_construct := fun w => (inr 0, S w);
  copy_construct := fun x w => if x =? 13 then (inl (thrown 13), w) else (inr x, S w);
  move_construct := fun x w => (inr x, 0, S w);
  copy_assign := fun d x w => if x =? 13 then (Some (thrown 13), d, w) else (None, x, w);
  move_assign := fun d x w => (None, x, 0, w);
  destroy := fun x w => pred w;
  is_nothrow_move_constructible := false;
  is_copy_constructible := true;
  allocator := fun n w => (true, w)
|}.

(** A move-only element type whose move operations throw on 13 and
    leave 0 in the objects they moved from. *)
Definition move_only_nat : Element nat nat nat := {|
  sizeof := 4;
  construct := fun a w => (inr a, S w);
  value_construct := fun w => (inr 0, S w);
  copy_construct := fun x w => (inr x, S w);
  move_construct := fun x w => if x =? 13 then (inl (thrown 13), x, w) else (inr x, 0, S w);
  copy_assign := fun d x w => (None, x, w);
  move_assign := fun d x w => if x =? 13 then (Some (thrown 13), d, x, w) else (None, x, 0, w);
  destroy := fun x w => pred w;
  is_nothrow_move_constructible := false;
  is_copy_constructible := false;
  allocator := fun n w => (true, w)
|}.

(** Copyable [nat] elements whose default constructor always throws. *)
Definition no_default_nat : Element nat nat nat := {|
  sizeof := 4;
  construct := fun a w => (inr a, S w);
  value_construct := fun w => (inl (thrown 0), w);
  copy_construct := fun x w => (inr x, S w);
  move_construct := fun x w => (inr x, 0, S w);
  copy_assign := fun d x w => (None, x, w);
  move_assign := fun d x w => (None, x, 0, w);
  destroy := fun x w => pred w;
  is_nothrow_move_constructible := false;
  is_copy_constructible := true;
  allocator := fun n w => (true, w)
|}.

Definition debug_build : Build := {| NDEBUG := false |}.
Definition release_build : Build := {| NDEBUG := true |}.

(** One vector, at address 1, holding [xs] in block 1 of capacity [cap]. *)
Definition one_vector (xs : list nat) (cap : nat) : state nat nat :=
  State {[ 1%positive := {| buffer_ := Ptr 1 0; capacity_ := cap |} ]}
        {[ 1%positive := length xs ]}
        {[ 1%positive := (Some <$> xs) ++ replicate (cap - length xs) None ]}
        [] (length xs).

(** A default-constructed vector at address 1. *)
Definition empty_vector : state nat nat :=
  State {[ 1%positive := {| buffer_ := nullptr; capacity_ := 0 |} ]}
        {[ 1%positive := 0 ]} ∅ [] 0.

(** Two vectors, at addresses 1 and 2, with blocks 1 and 2. *)
Definition two_vectors (xs : list nat) (cap : nat) (ys : list nat) (cap' : nat) : state nat nat :=
  State {[ 1%positive := {| buffer_ := Ptr 1 0; capacity_ := cap |};
           2%positive := {| buffer_ := Ptr 2 0; capacity_ := cap' |} ]}
        {[ 1%positive := length xs; 2%positive := length ys ]}
        {[ 1%positive := (Some <$> xs) ++ replicate (cap - length xs) None;
           2%positive := (Some <$> ys) ++ replicate (cap' - length ys) None ]}
        [] (length xs + length ys).

(** The vector [1; 2] of capacity 2 at address 1 and the vector
    [7; 8; 9] of capacity 3 at address 2. *)
Definition small_and_large : state nat nat := two_vectors [1; 2] 2 [7; 8; 9] 3.

(** * Element types that keep their values *)

Section Laws.
Context {T A W : Type} {HE : Element T A W}.

(** The copy and move operations of the element type transfer the value:
    an operation that completes leaves in its target the value its source
    had.  (What a move leaves in its source is not constrained.) *)
Record faithful : Prop := {
  copy_construct_value : forall x w y w', copy_construct x w = (inr y, w') -> y = x;
  move_construct_value : forall x w y x' w', move_construct x w = (inr y, x', w') -> y = x;
  copy_assign_value : forall d x w d' w', copy_assign d x w = (None, d', w') -> d' = x;
  move_assign_value : forall d x w d' x' w', move_assign d x w = (None, d', x', w') -> d' = x
}.

Context {HB : Build}.

(** the overloads of [Insert] in the two versions of the header *)
Definition is_Insert (ins : positive -> ptr -> T -> M (state T W) ptr) : Prop :=
  ins = VectorH.Insert \/ ins = VectorH.Insert_rvalue
  \/ ins = Part000.Insert \/ ins = Part000.Insert_rvalue.

(** the two versions of [Erase] *)
Definition is_Erase (ers : positive -> ptr -> M (state T W) ptr) : Prop :=
  ers = VectorH.Erase \/ ers = Part000.Erase.

(** the two versions of [PopBack] *)
Definition is_PopBack (pop : positive -> M (state T W) unit) : Prop :=
  pop = VectorH.PopBack \/ pop = Part000.PopBack.

End Laws.

(** * Copy assignment within the capacity *)
Section AssignVocabulary.
Context {T A W : Type} {HE : Element T A W}.

(** Copy-assigning the values [xs] to the objects [ds] one after the
    other: the objects afterwards, the exception that stopped the loop,
    the world.  An assignment that throws leaves its target as the
    element type says; the objects behind it are not reached. *)
Fixpoint assign_list (ds xs : list T) (w : W) : list T * option exn * W :=
  match ds, xs with
  | d :: ds', x :: xs' =>
      match copy_assign d x w with
      | (None, d', w') => let '(r, e, w'') := assign_list ds' xs' w' in (d' :: r, e, w'')
      | (Some e, d', w') => (d' :: ds', Some e, w')
      end
  | _, _ => (ds, None, w)
  end.

(** the two versions of [Emplace] *)
Definition is_Emplace {HB : Build}
    (emp : positive -> ptr -> ctor_args T A -> M (state T W) ptr) : Prop :=
  emp = VectorH.Emplace \/ emp = Part000.Emplace.

End AssignVocabulary.

(** An element type of [2^62] bytes, for requests whose byte count does
    not fit [size_t]. *)
Definition wide_nat : Element nat nat nat := {|
  sizeof := 4611686018427387904;
  construct := fun a w => (inr a, S w);
  value_construct := fun w => (inr 0, S w);
  copy_construct := fun x w => (inr x, S w);
  move_construct := fun x w => (inr x, 0, S w);
  copy_assign := fun d x w => (None, x, w);
  move_assign := fun d x w => (None, x, 0, w);
  destroy := fun x w => pred w;
  is_nothrow_move_constructible := true;
  is_copy_constructible := true;
  allocator := fun n w => (true, w)
|}.

(** * Reasoning about computations *)

Create HintDb cpp.
Global Hint Unfold ret bind throw undefined catch_all finally noexcept attempt local lift
  get_local set_local get_buffer get_capacity set_buffer set_capacity get_size
  set_size init_raw init_size end_raw end_size alloca : cpp.
Global Hint Unfold RawMemory.Allocate RawMemory.Deallocate RawMemory.ctor_default
  RawMemory.ctor RawMemory.move_ctor RawMemory.move_assign RawMemory.dtor RawMemory.plus
  RawMemory.index RawMemory.swap_buffer RawMemory.swap_capacity RawMemory.Swap
  RawMemory.GetAddress RawMemory.Capacity RawMemory.scoped RawMemory.std_swap : cpp.
Global Hint Unfold Vector.Size Vector.Capacity Vector.begin Vector.end_ Vector.cbegin
  Vector.cend Vector.destroy_members Vector.dtor Vector.swap_size Vector.Swap
  Vector.ctor_default Vector.ctor_size Vector.copy_ctor Vector.move_ctor Vector.scoped
  Vector.assign_element Vector.copy_assign Vector.move_assign Vector.Reserve Vector.Resize
  Vector.index Vector.incr_size Vector.decr_size : cpp.

Lemma lookup_middle {X} (l1 l2 : list X) x i :
  i = length l1 -> (l1 ++ x :: l2) !! i = Some x.
Proof. intros ->. by apply list_lookup_middle. Qed.

Lemma insert_middle {X} (l1 l2 : list X) x y i :
  i = length l1 -> <[i := y]> (l1 ++ x :: l2) = l1 ++ y :: l2.
Proof. intros ->. rewrite insert_app_r_alt by lia. by rewrite Nat.sub_diag. Qed.

Lemma alter_insert_eq {X} (hp : gmap positive X) h blk f :
  hp !! h = Some blk -> alter f h hp = <[h := f blk]> hp.
Proof.
  intros Hh. apply map_eq; intros k. destruct (decide (h = k)) as [->|].
  - by rewrite lookup_alter_eq, lookup_insert_eq, Hh.
  - by rewrite lookup_alter_ne, lookup_insert_ne.
Qed.

Lemma replicate_split {X} (x : X) n k :
  k < n -> replicate n x = replicate k x ++ x :: replicate (n - k - 1) x.
Proof.
  intros Hk. replace n with (k + S (n - k - 1)) at 1 by lia.
  by rewrite replicate_add.
Qed.

Ltac list_len :=
  repeat (progress (rewrite ?length_app, ?length_fmap, ?length_replicate, ?length_insert,
                      ?length_take, ?length_drop, ?length_rev in *;
                    cbn [length] in * ));
  lia.

Ltac mstep := first
  [ rewrite lookup_middle by list_len
  | rewrite insert_middle by list_len
  | match goal with Hl : ?hp !! ?h = Some _ |- context [?hp !! ?h] => rewrite Hl end
  | match goal with Hl : ?hp !! ?h = None |- context [?hp !! ?h] => rewrite Hl end
  | rewrite lookup_insert_eq
  | rewrite lookup_insert_ne by done
  | rewrite lookup_delete_eq
  | rewrite lookup_delete_ne by done
  | match goal with
    | Hl : ?hp !! ?h = Some ?b |- context [alter ?f ?h ?hp] =>
        rewrite (alter_insert_eq hp h b f Hl)
    end
  | match goal with
    | |- context [alter ?f ?h (<[?h := ?b]> ?m)] =>
        rewrite (alter_insert_eq (<[h := b]> m) h b f (lookup_insert_eq _ _ _))
    end
  | match goal with
    | Hl : ?hp !! ?h = Some ?b |- context [alter ?f ?h (<[?h' := ?b']> ?hp)] =>
        rewrite (alter_insert_eq (<[h' := b']> hp) h b f)
          by (rewrite lookup_insert_ne by done; exact Hl)
    end ].
Ltac mrun := repeat (cbn; mstep); cbn.

(** equality of two maps built from the same map by inserts and deletes *)
Ltac map_norm :=
  apply map_eq; intros ?;
  repeat (rewrite ?lookup_insert, ?lookup_delete; case_decide; subst; try done).

(** ** The library algorithms, as functions of the elements *)

Section Loops.
Context {T A W : Type} {HE : Element T A W} {HB : Build}.
Local Abbreviation st := (state T W).
Implicit Types (hp : gmap positive (list (option T))) (R : gmap positive RawMemoryObj)
  (Z : gmap positive nat) (L : list T) (w : W) (xs ys : list T).

Lemma copy_list_length xs w :
  let '(ys, r, _) := copy_list xs w in
  length ys <= length xs /\ (r = None -> length ys = length xs).
Proof.
  revert w. induction xs as [|x xs IH]; intros w; cbn; [split; done|].
  destruct (copy_construct x w) as [[e|y] w']; cbn; [split; [lia|done]|].
  specialize (IH w'). destruct (copy_list xs w') as [[ys r] w'']. cbn.
  destruct IH as [? ?]. split; [lia|]. intros ?. f_equal. auto.
Qed.

Lemma move_list_length xs w :
  let '(ys, srcs, r, _) := move_list xs w in
  length ys <= length xs /\ length srcs = length xs /\ (r = None -> length ys = length xs).
Proof.
  revert w. induction xs as [|x xs IH]; intros w; cbn; [done|].
  destruct (move_construct x w) as [[[e|y] x'] w']; cbn; [split; [lia|done]|].
  specialize (IH w'). destruct (move_list xs w') as [[[ys srcs] r] w'']. cbn.
  destruct IH as (? & ? & ?). split; [lia|]. split; [lia|]. intros ?. f_equal. auto.
Qed.

Lemma value_list_length n w :
  let '(ys, r, _) := value_list n w in
  length ys <= n /\ (r = None -> length ys = n).
Proof.
  revert w. induction n as [|n IH]; intros w; cbn; [done|].
  destruct (value_construct w) as [[e|y] w']; cbn; [split; [lia|done]|].
  specialize (IH w'). destruct (value_list n w') as [[ys r] w'']. cbn.
  destruct IH as [? ?]. split; [lia|]. intros ?. f_equal. auto.
Qed.

Lemma destroy_n_eval h ys : forall i pre post R Z hp L w,
  hp !! h = Some (pre ++ (Some <$> ys) ++ post) -> i = length pre ->
  destroy_n (Ptr h i) (length ys) (State R Z hp L w) =
  Ok tt (State R Z (<[h := pre ++ replicate (length ys) None ++ post]> hp) L
           (destroy_all ys w)).
Proof.
  induction ys as [|y ys IH]; intros i pre post R Z hp L w Hh Hi; cbn.
  - unfold ret. by rewrite insert_id.
  - unfold bind at 1, destroy_at. cbn in *. mrun. unfold set_heap; mrun.
    erewrite (IH (i + 1) (pre ++ [None]) post).
    + f_equal. f_equal. rewrite insert_insert_eq. f_equal. by rewrite <- app_assoc.
    + rewrite lookup_insert_eq. by rewrite <- app_assoc.
    + list_len.
Qed.

Lemma construct_n_copy hs hd i0 j0 (Hne : hs ≠ hd) : forall xs k0 spre spost pre post R Z hp L w,
  hp !! hs = Some (spre ++ (Some <$> xs) ++ spost) -> i0 + k0 = length spre ->
  hp !! hd = Some (pre ++ replicate (length xs) None ++ post) -> j0 + k0 = length pre ->
  construct_n (fun k => new_copy (shift (Ptr hd j0) k) (shift (Ptr hs i0) k)) k0 (length xs)
    (State R Z hp L w)
  = match copy_list xs w with
    | (ys, None, w') => Ok None (State R Z (<[hd := pre ++ (Some <$> ys) ++ post]> hp) L w')
    | (ys, Some e, w') =>
        Ok (Some (e, k0 + length ys))
           (State R Z (<[hd := pre ++ (Some <$> ys)
                                 ++ replicate (length xs - length ys) None ++ post]> hp) L w')
    end.
Proof.
  induction xs as [|x xs IH]; intros k0 spre spost pre post R Z hp L w Hs Hi Hd Hj; cbn.
  - unfold ret. cbn in Hd. by rewrite insert_id.
  - unfold bind at 1, attempt, new_copy, bind, storage_at, read_obj, run_ctor, begin_lifetime.
    cbn in *. mrun.
    destruct (copy_construct x w) as [[e|y] w'] eqn:Hc; mrun.
    + unfold ret. rewrite Nat.add_0_r. rewrite insert_id; done.
    + unfold set_heap; mrun.
      rewrite (IH (S k0) (spre ++ [Some x]) spost (pre ++ [Some y]) post).
      * destruct (copy_list xs w') as [[ys [e|]] w'']; cbn.
        -- rewrite insert_insert_eq. rewrite <- !app_assoc. cbn. do 4 f_equal. lia.
        -- rewrite insert_insert_eq. rewrite <- !app_assoc. cbn. done.
      * rewrite lookup_insert_ne by done. rewrite Hs. rewrite <- app_assoc. done.
      * list_len.
      * rewrite lookup_insert_eq. by rewrite <- app_assoc.
      * list_len.
Qed.

Lemma uninitialized_copy_n_eval hs hd i j n xs spre spost pre post R Z hp L w :
  hs ≠ hd ->
  hp !! hs = Some (spre ++ (Some <$> xs) ++ spost) -> i = length spre ->
  hp !! hd = Some (pre ++ replicate n None ++ post) -> j = length pre ->
  n = length xs ->
  uninitialized_copy_n (Ptr hs i) n (Ptr hd j) (State R Z hp L w)
  = match copy_list xs w with
    | (ys, None, w') =>
        Ok (Ptr hd (j + n)) (State R Z (<[hd := pre ++ (Some <$> ys) ++ post]> hp) L w')
    | (ys, Some e, w') => Exn e (State R Z hp L (destroy_all ys w'))
    end.
Proof.
  intros Hne Hs Hi Hd Hj ->. unfold uninitialized_copy_n, uninitialized_n.
  unfold bind at 1.
  rewrite (construct_n_copy hs hd i j Hne xs 0 spre spost pre post) by (done || lia).
  pose proof (copy_list_length xs w) as Hlen.
  destruct (copy_list xs w) as [[ys [e|]] w']; cbn; [|done].
  destruct Hlen as [Hle _]. unfold bind at 1.
  erewrite (destroy_n_eval hd ys j pre); [| apply lookup_insert_eq | done].
  cbn. unfold throw. f_equal. f_equal.
  rewrite insert_insert_eq. rewrite insert_id; [done|]. rewrite Hd. do 2 f_equal.
  rewrite app_assoc, <- replicate_add. do 2 f_equal. lia.
Qed.

Lemma construct_n_move hs hd i0 j0 (Hne : hs ≠ hd) : forall xs k0 spre spost pre post R Z hp L w,
  hp !! hs = Some (spre ++ (Some <$> xs) ++ spost) -> i0 + k0 = length spre ->
  hp !! hd = Some (pre ++ replicate (length xs) None ++ post) -> j0 + k0 = length pre ->
  construct_n (fun k => new_move (shift (Ptr hd j0) k) (shift (Ptr hs i0) k)) k0 (length xs)
    (State R Z hp L w)
  = match move_list xs w with
    | (ys, srcs, None, w') =>
        Ok None (State R Z (<[hd := pre ++ (Some <$> ys) ++ post]>
                             (<[hs := spre ++ (Some <$> srcs) ++ spost]> hp)) L w')
    | (ys, srcs, Some e, w') =>
        if is_nothrow_move_constructible then Aborted
        else Ok (Some (e, k0 + length ys))
               (State R Z (<[hd := pre ++ (Some <$> ys)
                                   ++ replicate (length xs - length ys) None ++ post]>
                             (<[hs := spre ++ (Some <$> srcs) ++ spost]> hp)) L w')
    end.
Proof.
  induction xs as [|x xs IH]; intros k0 spre spost pre post R Z hp L w Hs Hi Hd Hj; cbn.
  - unfold ret. cbn in *. rewrite (insert_id hp hs) by done. by rewrite insert_id.
  - unfold bind at 1, attempt, new_move, bind, storage_at, read_obj, write_obj, begin_lifetime,
      throw.
    cbn in *. mrun.
    destruct (move_construct x w) as [[[e|y] x'] w'] eqn:Hc; mrun.
    + destruct is_nothrow_move_constructible; [done|]. mrun. unfold set_heap; mrun.
      unfold ret. rewrite Nat.add_0_r. f_equal. f_equal.
      rewrite (insert_id (<[hs:=_]> hp) hd); [done|]. by rewrite lookup_insert_ne.
    + unfold set_heap; mrun.
      rewrite (IH (S k0) (spre ++ [Some x']) spost (pre ++ [Some y]) post).
      * destruct (move_list xs w') as [[[ys srcs] [e|]] w'']; cbn.
        -- destruct is_nothrow_move_constructible; [done|].
           rewrite <- !app_assoc. cbn.
           replace (S (k0 + length ys)) with (k0 + S (length ys)) by lia.
           do 2 f_equal. map_norm.
        -- rewrite <- !app_assoc. cbn. do 2 f_equal. map_norm.
      * rewrite lookup_insert_ne by done. rewrite lookup_insert_eq. by rewrite <- app_assoc.
      * list_len.
      * rewrite lookup_insert_eq. by rewrite <- app_assoc.
      * list_len.
Qed.

Lemma uninitialized_move_n_eval hs hd i j n xs spre spost pre post R Z hp L w :
  hs ≠ hd ->
  hp !! hs = Some (spre ++ (Some <$> xs) ++ spost) -> i = length spre ->
  hp !! hd = Some (pre ++ replicate n None ++ post) -> j = length pre ->
  n = length xs ->
  uninitialized_move_n (Ptr hs i) n (Ptr hd j) (State R Z hp L w)
  = match move_list xs w with
    | (ys, srcs, None, w') =>
        Ok (Ptr hd (j + n))
           (State R Z (<[hd := pre ++ (Some <$> ys) ++ post]>
                         (<[hs := spre ++ (Some <$> srcs) ++ spost]> hp)) L w')
    | (ys, srcs, Some e, w') =>
        if is_nothrow_move_constructible then Aborted
        else Exn e (State R Z (<[hs := spre ++ (Some <$> srcs) ++ spost]> hp) L
                      (destroy_all ys w'))
    end.
Proof.
  intros Hne Hs Hi Hd Hj ->. unfold uninitialized_move_n, uninitialized_n.
  unfold bind at 1.
  rewrite (construct_n_move hs hd i j Hne xs 0 spre spost pre post) by (done || lia).
  pose proof (move_list_length xs w) as Hlen.
  destruct (move_list xs w) as [[[ys srcs] [e|]] w']; cbn; [|done].
  destruct is_nothrow_move_constructible; [done|].
  destruct Hlen as [Hle _]. unfold bind at 1.
  erewrite (destroy_n_eval hd ys j pre); [| apply lookup_insert_eq | done].
  cbn. unfold throw. f_equal. f_equal.
  rewrite insert_insert_eq.
  rewrite (insert_id (<[hs:=_]> hp) hd); [done|]. rewrite lookup_insert_ne by done.
  rewrite Hd. do 2 f_equal.
  rewrite app_assoc, <- replicate_add. do 2 f_equal. lia.
Qed.

Lemma construct_n_value hd j0 : forall n k0 pre post R Z hp L w,
  hp !! hd = Some (pre ++ replicate n None ++ post) -> j0 + k0 = length pre ->
  construct_n (fun k => new_value (shift (Ptr hd j0) k)) k0 n (State R Z hp L w)
  = match value_list n w with
    | (ys, None, w') => Ok None (State R Z (<[hd := pre ++ (Some <$> ys) ++ post]> hp) L w')
    | (ys, Some e, w') =>
        Ok (Some (e, k0 + length ys))
           (State R Z (<[hd := pre ++ (Some <$> ys)
                                 ++ replicate (n - length ys) None ++ post]> hp) L w')
    end.
Proof.
  induction n as [|n IH]; intros k0 pre post R Z hp L w Hd Hj; cbn.
  - unfold ret. cbn in Hd. by rewrite insert_id.
  - unfold bind at 1, attempt, new_value, bind, storage_at, run_ctor, begin_lifetime.
    cbn in *. mrun.
    destruct (value_construct w) as [[e|y] w'] eqn:Hc; mrun.
    + unfold ret. rewrite Nat.add_0_r. rewrite insert_id; done.
    + unfold set_heap; mrun.
      rewrite (IH (S k0) (pre ++ [Some y]) post).
      * destruct (value_list n w') as [[ys [e|]] w'']; cbn.
        -- rewrite insert_insert_eq. rewrite <- !app_assoc. cbn. do 4 f_equal. lia.
        -- rewrite insert_insert_eq. rewrite <- !app_assoc. cbn. done.
      * rewrite lookup_insert_eq. by rewrite <- app_assoc.
      * list_len.
Qed.

Lemma uninitialized_value_construct_n_eval hd j n pre post R Z hp L w :
  hp !! hd = Some (pre ++ replicate n None ++ post) -> j = length pre ->
  uninitialized_value_construct_n (Ptr hd j) n (State R Z hp L w)
  = match value_list n w with
    | (ys, None, w') =>
        Ok (Ptr hd (j + n)) (State R Z (<[hd := pre ++ (Some <$> ys) ++ post]> hp) L w')
    | (ys, Some e, w') => Exn e (State R Z hp L (destroy_all ys w'))
    end.
Proof.
  intros Hd Hj. unfold uninitialized_value_construct_n, uninitialized_n.
  unfold bind at 1.
  rewrite (construct_n_value hd j n 0 pre post) by (done || lia).
  pose proof (value_list_length n w) as Hlen.
  destruct (value_list n w) as [[ys [e|]] w']; cbn; [|done].
  destruct Hlen as [Hle _]. unfold bind at 1.
  erewrite (destroy_n_eval hd ys j pre); [| apply lookup_insert_eq | done].
  cbn. unfold throw. f_equal. f_equal.
  rewrite insert_insert_eq. rewrite insert_id; [done|]. rewrite Hd. do 2 f_equal.
  rewrite app_assoc, <- replicate_add. do 2 f_equal. lia.
Qed.

End Loops.

Ltac decide_cmp :=
  match goal with
  | |- context [?a <=? ?b] =>
      first [ rewrite (proj2 (Nat.leb_le a b)) by list_len
            | rewrite (proj2 (Nat.leb_gt a b)) by list_len ]
  | |- context [?a <? ?b] =>
      first [ rewrite (proj2 (Nat.ltb_lt a b)) by list_len
            | rewrite (proj2 (Nat.ltb_ge a b)) by list_len ]
  | |- context [?a =? ?b] =>
      first [ rewrite (proj2 (Nat.eqb_eq a b)) by list_len
            | rewrite (proj2 (Nat.eqb_neq a b)) by list_len ]
  end.

Lemma assert_true {T W} {HB : Build} (s : state T W) : assert_ true s = Ok tt s.
Proof. unfold assert_. by destruct NDEBUG. Qed.

(** Reduction restricted to the state accessors and the small functions of
    the model; lookups in the maps are left to rewriting. *)
Tactic Notation "csimp" :=
  cbn [raws sizes heap leaked world set_raws set_sizes set_heap set_leaked set_world
       buffer_ capacity_ fst snd slot_of store_slot shift negb andb orb
       Nat.add Nat.sub length app fmap list_fmap destroy_n construct_n
       move_loop move_backward_loop for_loop step_back range_length
       ptr_add ptr_sub ptr_diff bind ret throw undefined
       read_obj write_obj storage_at begin_lifetime destroy_at run_ctor].
Tactic Notation "csimp" "in" "*" :=
  cbn [raws sizes heap leaked world set_raws set_sizes set_heap set_leaked set_world
       buffer_ capacity_ fst snd slot_of store_slot shift negb andb orb
       Nat.add Nat.sub length app fmap list_fmap destroy_n construct_n
       move_loop move_backward_loop for_loop step_back range_length
       ptr_add ptr_sub ptr_diff bind ret throw undefined
       read_obj write_obj storage_at begin_lifetime destroy_at run_ctor] in *.
Tactic Notation "csimp" "in" hyp(H) :=
  cbn [raws sizes heap leaked world set_raws set_sizes set_heap set_leaked set_world
       buffer_ capacity_ fst snd slot_of store_slot shift negb andb orb
       Nat.add Nat.sub length app fmap list_fmap destroy_n construct_n
       move_loop move_backward_loop for_loop step_back range_length
       ptr_add ptr_sub ptr_diff bind ret throw undefined
       read_obj write_obj storage_at begin_lifetime destroy_at run_ctor] in H.

Lemma set_raws_State {T W} f R Z hp (L : list T) (w : W) :
  set_raws f (State R Z hp L w) = State (f R) Z hp L w.
Proof. reflexivity. Qed.
Lemma set_sizes_State {T W} f R Z hp (L : list T) (w : W) :
  set_sizes f (State R Z hp L w) = State R (f Z) hp L w.
Proof. reflexivity. Qed.
Lemma set_heap_State {T W} f R Z hp (L : list T) (w : W) :
  set_heap f (State R Z hp L w) = State R Z (f hp) L w.
Proof. reflexivity. Qed.
Lemma set_leaked_State {T W} f R Z hp (L : list T) (w : W) :
  set_leaked f (State R Z hp L w) = State R Z hp (f L) w.
Proof. reflexivity. Qed.
Lemma set_world_State {T W} w' R Z hp (L : list T) (w : W) :
  set_world w' (State R Z hp L w) = State R Z hp L w'.
Proof. reflexivity. Qed.

(** Nested state updates are flattened from the inside. *)
Ltac snorm :=
  repeat first [ rewrite set_raws_State | rewrite set_sizes_State | rewrite set_heap_State
               | rewrite set_leaked_State | rewrite set_world_State ];
  cbn beta.
Create HintDb cpp_prim.
Global Hint Unfold ret bind throw undefined catch_all finally noexcept attempt local lift
  get_local set_local get_buffer get_capacity set_buffer set_capacity get_size set_size
  init_raw init_size end_raw end_size alloca read_obj write_obj storage_at begin_lifetime
  destroy_at run_ctor : cpp_prim.
Global Hint Unfold RawMemory.GetAddress RawMemory.Capacity RawMemory.plus RawMemory.index
  RawMemory.Swap RawMemory.swap_buffer RawMemory.swap_capacity RawMemory.Deallocate
  RawMemory.dtor Vector.Size Vector.Capacity Vector.begin Vector.end_ Vector.cbegin
  Vector.cend Vector.incr_size Vector.decr_size Vector.destroy_members : cpp_prim.
Ltac cstep :=
  first [ mstep | decide_cmp | rewrite assert_true | progress autounfold with cpp_prim
        | progress snorm ].
Ltac crun := repeat (csimp; cstep); csimp; snorm.

Lemma size_sub_le a b : b <= a -> size_sub a b = a - b.
Proof. intros Hle. unfold size_sub. by rewrite (proj2 (Nat.leb_le b a)). Qed.

Lemma size_add_small a b :
  (N.of_nat a + N.of_nat b < 2 ^ 64)%N -> size_add a b = a + b.
Proof.
  intros Hlt. unfold size_add, size_t_of. rewrite N.mod_small by done. lia.
Qed.

Lemma size_mul_small a b :
  (N.of_nat a * N.of_nat b < 2 ^ 64)%N -> size_mul a b = a * b.
Proof.
  intros Hlt. unfold size_mul, size_t_of. rewrite N.mod_small by done. lia.
Qed.

(** ** Objects: swap, move, self-assignment, [PopBack] *)

Section Objects.
Context {T A W : Type} {HE : Element T A W} {HB : Build}.
Local Abbreviation st := (state T W).
Implicit Types (hp : gmap positive (list (option T))) (R : gmap positive RawMemoryObj)
  (Z : gmap positive nat) (L : list T) (w : W) (xs ys : list T) (s : st).

Lemma free_address_raws s : raws s !! free_address s = None.
Proof.
  apply not_elem_of_dom. intros Hin.
  apply (is_fresh (dom (raws s) ∪ dom (sizes s))). unfold free_address in Hin. set_solver.
Qed.

Lemma free_address_sizes s : sizes s !! free_address s = None.
Proof.
  apply not_elem_of_dom. intros Hin.
  apply (is_fresh (dom (raws s) ∪ dom (sizes s))). unfold free_address in Hin. set_solver.
Qed.

Lemma free_block_heap s : heap s !! free_block s = None.
Proof. apply not_elem_of_dom, is_fresh. Qed.

(** [std::swap] on two distinct [RawMemory] objects exchanges them: the
    temporary ends up empty and releases nothing. *)
Lemma std_swap_eval R Z hp L w a b ra rb :
  a ≠ b -> R !! a = Some ra -> R !! b = Some rb ->
  RawMemory.std_swap a b (State R Z hp L w)
  = Ok tt (State (<[b := ra]> (<[a := rb]> R)) Z hp L w).
Proof.
  intros Hne Ha Hb.
  pose proof (free_address_raws (State R Z hp L w)) as Hf. csimp in Hf.
  autounfold with cpp. unfold operator_delete.
  generalize dependent (free_address (State R Z hp L w)). intros l Hf.
  assert (l ≠ a) by congruence. assert (l ≠ b) by congruence.
  crun. do 2 f_equal. destruct ra, rb. map_norm.
Qed.

(** Swapping an object with itself leaves it as it was. *)
Lemma std_swap_self R Z hp L w a ra :
  R !! a = Some ra ->
  RawMemory.std_swap a a (State R Z hp L w) = Ok tt (State R Z hp L w).
Proof.
  intros Ha.
  pose proof (free_address_raws (State R Z hp L w)) as Hf. csimp in Hf.
  autounfold with cpp. unfold operator_delete.
  generalize dependent (free_address (State R Z hp L w)). intros l Hf.
  assert (l ≠ a) by congruence.
  crun. do 2 f_equal. destruct ra. map_norm.
Qed.

Lemma Swap_eval R Z hp L w a b ra rb na nb :
  a ≠ b -> R !! a = Some ra -> R !! b = Some rb -> Z !! a = Some na -> Z !! b = Some nb ->
  Vector.Swap a b (State R Z hp L w)
  = Ok tt (State (<[b := ra]> (<[a := rb]> R)) (<[b := na]> (<[a := nb]> Z)) hp L w).
Proof.
  intros Hne Ha Hb Hna Hnb. unfold Vector.Swap, noexcept, bind.
  rewrite (std_swap_eval _ _ _ _ _ a b ra rb) by done.
  autounfold with cpp. crun. done.
Qed.

(** ** Moving a [RawMemory] *)

(** The move assignment of [RawMemory] adopts the handle and the
    capacity of its source and resets the source to the null handle and
    capacity 0; it cannot fail.  (It does not release the block the target
    held before.) *)
Lemma RawMemory_move_assign_eval R Z hp L w this rhs rt rr :
  this ≠ rhs -> R !! this = Some rt -> R !! rhs = Some rr ->
  RawMemory.move_assign this rhs (State R Z hp L w)
  = Ok tt (State (<[rhs := {| buffer_ := nullptr; capacity_ := 0 |}]> (<[this := rr]> R))
             Z hp L w).
Proof.
  intros Hne Ht Hr. autounfold with cpp. crun.
  do 2 f_equal. destruct rt, rr. map_norm.
Qed.

(** C4: the move constructor of [RawMemory] copies the handle and the
    capacity of the other buffer and leaves the source as it was: after
    it, the source still holds the handle and the capacity.  (The move
    assignment does reset its source to the null handle and capacity 0:
    [RawMemory_move_assign_eval].) *)
Theorem RawMemory_move_ctor_keeps_source (s : st) (this other : positive) (r : RawMemoryObj) :
  this ≠ other ->
  raws s !! other = Some r ->
  RawMemory.move_ctor this other s = Ok tt (set_raws <[this := r]> s)
  /\ raws (set_raws <[this := r]> s) !! other = Some r.
Proof.
  intros Hne Ho. destruct s as [R Z hp L w]. csimp in *. split.
  - autounfold with cpp. crun. by destruct r.
  - by rewrite lookup_insert_ne.
Qed.

(** C3 (amended): move construction and move assignment always complete.
    Move construction leaves the source empty, with size 0 and capacity 0;
    move assignment exchanges the two vectors, so the source ends up with
    the elements, the size and the capacity the target had. *)
Theorem move_exchanges_vectors (s : st) (this rhs fresh_addr : positive)
    (b1 b2 : ptr) (xs ys : list T) (c1 c2 : nat) :
  vec_at s this b1 xs c1 ->
  vec_at s rhs b2 ys c2 ->
  this ≠ rhs ->
  raws s !! fresh_addr = None ->
  sizes s !! fresh_addr = None ->
  (exists s1, Vector.move_ctor fresh_addr rhs s = Ok tt s1
     /\ vec_at s1 fresh_addr b2 ys c2 /\ vec_at s1 rhs nullptr [] 0
     /\ Vector.Size rhs s1 = Ok 0 s1)
  /\ (exists s2, Vector.move_assign this rhs s = Ok this s2
     /\ vec_at s2 this b2 ys c2 /\ vec_at s2 rhs b1 xs c1
     /\ Vector.Size rhs s2 = Ok (length xs) s2).
Proof.
  intros Ht Hr Hne Hf1 Hf2. destruct s as [R Z hp L w]. csimp in *.
  pose proof Ht as [Ht1 Ht2 Ht3 Ht4 Ht5]. pose proof Hr as [Hr1 Hr2 Hr3 Hr4 Hr5]. csimp in *.
  assert (fresh_addr ≠ rhs) by congruence.
  split.
  - eexists. split; [|split; [|split]].
    + unfold Vector.move_ctor, RawMemory.ctor_default, init_raw, init_size, noexcept, bind.
      snorm.
      erewrite Swap_eval;
        [reflexivity|done|by rewrite lookup_insert_eq| |by rewrite lookup_insert_eq|].
      all: by rewrite lookup_insert_ne.
    + split; csimp; repeat mstep; done.
    + split; csimp; repeat mstep; try done; lia.
    + autounfold with cpp. crun. done.
  - eexists. split; [|split; [|split]].
    + unfold Vector.move_assign, noexcept, bind. erewrite Swap_eval by done. reflexivity.
    + split; csimp; repeat mstep; done.
    + split; csimp; repeat mstep; done.
    + autounfold with cpp. crun. done.
Qed.

(** C10: copy assignment of a vector to itself does nothing: the state,
    the world included, is the one before the call, in every state. *)
Theorem copy_assign_self (s : st) (v : positive) :
  Vector.copy_assign v v s = Ok v s.
Proof.
  unfold Vector.copy_assign. rewrite bool_decide_eq_true_2 by done. reflexivity.
Qed.

(** ** [PopBack] *)

Lemma VectorH_PopBack_eval R Z hp L w v h xs x cap :
  vec_at (State R Z hp L w) v (Ptr h 0) (xs ++ [x]) cap ->
  VectorH.PopBack v (State R Z hp L w)
  = Ok tt (State R (<[v := length xs]> Z) (<[h := block_of xs cap]> hp) L (destroy x w)).
Proof.
  intros [H1 H2 H3 (_ & H4 & H5) H6]. unfold block_of in *. csimp in *.
  rewrite fmap_app, <- app_assoc in H5. csimp in H5.
  unfold VectorH.PopBack. autounfold with cpp. unfold destroy_at.
  crun. 
          rewrite size_sub_le by list_len. do 2 f_equal.
    - f_equal. list_len.
  - f_equal. f_equal.
    replace (cap - length xs) with (1 + (cap - length (xs ++ [x]))) by list_len.
    done.
Qed.

Lemma Part000_PopBack_eval R Z hp L w v h xs x cap :
  vec_at (State R Z hp L w) v (Ptr h 0) (xs ++ [x]) cap ->
  Part000.PopBack v (State R Z hp L w)
  = Ok tt (State R (<[v := length xs]> Z) (<[h := block_of xs cap]> hp) L (destroy x w)).
Proof.
  intros [H1 H2 H3 (_ & H4 & H5) H6]. unfold block_of in *. csimp in *.
  rewrite fmap_app, <- app_assoc in H5. csimp in H5.
  unfold Part000.PopBack. autounfold with cpp. unfold destroy_at.
  crun. 
  rewrite size_sub_le by list_len. do 2 f_equal.
  - f_equal. list_len.
  - f_equal. f_equal.
    replace (cap - length xs) with (1 + (cap - length (xs ++ [x]))) by list_len.
    done.
Qed.

Lemma vec_at_pop R Z hp L w v h xs x cap w' :
  vec_at (State R Z hp L w) v (Ptr h 0) (xs ++ [x]) cap ->
  vec_at (State R (<[v := length xs]> Z) (<[h := block_of xs cap]> hp) L w') v
    (Ptr h 0) xs cap.
Proof.
  intros [H1 H2 H3 (_ & H4 & H5) H6]. split; csimp in *; try done.
  - by rewrite lookup_insert_eq.
  - list_len.
  - by rewrite lookup_insert_eq.
Qed.

(** In [vector.h], [PopBack] on an empty vector stops at its assertion
    when assertions are compiled in and is undefined otherwise. *)
Lemma VectorH_PopBack_empty s v buf cap :
  vec_at s v buf [] cap ->
  VectorH.PopBack v s = if NDEBUG then Undefined else Aborted.
Proof.
  destruct s as [R Z hp L w]. intros [H1 H2 H3 H4 H5]. csimp in *.
  unfold VectorH.PopBack. autounfold with cpp. crun.
  unfold assert_. destruct NDEBUG; [|done]. crun.
  destruct buf as [|h i]; csimp; [by subst cap|].
  destruct H4 as (-> & ? & H4). crun. unfold block_of in *. csimp in *. crun. done.
Qed.

(** C7: in the second version of the header [PopBack] has no assertion:
    on an empty vector it is undefined also when assertions are compiled
    in, where [vector.h] stops at [assert(size_ > 0)].  (On a non-empty
    vector both versions destroy the last element, decrement the size and
    cannot fail: [PopBack_nonempty].) *)
Theorem Part000_PopBack_empty_no_assertion (s : st) (v : positive) (buf : ptr) (cap : nat) :
  vec_at s v buf [] cap ->
  NDEBUG = false ->
  Part000.PopBack v s = Undefined /\ VectorH.PopBack v s = Aborted.
Proof.
  intros Hv Hd. split.
  - destruct s as [R Z hp L w]. destruct Hv as [H1 H2 H3 H4 H5]. csimp in *.
    unfold Part000.PopBack. autounfold with cpp. crun.
    destruct buf as [|h i]; csimp.
    + subst cap. crun. done.
    + destruct H4 as (-> & ? & H4). crun. unfold block_of in *. csimp in *. crun. done.
  - rewrite (VectorH_PopBack_empty s v buf cap Hv). by rewrite Hd.
Qed.

(** On a non-empty vector [PopBack] destroys the last element, decrements
    the size and cannot fail, in both versions. *)
Lemma PopBack_nonempty s v buf xs x cap :
  vec_at s v buf (xs ++ [x]) cap ->
  exists s', VectorH.PopBack v s = Ok tt s' /\ Part000.PopBack v s = Ok tt s'
    /\ vec_at s' v buf xs cap /\ world s' = destroy x (world s)
    /\ raws s' = raws s /\ leaked s' = leaked s.
Proof.
  destruct s as [R Z hp L w]. intros Hv.
  destruct buf as [|h i].
  { destruct Hv as [_ _ H3 H4 _]. csimp in *. subst cap. list_len. }
  assert (i = 0) as -> by (by destruct Hv as [_ _ _ (? & _) _]).
  eexists. split; [by apply VectorH_PopBack_eval|].
  split; [by apply Part000_PopBack_eval|].
  split; [by eapply vec_at_pop|]. done.
Qed.

End Objects.

Global Hint Unfold operator_delete : cpp_prim.

Ltac lk := repeat mstep; first [ done | eassumption | reflexivity ].
(** the five fields of the representation invariant *)
Ltac vec_fields :=
  split; csimp; repeat mstep; try done; try lia; try (f_equal; lia).

(** ** Construction and copy assignment *)

Section Construction.
Context {T A W : Type} {HE : Element T A W} {HB : Build}.
Local Abbreviation st := (state T W).
Implicit Types (hp : gmap positive (list (option T))) (R : gmap positive RawMemoryObj)
  (Z : gmap positive nat) (L : list T) (w : W) (xs ys : list T) (s : st).

Lemma live_objects_raw n : live_objects (replicate n (@None T)) = [].
Proof. induction n; [done|]. cbn. done. Qed.

Lemma vec_at_representable s v buf xs cap n :
  vec_at s v buf xs cap -> n <= 2 * cap -> representable n.
Proof.
  intros [_ _ _ _ Hb] Hn. unfold representable, PTRDIFF_MAX in *.
  assert (N.of_nat n <= 2 * N.of_nat cap)%N by lia. nia.
Qed.

Lemma RawMemory_ctor_eval l n R Z hp L w :
  0 < n -> representable n ->
  RawMemory.ctor l n (State R Z hp L w)
  = match allocation n w with
    | (true, w') =>
        Ok tt (State (<[l := {| buffer_ := Ptr (free_block (State R Z hp L w)) 0;
                                capacity_ := n |}]> R) Z
                 (<[free_block (State R Z hp L w) := replicate n None]> hp) L w')
    | (false, w') => Exn bad_alloc (State R Z hp L w')
    end.
Proof.
  intros Hn Hrep. unfold representable in Hrep.
  unfold RawMemory.ctor, RawMemory.Allocate, allocation, operator_new.
  rewrite (proj2 (Nat.eqb_neq n 0)) by lia. cbn [negb].
  rewrite N.mod_small by done. unfold bind at 1. csimp.
  destruct (PTRDIFF_MAX <? N.of_nat n * N.pos sizeof)%N; [done|].
  destruct (allocator (N.of_nat n * N.pos sizeof) w) as [[|] w']; [|done].
  unfold init_raw. snorm. rewrite N.div_mul by done. by rewrite Nat2N.id.
Qed.

Lemma RawMemory_ctor_zero l R Z hp L w :
  RawMemory.ctor l 0 (State R Z hp L w)
  = Ok tt (State (<[l := {| buffer_ := nullptr; capacity_ := 0 |}]> R) Z hp L w).
Proof. reflexivity. Qed.

(** A successful allocation respects the bound on block sizes. *)
Lemma allocation_bound n w w' :
  allocation n w = (true, w') -> (N.of_nat n * Npos sizeof <= PTRDIFF_MAX)%N.
Proof.
  unfold allocation. destruct (PTRDIFF_MAX <? _)%N eqn:Hlt; [done|].
  intros _. by apply N.ltb_ge.
Qed.

Lemma copy_ctor_eval this rhs h2 ys c2 R Z hp L w :
  vec_at (State R Z hp L w) rhs (Ptr h2 0) ys c2 ->
  0 < length ys ->
  R !! this = None -> Z !! this = None ->
  Vector.copy_ctor this rhs (State R Z hp L w)
  = match allocation (length ys) w with
    | (false, w') => Exn bad_alloc (State R Z hp L w')
    | (true, w') =>
        match copy_list ys w' with
        | (ys', None, w'') =>
            Ok tt (State (<[this := {| buffer_ := Ptr (free_block (State R Z hp L w)) 0;
                                       capacity_ := length ys |}]> R)
                     (<[this := length ys]> Z)
                     (<[free_block (State R Z hp L w) := Some <$> ys']> hp) L w'')
        | (ys', Some e, w'') => Exn e (State R Z hp L (destroy_all ys' w''))
        end
    end.
Proof.
  intros Hv Hn Hr Hz.
  assert (representable (length ys)) as Hrep.
  { eapply vec_at_representable; [done|]. destruct Hv. lia. }
  destruct Hv as [H1 H2 H3 (_ & H4 & H5) H6]. csimp in *.
  assert (rhs ≠ this) by congruence.
  pose proof (free_block_heap (State R Z hp L w)) as Hfree. csimp in Hfree.
  unfold Vector.copy_ctor. crun.
  rewrite RawMemory_ctor_eval by done.
  generalize dependent (free_block (State R Z hp L w)). intros h Hfree.
  assert (h2 ≠ h) by congruence.
  destruct (allocation (length ys) w) as [[|] w']; [|done].
  crun.
  unfold block_of in H5.
  erewrite (uninitialized_copy_n_eval h2 h 0 0 (length ys) ys [] _ [] []); try done.
  - pose proof (copy_list_length ys w') as Hlen.
    destruct (copy_list ys w') as [[ys' [e|]] w'']; crun.
    + unfold operator_delete. crun. rewrite live_objects_raw, app_nil_r.
      do 2 f_equal; map_norm.
    + rewrite app_nil_r. do 2 f_equal. map_norm.
  - rewrite lookup_insert_ne by done. exact H5.
  - rewrite lookup_insert_eq. by rewrite app_nil_r.
Qed.

(** Copying an empty vector allocates nothing. *)
Lemma copy_ctor_empty this rhs b2 c2 R Z hp L w :
  vec_at (State R Z hp L w) rhs b2 [] c2 ->
  Vector.copy_ctor this rhs (State R Z hp L w)
  = Ok tt (State (<[this := {| buffer_ := nullptr; capacity_ := 0 |}]> R)
             (<[this := 0]> Z) hp L w).
Proof.
  intros [H1 H2 H3 H4 H5]. csimp in *.
  unfold Vector.copy_ctor. crun. rewrite RawMemory_ctor_zero.
  destruct (decide (rhs = this)) as [->|Hne]; crun.
  - unfold uninitialized_copy_n, uninitialized_n. crun. done.
  - unfold uninitialized_copy_n, uninitialized_n. crun. done.
Qed.


Lemma copy_assign_realloc_eval this rhs b1 xs c1 h2 ys c2 R Z hp L w :
  vec_at (State R Z hp L w) this b1 xs c1 ->
  vec_at (State R Z hp L w) rhs (Ptr h2 0) ys c2 ->
  this ≠ rhs ->
  separate b1 (Ptr h2 0) ->
  c1 < length ys ->
  Vector.copy_assign this rhs (State R Z hp L w)
  = match allocation (length ys) w with
    | (false, w') => Exn bad_alloc (State R Z hp L w')
    | (true, w') =>
        match copy_list ys w' with
        | (ys', None, w'') =>
            Ok this
               (State (<[this := {| buffer_ := Ptr (free_block (State R Z hp L w)) 0;
                                    capacity_ := length ys |}]> R)
                  (<[this := length ys]> Z)
                  (released b1 (<[free_block (State R Z hp L w) := Some <$> ys']> hp)) L
                  (destroy_all xs w''))
        | (ys', Some e, w'') => Exn e (State R Z hp L (destroy_all ys' w''))
        end
    end.
Proof.
  intros Ht Hr Hne Hsep Hlt.
  pose proof Ht as [T1 T2 T3 T4 T5]. pose proof Hr as [R1 R2 R3 (_ & R4 & R5) R6].
  csimp in *.
  pose proof (free_address_raws (State R Z hp L w)) as Hl1.
  pose proof (free_address_sizes (State R Z hp L w)) as Hl2.
  csimp in *.
  unfold Vector.copy_assign. rewrite bool_decide_eq_false_2 by done. cbn [negb].
  crun. unfold Vector.scoped. crun.
  generalize dependent (free_address (State R Z hp L w)). intros l Hl1 Hl2.
  assert (l ≠ this) by congruence. assert (l ≠ rhs) by congruence.
  rewrite (copy_ctor_eval l rhs h2 ys c2) by (done || lia).
  pose proof (free_block_heap (State R Z hp L w)) as Hfree. csimp in Hfree.
  generalize dependent (free_block (State R Z hp L w)). intros h Hfree.
  destruct (allocation (length ys) w) as [[|] w']; [|done].
  destruct (copy_list ys w') as [[ys' [e|]] w'']; [done|].
  crun.
  erewrite Swap_eval; [| done | lk | lk | lk | lk].
  unfold Vector.dtor. crun.
  destruct b1 as [|h1 i1].
  - subst c1. destruct xs; [|csimp in *; lia]. crun.
    do 2 f_equal; try map_norm.
  - destruct T4 as (-> & T4 & T6). assert (h1 ≠ h) by congruence.
    unfold block_of in T6.
    erewrite (destroy_n_eval h1 xs 0 []); [| lk | done].
    crun. rewrite <- replicate_add, live_objects_raw, app_nil_r. unfold released.
    do 2 f_equal; try map_norm.
Qed.

Lemma copy_list_copies ys w ys' w' :
  copy_list ys w = (ys', None, w') -> copies_of ys ys'.
Proof.
  revert w ys'. induction ys as [|y ys IH]; intros w ys' Hc; cbn in Hc.
  - injection Hc as <- _. constructor.
  - destruct (copy_construct y w) as [[e|y1] w1] eqn:Hy; [done|].
    destruct (copy_list ys w1) as [[ys1 r] w2] eqn:Hys.
    injection Hc as <- -> ->. constructor; [eauto|]. eapply IH. done.
Qed.

Lemma block_of_full xs : block_of xs (length xs) = Some <$> xs.
Proof. unfold block_of. by rewrite Nat.sub_diag, app_nil_r. Qed.

(** C5: copy assignment from a source larger than the capacity of the
    target builds a copy of the source and swaps it in.  The call
    completes exactly when the allocation for [length ys] elements is
    granted and every copy constructor returns: the target then holds the
    copies, in a new block whose capacity is their number, the old
    elements are destroyed and the old block is released.  When the
    allocation fails the call throws [bad_alloc], and when a copy
    constructor throws the call throws that exception; in both cases the
    state is the one before the call, up to the world: size, capacity and
    elements of the target (and of the source) are unchanged, the copies
    made so far are destroyed, the new buffer is released and nothing is
    leaked. *)
Theorem copy_assign_realloc_strong (s : st) (this rhs : positive) (b1 b2 : ptr)
    (xs ys : list T) (c1 c2 : nat) :
  vec_at s this b1 xs c1 ->
  vec_at s rhs b2 ys c2 ->
  this ≠ rhs ->
  separate b1 b2 ->
  c1 < length ys ->
  match Vector.copy_assign this rhs s with
  | Ok r s' =>
      r = this /\ exists b' ys' w0 w1,
        allocation (length ys) (world s) = (true, w0)
        /\ copy_list ys w0 = (ys', None, w1)
        /\ world s' = destroy_all xs w1
        /\ vec_at s' this b' ys' (length ys) /\ copies_of ys ys' /\ vec_at s' rhs b2 ys c2
        /\ b' = Ptr (free_block s) 0
        /\ (forall h i, b1 = Ptr h i -> heap s' !! h = None)
        /\ leaked s' = leaked s
  | Exn e s' =>
      exists w', s' = set_world w' s
        /\ (allocation (length ys) (world s) = (false, w') /\ e = bad_alloc
            \/ exists w0 ys' w1,
                 allocation (length ys) (world s) = (true, w0)
                 /\ copy_list ys w0 = (ys', Some e, w1)
                 /\ w' = destroy_all ys' w1)
  | Undefined | Aborted => False
  end.
Proof.
  intros Ht Hr Hne Hsep Hlt. destruct s as [R Z hp L w].
  destruct b2 as [|h2 i2].
  { destruct Hr as [_ _ R3 R4 _]. csimp in *. lia. }
  assert (i2 = 0) as -> by (by destruct Hr as [_ _ _ (? & _) _]).
  rewrite (copy_assign_realloc_eval this rhs b1 xs c1 h2 ys c2) by done.
  pose proof (free_block_heap (State R Z hp L w)) as Hfree. csimp in Hfree.
  generalize dependent (free_block (State R Z hp L w)). intros h Hfree.
  destruct (allocation (length ys) w) as [[|] w'] eqn:Hal.
  2:{ exists w'. split; [done|]. by left. }
  pose proof (copy_list_length ys w') as Hlen.
  destruct (copy_list ys w') as [[ys' [e|]] w''] eqn:Hcl.
  { exists (destroy_all ys' w''). split; [done|]. right. by exists w', ys', w''. }
  destruct Hlen as [_ Hlen]. specialize (Hlen eq_refl).
  pose proof Ht as [T1 T2 T3 T4 T5]. pose proof Hr as [R1 R2 R3 (_ & R4 & R5) R6].
  csimp in *. assert (h2 ≠ h) by congruence.
  split; [done|]. exists (Ptr h 0), ys', w', w''.
  split; [done|]. split; [done|]. split; [done|].
  split; [|split; [|split; [|split; [done|split; [|done]]]]].
  - vec_fields.
    + split; [done|]. split; [lia|]. rewrite <- Hlen, block_of_full.
      destruct b1 as [|h1 i1]; unfold released; [lk|].
      destruct T4 as (_ & _ & T6). assert (h1 ≠ h) by congruence. lk.
    + by eapply allocation_bound.
  - by eapply copy_list_copies.
  - vec_fields.
    split; [done|]. split; [done|].
    destruct b1 as [|h1 i1]; unfold released; [lk|].
    unfold separate in Hsep. lk.
  - intros h1 i1 ->. unfold released. by rewrite lookup_delete_eq.
Qed.

End Construction.

(** ** Relocation and [Reserve] *)

Section Relocation.
Context {T A W : Type} {HE : Element T A W} {HB : Build}.
Local Abbreviation st := (state T W).
Implicit Types (hp : gmap positive (list (option T))) (R : gmap positive RawMemoryObj)
  (Z : gmap positive nat) (L : list T) (w : W) (xs ys : list T) (s : st).

Lemma relocate_list_length xs w :
  let '(ys, srcs, r, _) := relocate_list xs w in
  length ys <= length xs /\ length srcs = length xs /\ (r = None -> length ys = length xs).
Proof.
  unfold relocate_list. destruct relocates_by_move; [apply move_list_length|].
  pose proof (copy_list_length xs w) as Hc. destruct (copy_list xs w) as [[ys r] w'].
  destruct Hc. done.
Qed.

(** Relocating [n] elements from one block to raw slots of another. *)
Lemma relocate_move_n hs hd i j n xs spre spost pre post R Z hp L w :
  relocates_by_move = true ->
  hs ≠ hd ->
  hp !! hs = Some (spre ++ (Some <$> xs) ++ spost) -> i = length spre ->
  hp !! hd = Some (pre ++ replicate n None ++ post) -> j = length pre ->
  n = length xs ->
  uninitialized_move_n (Ptr hs i) n (Ptr hd j) (State R Z hp L w)
  = match relocate_list xs w with
    | (ys, srcs, None, w') =>
        Ok (Ptr hd (j + n))
           (State R Z (<[hd := pre ++ (Some <$> ys) ++ post]>
                         (<[hs := spre ++ (Some <$> srcs) ++ spost]> hp)) L w')
    | (ys, srcs, Some e, w') =>
        if is_nothrow_move_constructible then Aborted
        else Exn e (State R Z (<[hs := spre ++ (Some <$> srcs) ++ spost]> hp) L
                      (destroy_all ys w'))
    end.
Proof.
  intros Hpol. intros. unfold relocate_list. rewrite Hpol.
  by apply uninitialized_move_n_eval.
Qed.

Lemma relocate_copy_n hs hd i j n xs spre spost pre post R Z hp L w :
  relocates_by_move = false ->
  hs ≠ hd ->
  hp !! hs = Some (spre ++ (Some <$> xs) ++ spost) -> i = length spre ->
  hp !! hd = Some (pre ++ replicate n None ++ post) -> j = length pre ->
  n = length xs ->
  uninitialized_copy_n (Ptr hs i) n (Ptr hd j) (State R Z hp L w)
  = match relocate_list xs w with
    | (ys, srcs, None, w') =>
        Ok (Ptr hd (j + n))
           (State R Z (<[hd := pre ++ (Some <$> ys) ++ post]>
                         (<[hs := spre ++ (Some <$> srcs) ++ spost]> hp)) L w')
    | (ys, srcs, Some e, w') =>
        Exn e (State R Z (<[hs := spre ++ (Some <$> srcs) ++ spost]> hp) L
                 (destroy_all ys w'))
    end.
Proof.
  intros Hpol Hne Hs Hi Hd Hj Hn. unfold relocate_list. rewrite Hpol.
  rewrite (uninitialized_copy_n_eval hs hd i j n xs spre spost pre post) by done.
  destruct (copy_list xs w) as [[ys [e|]] w'].
  - by rewrite (insert_id hp hs).
  - rewrite (insert_id hp hs); done.
Qed.

(** Under a safe relocation policy a relocation that fails has copied. *)
Lemma safe_relocation_fails xs w ys srcs e w' :
  safe_relocation ->
  relocate_list xs w = (ys, srcs, Some e, w') ->
  relocates_by_move = false /\ srcs = xs.
Proof.
  unfold safe_relocation, relocate_list, relocates_by_move.
  destruct is_nothrow_move_constructible eqn:Hnt; cbn.
  - intros Hsafe Hm. exfalso. clear Hnt. revert w ys srcs Hm.
    induction xs as [|x xs IH]; intros w ys srcs Hm; cbn in Hm; [done|].
    destruct (Hsafe x w) as (y & x' & w1 & Hx). rewrite Hx in Hm.
    destruct (move_list xs w1) as [[[ys1 srcs1] r] w2] eqn:Hr.
    injection Hm as <- <- -> ->. eapply IH. done.
  - intros ->. cbn. destruct (copy_list xs w) as [[ys1 r] w1].
    intros [= <- <- _ _]. done.
Qed.

Lemma uninitialized_n_zero (one : nat -> M st unit) p R Z hp L w :
  uninitialized_n one 0 p (State R Z hp L w) = Ok (shift p 0) (State R Z hp L w).
Proof. reflexivity. Qed.

Lemma block_of_nil cap : block_of (@nil T) cap = replicate cap None.
Proof. unfold block_of. cbn. by rewrite Nat.sub_0_r. Qed.

Lemma Reserve_eval this b1 xs c1 n R Z hp L w :
  vec_at (State R Z hp L w) this b1 xs c1 ->
  c1 < n -> representable n ->
  Vector.Reserve this n (State R Z hp L w)
  = match allocation n w with
    | (false, w') => Exn bad_alloc (State R Z hp L w')
    | (true, w') =>
        match relocate_list xs w' with
        | (ys, srcs, None, w'') =>
            Ok tt (State (<[this := {| buffer_ := Ptr (free_block (State R Z hp L w)) 0;
                                       capacity_ := n |}]> R) Z
                     (released b1 (<[free_block (State R Z hp L w) := block_of ys n]> hp)) L
                     (destroy_all srcs w''))
        | (ys, srcs, Some e, w'') =>
            if relocates_by_move && is_nothrow_move_constructible then Aborted
            else Exn e (State R Z (with_elements b1 srcs c1 hp) L (destroy_all ys w''))
        end
    end.
Proof.
  intros Ht Hlt Hrep. pose proof Ht as [T1 T2 T3 T4 T5]. csimp in *.
  pose proof (free_address_raws (State R Z hp L w)) as Hl1. csimp in Hl1.
  unfold Vector.Reserve. crun. unfold RawMemory.scoped. crun.
  generalize dependent (free_address (State R Z hp L w)). intros l Hl1.
  assert (l ≠ this) by congruence.
  rewrite RawMemory_ctor_eval by (done || lia).
  pose proof (free_block_heap (State R Z hp L w)) as Hfree. csimp in Hfree.
  generalize dependent (free_block (State R Z hp L w)). intros h Hfree.
  destruct (allocation n w) as [[|] w']; [|done].
  pose proof (relocate_list_length xs w') as Hlen.
  fold relocates_by_move. destruct relocates_by_move eqn:Hpol; crun.
  - (* relocation by move *)
    destruct b1 as [|h1 i1].
    + subst c1. destruct xs; [|csimp in *; lia].
      unfold uninitialized_move_n. rewrite uninitialized_n_zero.
      unfold relocate_list. rewrite Hpol. cbn [move_list]. crun.
      rewrite block_of_nil. unfold released, destroy_all. cbn [foldl].
      do 2 f_equal; try map_norm.
    + destruct T4 as (-> & T4 & T6). assert (h1 ≠ h) by congruence.
      unfold block_of in T6.
      erewrite (relocate_move_n h1 h 0 0 (length xs) xs [] _ [] (replicate (n - length xs) None));
        [| done | done | lk | done | | done | done].
      2:{ rewrite lookup_insert_eq. rewrite app_nil_l, <- replicate_add. do 2 f_equal. lia. }
      destruct (relocate_list xs w') as [[[ys srcs] [e|]] w''].
      * destruct is_nothrow_move_constructible; [done|]. crun.
        rewrite live_objects_raw, app_nil_r. unfold with_elements, block_of.
        destruct Hlen as (_ & -> & _).
        do 2 f_equal; try map_norm.
      * destruct Hlen as (_ & Hs & Hy). specialize (Hy eq_refl). crun.
        replace (destroy_n (Ptr h1 0) (length xs)) with (destroy_n (Ptr h1 0) (length srcs))
          by (by rewrite Hs).
        erewrite (destroy_n_eval h1 srcs 0 []); [| lk | done].
        crun. rewrite <- replicate_add, live_objects_raw, app_nil_r.
        unfold released, block_of. rewrite Hy.
        do 2 f_equal; try map_norm.
  - (* relocation by copy *)
    destruct b1 as [|h1 i1].
    + subst c1. destruct xs; [|csimp in *; lia].
      unfold uninitialized_copy_n. rewrite uninitialized_n_zero.
      unfold relocate_list. rewrite Hpol. cbn [copy_list]. crun.
      rewrite block_of_nil. unfold released, destroy_all. cbn [foldl].
      do 2 f_equal; try map_norm.
    + destruct T4 as (-> & T4 & T6). assert (h1 ≠ h) by congruence.
      unfold block_of in T6.
      erewrite (relocate_copy_n h1 h 0 0 (length xs) xs [] _ [] (replicate (n - length xs) None));
        [| done | done | lk | done | | done | done].
      2:{ rewrite lookup_insert_eq. rewrite app_nil_l, <- replicate_add. do 2 f_equal. lia. }
      destruct (relocate_list xs w') as [[[ys srcs] [e|]] w''].
      * crun.
        rewrite live_objects_raw, app_nil_r. unfold with_elements, block_of.
        destruct Hlen as (_ & -> & _).
        do 2 f_equal; try map_norm.
      * destruct Hlen as (_ & Hs & Hy). specialize (Hy eq_refl). crun.
        replace (destroy_n (Ptr h1 0) (length xs)) with (destroy_n (Ptr h1 0) (length srcs))
          by (by rewrite Hs).
        erewrite (destroy_n_eval h1 srcs 0 []); [| lk | done].
        crun. rewrite <- replicate_add, live_objects_raw, app_nil_r.
        unfold released, block_of. rewrite Hy.
        do 2 f_equal; try map_norm.
Qed.

End Relocation.

Ltac dstep :=
  first [ rewrite decide_True by done | rewrite decide_False by done
        | rewrite bool_decide_eq_true_2 by done | rewrite bool_decide_eq_false_2 by done
        | rewrite Nat.sub_0_r | rewrite size_sub_le by list_len ].
Ltac size_tac :=
  rewrite ?length_app in *; unfold PTRDIFF_MAX in *; cbn [length] in *; lia.
Ltac lnorm :=
  repeat (progress (rewrite ?fmap_app, <- ?app_assoc, ?app_nil_r; cbn [app fmap list_fmap])).
Ltac lookup_step :=
  first [ rewrite lookup_insert_eq | rewrite lookup_insert_ne by done
        | rewrite lookup_delete_eq | rewrite lookup_delete_ne by done
        | match goal with Hl : ?hp !! ?h = Some _ |- context [?hp !! ?h] => rewrite Hl end
        | match goal with Hl : ?hp !! ?h = None |- context [?hp !! ?h] => rewrite Hl end ].
Ltac astep :=
  match goal with
  | |- context [alter ?f ?h ?m] =>
      erewrite (alter_insert_eq m h _ f) by (repeat lookup_step; reflexivity)
  end.
Lemma insert_insert_skip {X} (m : gmap positive X) h h1 a b c :
  h ≠ h1 -> <[h1 := a]> (<[h := b]> (<[h1 := c]> m)) = <[h1 := a]> (<[h := b]> m).
Proof. intros Hne. map_norm. Qed.

Ltac crun' :=
  repeat (csimp; first [ cstep | dstep | rewrite insert_insert_eq
                       | rewrite insert_insert_skip by done | astep ]);
  csimp; snorm.

Section LiveObjects.
Context {T : Type}.
Lemma live_objects_app (l1 l2 : list (option T)) :
  live_objects (l1 ++ l2) = live_objects l1 ++ live_objects l2.
Proof. apply omap_app. Qed.
Lemma live_objects_None (l : list (option T)) : live_objects (None :: l) = live_objects l.
Proof. reflexivity. Qed.
Lemma live_objects_nil : live_objects (@nil (option T)) = [].
Proof. reflexivity. Qed.

End LiveObjects.

Ltac leak_norm :=
  rewrite ?live_objects_app, ?live_objects_None, ?live_objects_raw, ?live_objects_nil,
    ?app_nil_r.
Ltac state_eq := do 2 f_equal; try map_norm; try (leak_norm; done).

(** ** The reallocating insertion, in both versions *)

Section Insert.
Context {T A W : Type} {HE : Element T A W} {HB : Build}.
Local Abbreviation st := (state T W).
Implicit Types (hp : gmap positive (list (option T))) (R : gmap positive RawMemoryObj)
  (Z : gmap positive nat) (L : list T) (w : W) (xs ys : list T) (s : st).

Lemma run_args_ctor_eval a R Z hp L w :
  run_args_ctor a (State R Z hp L w)
  = match args_outcome a w with
    | None => Aborted
    | Some (inl e, w') => Exn e (State R Z hp L w')
    | Some (inr x, w') => Ok x (State R Z hp L w')
    end.
Proof.
  destruct a as [a|x|x]; cbn [run_args_ctor args_outcome].
  - unfold run_ctor. csimp. by destruct (construct a w) as [[e|y] w'].
  - unfold run_ctor. csimp. by destruct (copy_construct x w) as [[e|y] w'].
  - unfold run_move_ctor, bind. csimp.
    destruct (move_construct x w) as [[[e|y] x'] w']; [|done].
    by destruct is_nothrow_move_constructible.
Qed.

Lemma new_args_eval h i a pre post R Z hp L w :
  hp !! h = Some (pre ++ None :: post) -> i = length pre ->
  new_args (Ptr h i) a (State R Z hp L w)
  = match args_outcome a w with
    | None => Aborted
    | Some (inl e, w') => Exn e (State R Z hp L w')
    | Some (inr x, w') => Ok tt (State R Z (<[h := pre ++ Some x :: post]> hp) L w')
    end.
Proof.
  intros Hh Hi. unfold new_args. crun. rewrite run_args_ctor_eval.
  destruct (args_outcome a w) as [[[e|x] w']|]; try done. crun. done.
Qed.

(** [UninitializedMoveOrCopy] of [vector.h] over a range of one block *)
Lemma relocate_range_eval hs hd i j k xs spre spost pre post R Z hp L w :
  hs ≠ hd ->
  hp !! hs = Some (spre ++ (Some <$> xs) ++ spost) -> i = length spre ->
  hp !! hd = Some (pre ++ replicate (length xs) None ++ post) -> j = length pre ->
  k = i + length xs ->
  VectorH.UninitializedMoveOrCopy (Ptr hs i) (Ptr hs k) (Ptr hd j) (State R Z hp L w)
  = match relocate_list xs w with
    | (ys, srcs, None, w') =>
        Ok tt (State R Z (<[hd := pre ++ (Some <$> ys) ++ post]>
                            (<[hs := spre ++ (Some <$> srcs) ++ spost]> hp)) L w')
    | (ys, srcs, Some e, w') =>
        if is_nothrow_move_constructible then Aborted
        else Exn e (State R Z (<[hs := spre ++ (Some <$> srcs) ++ spost]> hp) L
                      (destroy_all ys w'))
    end.
Proof.
  intros Hne Hs Hi Hd Hj ->. unfold VectorH.UninitializedMoveOrCopy.
  fold relocates_by_move. destruct relocates_by_move eqn:Hpol.
  - unfold uninitialized_move. crun'.
    replace (i + length xs - i) with (length xs) by lia.
    rewrite (relocate_move_n hs hd i j (length xs) xs spre spost pre post) by done.
    destruct (relocate_list xs w) as [[[ys srcs] [e|]] w']; [|done].
    by destruct is_nothrow_move_constructible.
  - unfold uninitialized_copy. crun'.
    replace (i + length xs - i) with (length xs) by lia.
    rewrite (relocate_copy_n hs hd i j (length xs) xs spre spost pre post) by done.
    destruct (relocate_list xs w) as [[[ys srcs] [e|]] w']; [|done].
    unfold relocates_by_move in Hpol. destruct is_nothrow_move_constructible; done.
Qed.

Lemma relocate_range_null hd j R Z hp L w :
  VectorH.UninitializedMoveOrCopy nullptr nullptr (Ptr hd j) (State R Z hp L w)
  = Ok tt (State R Z hp L w).
Proof.
  unfold VectorH.UninitializedMoveOrCopy. by destruct (_ || _).
Qed.

Lemma block_of_exact xs c : length xs = c -> block_of xs c = Some <$> xs.
Proof. intros <-. apply block_of_full. Qed.

Lemma grown_pos n : 0 < grown n.
Proof. unfold grown. destruct (Nat.eqb_spec n 0); lia. Qed.

Lemma grown_gt n : n < grown n.
Proof. unfold grown. destruct (Nat.eqb_spec n 0); lia. Qed.

Lemma vec_at_size_bound s v buf xs cap :
  vec_at s v buf xs cap -> (N.of_nat (length xs) <= PTRDIFF_MAX)%N.
Proof. intros [_ _ Hle _ Hb]. nia. Qed.

Lemma grown_representable s v buf xs cap :
  vec_at s v buf xs cap -> representable 1 -> representable (grown (length xs)).
Proof.
  intros Hv H1. unfold grown. destruct (Nat.eqb_spec (length xs) 0); [done|].
  eapply vec_at_representable; [done|]. destruct Hv. lia.
Qed.

Lemma relocate_list_nil w : relocate_list (@nil T) w = ([], [], None, w).
Proof. unfold relocate_list. by destruct relocates_by_move. Qed.

Lemma EmplaceRealloc_eval this b1 xa xb c1 args R Z hp L w :
  vec_at (State R Z hp L w) this b1 (xa ++ xb) c1 ->
  length (xa ++ xb) = c1 ->
  representable 1 ->
  VectorH.EmplaceRealloc this (iter b1 (length xa)) args (State R Z hp L w)
  = match realloc_insert (xa ++ xb) (length xa) args w with
    | Done elems w' =>
        Ok (Ptr (free_block (State R Z hp L w)) (length xa))
           (State (<[this := {| buffer_ := Ptr (free_block (State R Z hp L w)) 0;
                                capacity_ := grown (length (xa ++ xb)) |}]> R)
              (<[this := S (length (xa ++ xb))]> Z)
              (released b1
                 (<[free_block (State R Z hp L w)
                    := block_of elems (grown (length (xa ++ xb)))]> hp))
              L w')
    | Failed e srcs w' => Exn e (State R Z (with_elements b1 srcs c1 hp) L w')
    | Terminated => Aborted
    end.
Proof.
  intros Ht Hfull Hrep1.
  pose proof (grown_representable _ _ _ _ _ Ht Hrep1) as Hrep.
  pose proof (vec_at_size_bound _ _ _ _ _ Ht) as Hsz.
  pose proof (grown_pos (length (xa ++ xb))) as Hgp.
  pose proof (grown_gt (length (xa ++ xb))) as Hgt.
  pose proof Ht as [T1 T2 T3 T4 T5]. csimp in *.
  pose proof (free_address_raws (State R Z hp L w)) as Hl1. csimp in Hl1.
  unfold VectorH.EmplaceRealloc, realloc_insert. crun'.
  replace (if length (xa ++ xb) =? 0 then 1 else size_mul (length (xa ++ xb)) 2)
    with (grown (length (xa ++ xb))).
  2:{ unfold grown. destruct (length (xa ++ xb) =? 0); [done|].
      rewrite size_mul_small; [done|]. unfold PTRDIFF_MAX in Hsz. lia. }
  unfold RawMemory.scoped. crun'.
  generalize dependent (free_address (State R Z hp L w)). intros l Hl1.
  assert (l ≠ this) by congruence.
  rewrite RawMemory_ctor_eval by done.
  pose proof (free_block_heap (State R Z hp L w)) as Hfree. csimp in Hfree.
  generalize dependent (free_block (State R Z hp L w)). intros h Hfree.
  set (n := grown (length (xa ++ xb))) in *.
  destruct (allocation n w) as [[|] w0].
  2:{ crun'. destruct b1; unfold with_elements; [done|].
      destruct T4 as (_ & _ & T6). by rewrite insert_id. }
  rewrite take_app_length, drop_app_length.
  destruct b1 as [|h1 i1].
  - (* the vector has no buffer *)
    assert (xa = [] /\ xb = []) as [-> ->].
    { destruct xa, xb; csimp in *; try lia; done. }
    csimp in *. clear Hgt. subst n. change (grown 0) with 1 in *.
    unfold iter. crun'. cbn [replicate] in *.
    rewrite (new_args_eval h 0 args [] []) by lk.
    destruct (args_outcome args w0) as [[[e|x] w1]|]; crun'; [| |done].
    { unfold with_elements. state_eq. }
    rewrite relocate_list_nil. rewrite relocate_range_null. crun'.
    rewrite relocate_list_nil. rewrite relocate_range_null. crun'.
    rewrite size_add_small by size_tac.
    unfold released, block_of, destroy_all. cbn [foldl length Nat.sub replicate fmap list_fmap app].
    state_eq.
  - (* the vector owns the block [h1] *)
    destruct T4 as (-> & T4 & T6). assert (h1 ≠ h) by congruence.
    unfold block_of in T6. rewrite Hfull, Nat.sub_diag, app_nil_r in T6.
    rewrite fmap_app in T6.
    assert (length xa < n) as Hxa by list_len.
    unfold iter. crun'.
    rewrite (replicate_split None n (length xa)) by done.
    rewrite (new_args_eval h (length xa) args (replicate (length xa) None)
               (replicate (n - length xa - 1) None)); [| lk | list_len].
    destruct (args_outcome args w0) as [[[e|x] w1]|]; crun'; [| |done].
    { unfold with_elements, block_of. rewrite Hfull, Nat.sub_diag, app_nil_r, fmap_app.
      state_eq. }
    pose proof (relocate_list_length xa w1) as Hlen1.
    erewrite (relocate_range_eval h1 h 0 0 (length xa) xa [] (Some <$> xb) []
                (Some x :: replicate (n - length xa - 1) None));
      [| done | lk | done | lk | done | done].
    destruct (relocate_list xa w1) as [[[ys1 srcs1] [e|]] w2].
    { (* the prefix transfer fails *)
      destruct is_nothrow_move_constructible; [done|]. destruct Hlen1 as (Hy1 & Hs1 & _).
      crun'. unfold with_elements. rewrite (block_of_exact (srcs1 ++ xb) c1) by list_len.
      rewrite fmap_app. state_eq. }
    destruct Hlen1 as (_ & Hs1 & Hy1). specialize (Hy1 eq_refl).
    crun'.
    pose proof (relocate_list_length xb w2) as Hlen2.
    erewrite (relocate_range_eval h1 h (length xa) (length xa + 1) (length (xa ++ xb)) xb
                (Some <$> srcs1) [] ((Some <$> ys1) ++ [Some x])
                (replicate (n - length (xa ++ xb) - 1) None));
      [| done | | list_len | | list_len | list_len ].
    2:{ repeat mstep. by rewrite app_nil_r. }
    2:{ repeat mstep. rewrite <- !app_assoc. cbn [app]. do 3 f_equal.
        rewrite <- replicate_add. f_equal. list_len. }
    destruct (relocate_list xb w2) as [[[ys2 srcs2] [e|]] w3].
    { (* the suffix transfer fails *)
      destruct is_nothrow_move_constructible; [done|]. destruct Hlen2 as (Hy2 & Hs2 & _).
      crun'. unfold destroy_range. crun'.
      replace (length xa + 1) with (length (ys1 ++ [x])) by list_len.
      erewrite (destroy_n_eval h (ys1 ++ [x]) 0 [] (replicate (n - length xa - 1) None));
        [| | done].
      2:{ repeat lookup_step. by rewrite fmap_app, <- app_assoc. }
      crun'. unfold with_elements. rewrite (block_of_exact (srcs1 ++ srcs2) c1) by list_len.
      rewrite fmap_app, app_nil_r. state_eq. }
    destruct Hlen2 as (_ & Hs2 & Hy2). specialize (Hy2 eq_refl).
    crun'.
    replace (length (xa ++ xb)) with (length (srcs1 ++ srcs2)) at 1 by list_len.
    erewrite (destroy_n_eval h1 (srcs1 ++ srcs2) 0 [] []); [| | done].
    2:{ repeat lookup_step. lnorm. done. }
    crun'. rewrite size_add_small by size_tac.
    unfold released, block_of. rewrite Nat.add_1_r.
    replace (n - length (ys1 ++ x :: ys2)) with (n - length (xa ++ xb) - 1) by list_len.
    lnorm. state_eq.
Qed.

(** The same transfers as the second version of the header writes them. *)
Lemma relocate_move_range hs hd i j k xs spre spost pre post R Z hp L w :
  relocates_by_move = true ->
  hs ≠ hd ->
  hp !! hs = Some (spre ++ (Some <$> xs) ++ spost) -> i = length spre ->
  hp !! hd = Some (pre ++ replicate (length xs) None ++ post) -> j = length pre ->
  k = i + length xs ->
  uninitialized_move (Ptr hs i) (Ptr hs k) (Ptr hd j) (State R Z hp L w)
  = match relocate_list xs w with
    | (ys, srcs, None, w') =>
        Ok (Ptr hd (j + length xs))
           (State R Z (<[hd := pre ++ (Some <$> ys) ++ post]>
                         (<[hs := spre ++ (Some <$> srcs) ++ spost]> hp)) L w')
    | (ys, srcs, Some e, w') =>
        if is_nothrow_move_constructible then Aborted
        else Exn e (State R Z (<[hs := spre ++ (Some <$> srcs) ++ spost]> hp) L
                      (destroy_all ys w'))
    end.
Proof.
  intros Hpol Hne Hs Hi Hd Hj ->. unfold uninitialized_move. crun'.
  replace (i + length xs - i) with (length xs) by lia.
  by rewrite (relocate_move_n hs hd i j (length xs) xs spre spost pre post).
Qed.

Lemma relocate_copy_range hs hd i j k xs spre spost pre post R Z hp L w :
  relocates_by_move = false ->
  hs ≠ hd ->
  hp !! hs = Some (spre ++ (Some <$> xs) ++ spost) -> i = length spre ->
  hp !! hd = Some (pre ++ replicate (length xs) None ++ post) -> j = length pre ->
  k = i + length xs ->
  uninitialized_copy (Ptr hs i) (Ptr hs k) (Ptr hd j) (State R Z hp L w)
  = match relocate_list xs w with
    | (ys, srcs, None, w') =>
        Ok (Ptr hd (j + length xs))
           (State R Z (<[hd := pre ++ (Some <$> ys) ++ post]>
                         (<[hs := spre ++ (Some <$> srcs) ++ spost]> hp)) L w')
    | (ys, srcs, Some e, w') =>
        if is_nothrow_move_constructible then Aborted
        else Exn e (State R Z (<[hs := spre ++ (Some <$> srcs) ++ spost]> hp) L
                      (destroy_all ys w'))
    end.
Proof.
  intros Hpol Hne Hs Hi Hd Hj ->. unfold uninitialized_copy. crun'.
  replace (i + length xs - i) with (length xs) by lia.
  rewrite (relocate_copy_n hs hd i j (length xs) xs spre spost pre post) by done.
  destruct (relocate_list xs w) as [[[ys srcs] [e|]] w']; [|done].
  unfold relocates_by_move in Hpol. by destruct is_nothrow_move_constructible.
Qed.

Lemma uninitialized_move_null p R Z hp L w :
  uninitialized_move nullptr nullptr p (State R Z hp L w) = Ok (shift p 0) (State R Z hp L w).
Proof. reflexivity. Qed.

Lemma uninitialized_copy_null p R Z hp L w :
  uninitialized_copy nullptr nullptr p (State R Z hp L w) = Ok (shift p 0) (State R Z hp L w).
Proof. reflexivity. Qed.

Lemma Part000_Emplace_realloc_eval this b1 xa xb c1 args R Z hp L w :
  vec_at (State R Z hp L w) this b1 (xa ++ xb) c1 ->
  length (xa ++ xb) = c1 ->
  representable 1 ->
  Part000.Emplace this (iter b1 (length xa)) args (State R Z hp L w)
  = match realloc_insert (xa ++ xb) (length xa) args w with
    | Done elems w' =>
        Ok (Ptr (free_block (State R Z hp L w)) (length xa))
           (State (<[this := {| buffer_ := Ptr (free_block (State R Z hp L w)) 0;
                                capacity_ := grown (length (xa ++ xb)) |}]> R)
              (<[this := S (length (xa ++ xb))]> Z)
              (released b1
                 (<[free_block (State R Z hp L w)
                    := block_of elems (grown (length (xa ++ xb)))]> hp))
              L w')
    | Failed e srcs w' => Exn e (State R Z (with_elements b1 srcs c1 hp) L w')
    | Terminated => Aborted
    end.
Proof.
  intros Ht Hfull Hrep1.
  pose proof (grown_representable _ _ _ _ _ Ht Hrep1) as Hrep.
  pose proof (vec_at_size_bound _ _ _ _ _ Ht) as Hsz.
  pose proof (grown_pos (length (xa ++ xb))) as Hgp.
  pose proof (grown_gt (length (xa ++ xb))) as Hgt.
  pose proof Ht as [T1 T2 T3 T4 T5]. csimp in *.
  pose proof (free_address_raws (State R Z hp L w)) as Hl1. csimp in Hl1.
  unfold Part000.Emplace, realloc_insert.
  rewrite take_app_length, drop_app_length.
  destruct b1 as [|h1 i1].
  - (* the vector has no buffer *)
    assert (xa = [] /\ xb = []) as [-> ->].
    { destruct xa, xb; csimp in *; try lia; done. }
    csimp in *. clear Hgt. change (grown 0) with 1 in *.
    unfold iter. crun'. change (if 0 =? 0 then 1 else size_mul 0 2) with 1.
    unfold RawMemory.scoped. crun'.
    generalize dependent (free_address (State R Z hp L w)). intros l Hl1.
    assert (l ≠ this) by congruence.
    rewrite RawMemory_ctor_eval by done.
    pose proof (free_block_heap (State R Z hp L w)) as Hfree. csimp in Hfree.
    generalize dependent (free_block (State R Z hp L w)). intros h Hfree.
    destruct (allocation 1 w) as [[|] w0]; [|done].
    crun'. cbn [replicate] in *.
    rewrite (new_args_eval h 0 args [] []) by lk.
    destruct (args_outcome args w0) as [[[e|x] w1]|]; crun'; [| |done].
    { unfold with_elements. state_eq. }
    rewrite !relocate_list_nil.
    fold relocates_by_move. destruct relocates_by_move; crun'.
    + rewrite uninitialized_move_null. crun'. rewrite uninitialized_move_null. crun'.
      rewrite size_add_small by size_tac.
      unfold released, block_of, destroy_all.
      cbn [foldl length Nat.sub replicate fmap list_fmap app]. state_eq.
    + rewrite uninitialized_copy_null. crun'. rewrite uninitialized_copy_null. crun'.
      rewrite size_add_small by size_tac.
      unfold released, block_of, destroy_all.
      cbn [foldl length Nat.sub replicate fmap list_fmap app]. state_eq.
  - (* the vector owns the block [h1] *)
    destruct T4 as (-> & T4 & T6).
    unfold block_of in T6. rewrite Hfull, Nat.sub_diag, app_nil_r in T6.
    rewrite fmap_app in T6.
    unfold iter. crun'.
    replace (size_mul (length (xa ++ xb)) 2) with (grown (length (xa ++ xb))).
    2:{ unfold grown. rewrite (proj2 (Nat.eqb_neq _ 0)) by lia.
        rewrite size_mul_small; [done|]. unfold PTRDIFF_MAX in Hsz. lia. }
    unfold RawMemory.scoped. crun'.
    generalize dependent (free_address (State R Z hp L w)). intros l Hl1.
    assert (l ≠ this) by congruence.
    rewrite RawMemory_ctor_eval by done.
    pose proof (free_block_heap (State R Z hp L w)) as Hfree. csimp in Hfree.
    generalize dependent (free_block (State R Z hp L w)). intros h Hfree.
    assert (h1 ≠ h) by congruence.
    set (n := grown (length (xa ++ xb))) in *.
    assert (length xa < n) as Hxa by list_len.
    destruct (allocation n w) as [[|] w0].
    2:{ crun'. unfold with_elements. rewrite (block_of_exact _ c1), fmap_app by done.
        by rewrite insert_id. }
    crun'.
    rewrite (replicate_split None n (length xa)) by done.
    rewrite (new_args_eval h (length xa) args (replicate (length xa) None)
               (replicate (n - length xa - 1) None)); [| lk | list_len].
    destruct (args_outcome args w0) as [[[e|x] w1]|]; crun'; [| |done].
    { unfold with_elements, block_of. rewrite Hfull, Nat.sub_diag, app_nil_r, fmap_app.
      state_eq. }
    fold relocates_by_move. destruct relocates_by_move eqn:Hpol; crun'.
    + (* relocation by move *)
      pose proof (relocate_list_length xa w1) as Hlen1.
      erewrite (relocate_move_range h1 h 0 0 (length xa) xa [] (Some <$> xb) []
                  (Some x :: replicate (n - length xa - 1) None));
        [| done | done | lk | done | lk | done | done].
      destruct (relocate_list xa w1) as [[[ys1 srcs1] [e|]] w2].
      { destruct is_nothrow_move_constructible; [done|]. destruct Hlen1 as (Hy1 & Hs1 & _).
        crun'. unfold with_elements.
        rewrite (block_of_exact (srcs1 ++ xb) c1) by list_len.
        rewrite fmap_app. state_eq. }
      destruct Hlen1 as (_ & Hs1 & Hy1). specialize (Hy1 eq_refl).
      crun'.
      pose proof (relocate_list_length xb w2) as Hlen2.
      erewrite (relocate_move_range h1 h (length xa) (length xa + 1) (length (xa ++ xb)) xb
                  (Some <$> srcs1) [] ((Some <$> ys1) ++ [Some x])
                  (replicate (n - length (xa ++ xb) - 1) None));
        [| done | done | | list_len | | list_len | list_len ].
      2:{ repeat mstep. by rewrite app_nil_r. }
      2:{ repeat mstep. rewrite <- !app_assoc. cbn [app]. do 3 f_equal.
          rewrite <- replicate_add. f_equal. list_len. }
      destruct (relocate_list xb w2) as [[[ys2 srcs2] [e|]] w3].
      { destruct is_nothrow_move_constructible; [done|]. destruct Hlen2 as (Hy2 & Hs2 & _).
        crun'. rewrite size_add_small by size_tac.
        replace (length xa + 1) with (length (ys1 ++ [x])) by list_len.
        erewrite (destroy_n_eval h (ys1 ++ [x]) 0 [] (replicate (n - length xa - 1) None));
          [| | done].
        2:{ repeat lookup_step. by rewrite fmap_app, <- app_assoc. }
        crun'. unfold with_elements.
        rewrite (block_of_exact (srcs1 ++ srcs2) c1) by list_len.
        rewrite fmap_app, app_nil_r. state_eq. }
      destruct Hlen2 as (_ & Hs2 & Hy2). specialize (Hy2 eq_refl).
      crun'.
      replace (length (xa ++ xb)) with (length (srcs1 ++ srcs2)) at 1 by list_len.
      erewrite (destroy_n_eval h1 (srcs1 ++ srcs2) 0 [] []); [| | done].
      2:{ repeat lookup_step. lnorm. done. }
      crun'. rewrite size_add_small by size_tac.
      unfold released, block_of. rewrite Nat.add_1_r.
      replace (n - length (ys1 ++ x :: ys2)) with (n - length (xa ++ xb) - 1) by list_len.
      lnorm. state_eq.
    + (* relocation by copy *)
      pose proof (relocate_list_length xa w1) as Hlen1.
      erewrite (relocate_copy_range h1 h 0 0 (length xa) xa [] (Some <$> xb) []
                  (Some x :: replicate (n - length xa - 1) None));
        [| done | done | lk | done | lk | done | done].
      destruct (relocate_list xa w1) as [[[ys1 srcs1] [e|]] w2].
      { destruct is_nothrow_move_constructible; [done|]. destruct Hlen1 as (Hy1 & Hs1 & _).
        crun'. unfold with_elements.
        rewrite (block_of_exact (srcs1 ++ xb) c1) by list_len.
        rewrite fmap_app. state_eq. }
      destruct Hlen1 as (_ & Hs1 & Hy1). specialize (Hy1 eq_refl).
      crun'.
      pose proof (relocate_list_length xb w2) as Hlen2.
      erewrite (relocate_copy_range h1 h (length xa) (length xa + 1) (length (xa ++ xb)) xb
                  (Some <$> srcs1) [] ((Some <$> ys1) ++ [Some x])
                  (replicate (n - length (xa ++ xb) - 1) None));
        [| done | done | | list_len | | list_len | list_len ].
      2:{ repeat mstep. by rewrite app_nil_r. }
      2:{ repeat mstep. rewrite <- !app_assoc. cbn [app]. do 3 f_equal.
          rewrite <- replicate_add. f_equal. list_len. }
      destruct (relocate_list xb w2) as [[[ys2 srcs2] [e|]] w3].
      { destruct is_nothrow_move_constructible; [done|]. destruct Hlen2 as (Hy2 & Hs2 & _).
        crun'. rewrite size_add_small by size_tac.
        replace (length xa + 1) with (length (ys1 ++ [x])) by list_len.
        erewrite (destroy_n_eval h (ys1 ++ [x]) 0 [] (replicate (n - length xa - 1) None));
          [| | done].
        2:{ repeat lookup_step. by rewrite fmap_app, <- app_assoc. }
        crun'. unfold with_elements.
        rewrite (block_of_exact (srcs1 ++ srcs2) c1) by list_len.
        rewrite fmap_app, app_nil_r. state_eq. }
      destruct Hlen2 as (_ & Hs2 & Hy2). specialize (Hy2 eq_refl).
      crun'.
      replace (length (xa ++ xb)) with (length (srcs1 ++ srcs2)) at 1 by list_len.
      erewrite (destroy_n_eval h1 (srcs1 ++ srcs2) 0 [] []); [| | done].
      2:{ repeat lookup_step. lnorm. done. }
      crun'. rewrite size_add_small by size_tac.
      unfold released, block_of. rewrite Nat.add_1_r.
      replace (n - length (ys1 ++ x :: ys2)) with (n - length (xa ++ xb) - 1) by list_len.
      lnorm. state_eq.
Qed.

End Insert.

(** ** Insertion within the capacity, and [Erase] *)

Section Chains.
Context {T A W : Type} {HE : Element T A W} {HB : Build}.
Local Abbreviation st := (state T W).
Implicit Types (hp : gmap positive (list (option T))) (R : gmap positive RawMemoryObj)
  (Z : gmap positive nat) (L : list T) (w : W) (xs ys : list T) (s : st).

Lemma move_chain_length d xs w :
  length (move_chain d xs w).1.1 = S (length xs).
Proof.
  revert d w. induction xs as [|x xs IH]; intros d w; cbn; [done|].
  destruct (move_assign d x w) as [[[[e|] d'] x'] w']; cbn; [done|].
  specialize (IH x' w'). destruct (move_chain x' xs w') as [[seg r] w'']. cbn in *. lia.
Qed.

Lemma lookup_middle2 {X} (l1 l2 : list X) a b i :
  i = S (length l1) -> (l1 ++ a :: b :: l2) !! i = Some b.
Proof.
  intros ->. rewrite (cons_middle a), app_assoc. apply lookup_middle. list_len.
Qed.

Lemma insert_middle2 {X} (l1 l2 : list X) a b c i :
  i = S (length l1) -> <[i := c]> (l1 ++ a :: b :: l2) = l1 ++ a :: c :: l2.
Proof.
  intros ->. rewrite (cons_middle a), app_assoc. rewrite insert_middle by list_len.
  by rewrite <- app_assoc.
Qed.

Lemma assign_move_eval h i j d x pre post R Z hp L w :
  hp !! h = Some (pre ++ Some d :: Some x :: post) -> i = length pre -> j = S i ->
  assign_move (Ptr h i) (Ptr h j) (State R Z hp L w)
  = match move_assign d x w with
    | (None, d', x', w') =>
        Ok tt (State R Z (<[h := pre ++ Some d' :: Some x' :: post]> hp) L w')
    | (Some e, d', x', w') =>
        Exn e (State R Z (<[h := pre ++ Some d' :: Some x' :: post]> hp) L w')
    end.
Proof.
  intros Hh -> ->. unfold assign_move, bind, read_obj, write_obj, throw.
  repeat (csimp; first [ rewrite lookup_middle by done | rewrite lookup_middle2 by done
                       | lookup_step ]).
  destruct (move_assign d x w) as [[[[e|] d'] x'] w'];
    repeat (csimp; first [ rewrite lookup_middle by done | rewrite lookup_middle2 by done
                         | rewrite insert_middle by done | rewrite insert_middle2 by done
                         | lookup_step | astep | rewrite insert_insert_eq | progress snorm ]);
    done.
Qed.

(** [std::move] to the left by one slot *)
Lemma move_loop_eval h xs : forall i d pre post R Z hp L w,
  hp !! h = Some (pre ++ (Some <$> d :: xs) ++ post) -> i = length pre ->
  move_loop (Ptr h (S i)) (Ptr h i) (length xs) (State R Z hp L w)
  = match move_chain d xs w with
    | (seg, None, w') =>
        Ok (Ptr h (i + length xs)) (State R Z (<[h := pre ++ (Some <$> seg) ++ post]> hp) L w')
    | (seg, Some e, w') =>
        Exn e (State R Z (<[h := pre ++ (Some <$> seg) ++ post]> hp) L w')
    end.
Proof.
  induction xs as [|x xs IH]; intros i d pre post R Z hp L w Hh Hi;
    cbn [length move_loop move_chain].
  - unfold ret. rewrite Nat.add_0_r. by rewrite insert_id.
  - unfold bind at 1. cbn [fmap list_fmap app] in Hh.
    erewrite (assign_move_eval h i (S i) d x pre); [| exact Hh | done | done].
    destruct (move_assign d x w) as [[[[e|] d'] x'] w'].
    + cbn [fmap list_fmap app]. done.
    + csimp. replace (i + 1) with (S i) by lia.
      erewrite (IH (S i) x' (pre ++ [Some d']) post); [| | list_len].
      2:{ rewrite lookup_insert_eq. rewrite <- app_assoc. done. }
      destruct (move_chain x' xs w') as [[seg [e|]] w''].
      * rewrite insert_insert_eq, <- app_assoc. done.
      * rewrite insert_insert_eq, <- app_assoc. do 2 f_equal. lia.
Qed.

Lemma assign_move_back_eval h i j d x pre post R Z hp L w :
  hp !! h = Some (pre ++ Some x :: Some d :: post) -> i = length pre -> j = S i ->
  assign_move (Ptr h j) (Ptr h i) (State R Z hp L w)
  = match move_assign d x w with
    | (None, d', x', w') =>
        Ok tt (State R Z (<[h := pre ++ Some x' :: Some d' :: post]> hp) L w')
    | (Some e, d', x', w') =>
        Exn e (State R Z (<[h := pre ++ Some x' :: Some d' :: post]> hp) L w')
    end.
Proof.
  intros Hh -> ->. unfold assign_move, bind, read_obj, write_obj, throw.
  repeat (csimp; first [ rewrite lookup_middle by done | rewrite lookup_middle2 by done
                       | lookup_step ]).
  destruct (move_assign d x w) as [[[[e|] d'] x'] w'];
    repeat (csimp; first [ rewrite lookup_middle by done | rewrite lookup_middle2 by done
                         | rewrite insert_middle by done | rewrite insert_middle2 by done
                         | lookup_step | astep | rewrite insert_insert_eq | progress snorm ]);
    done.
Qed.

(** [std::move_backward] to the right by one slot *)
Lemma move_backward_loop_eval h xs : forall i d pre post R Z hp L w,
  hp !! h = Some (pre ++ (Some <$> xs ++ [d]) ++ post) -> i = length pre + length xs ->
  move_backward_loop (Ptr h i) (Ptr h (S i)) (length xs) (State R Z hp L w)
  = match move_chain d (rev xs) w with
    | (seg, None, w') =>
        Ok (Ptr h (S (length pre)))
           (State R Z (<[h := pre ++ (Some <$> rev seg) ++ post]> hp) L w')
    | (seg, Some e, w') =>
        Exn e (State R Z (<[h := pre ++ (Some <$> rev seg) ++ post]> hp) L w')
    end.
Proof.
  induction xs as [|x xs IH] using rev_ind; intros i d pre post R Z hp L w Hh Hi.
  - cbn [length move_backward_loop rev move_chain]. unfold ret. cbn in *.
    rewrite Nat.add_0_r in Hi. subst i. by rewrite insert_id.
  - rewrite rev_app_distr. cbn [rev app move_chain].
    rewrite length_app in *. cbn [length] in *.
    replace (length xs + 1) with (S (length xs)) in * by lia.
    replace i with (S (length pre + length xs)) by lia.
    cbn [move_backward_loop]. unfold bind at 1. csimp. unfold bind at 1.
    rewrite !fmap_app in Hh. cbn [fmap list_fmap] in Hh. rewrite <- !app_assoc in Hh.
    cbn [app] in Hh. rewrite app_assoc in Hh.
    erewrite (assign_move_back_eval h (length pre + length xs) _ d x (pre ++ (Some <$> xs)));
      [| exact Hh | list_len | done].
    destruct (move_assign d x w) as [[[[e|] d'] x'] w'].
    + cbn [rev]. rewrite rev_involutive. lnorm. done.
    + erewrite (IH (length pre + length xs) x' pre (Some d' :: post)); [| | done].
      2:{ rewrite lookup_insert_eq. lnorm. done. }
      destruct (move_chain x' (rev xs) w') as [[seg [e|]] w''].
      * rewrite insert_insert_eq. cbn [rev]. lnorm. done.
      * rewrite insert_insert_eq. cbn [rev]. lnorm. done.
Qed.

Lemma new_move_adjacent_eval h i z pre post R Z hp L w :
  hp !! h = Some (pre ++ Some z :: None :: post) -> i = length pre ->
  new_move (Ptr h (S i)) (Ptr h i) (State R Z hp L w)
  = match move_construct z w with
    | (inr y, z', w') =>
        Ok tt (State R Z (<[h := pre ++ Some z' :: Some y :: post]> hp) L w')
    | (inl e, z', w') =>
        if is_nothrow_move_constructible then Aborted
        else Exn e (State R Z (<[h := pre ++ Some z' :: None :: post]> hp) L w')
    end.
Proof.
  intros Hh ->. unfold new_move, bind, storage_at, read_obj, write_obj, begin_lifetime, throw.
  repeat (csimp; first [ rewrite lookup_middle by done | rewrite lookup_middle2 by done
                       | lookup_step ]).
  destruct (move_construct z w) as [[[e|y] z'] w'].
  - destruct is_nothrow_move_constructible; [done|].
    repeat (csimp; first [ rewrite lookup_middle by done | rewrite lookup_middle2 by done
                         | rewrite insert_middle by done | rewrite insert_middle2 by done
                         | lookup_step | astep | rewrite insert_insert_eq | progress snorm ]).
    done.
  - repeat (csimp; first [ rewrite lookup_middle by done | rewrite lookup_middle2 by done
                         | rewrite insert_middle by done | rewrite insert_middle2 by done
                         | lookup_step | astep | rewrite insert_insert_eq | progress snorm ]).
    done.
Qed.

Lemma block_of_room xs cap :
  length xs < cap ->
  block_of xs cap = (Some <$> xs) ++ None :: replicate (cap - length xs - 1) None.
Proof.
  intros Hlt. unfold block_of. f_equal.
  destruct (cap - length xs) as [|k] eqn:E; [lia|]. cbn. by rewrite Nat.sub_0_r.
Qed.

Lemma block_of_snoc xs x cap :
  block_of (xs ++ [x]) cap = (Some <$> xs) ++ Some x :: replicate (cap - length xs - 1) None.
Proof.
  unfold block_of. rewrite fmap_app, <- app_assoc. cbn. do 3 f_equal. list_len.
Qed.

Lemma VectorH_Emplace_end_eval this h1 xs c1 args R Z hp L w :
  vec_at (State R Z hp L w) this (Ptr h1 0) xs c1 ->
  length xs < c1 ->
  VectorH.Emplace this (Ptr h1 (length xs)) args (State R Z hp L w)
  = commit_in_place (State R Z hp L w) this (Ptr h1 0) c1 (Ptr h1 (length xs))
      (S (length xs)) (append_in_place xs args w).
Proof.
  intros Ht Hlt. pose proof (vec_at_size_bound _ _ _ _ _ Ht) as Hsz.
  destruct Ht as [T1 T2 T3 (_ & T4 & T6) T5]. csimp in *.
  rewrite block_of_room in T6 by done.
  unfold VectorH.Emplace, commit_in_place, append_in_place, with_elements. crun'.
  erewrite (new_args_eval h1 (length xs) args (Some <$> xs)); [| lk | list_len].
  destruct (args_outcome args w) as [[[e|x] w']|]; crun'; [| |done].
  - rewrite block_of_room by done. state_eq.
  - rewrite size_add_small by size_tac. rewrite block_of_snoc, Nat.add_1_r. state_eq.
Qed.

Lemma uninitialized_move_one h i z pre post R Z hp L w :
  hp !! h = Some (pre ++ Some z :: None :: post) -> i = length pre ->
  uninitialized_move_n (Ptr h i) 1 (Ptr h (S i)) (State R Z hp L w)
  = match move_construct z w with
    | (inr y, z', w') =>
        Ok (Ptr h (S i + 1)) (State R Z (<[h := pre ++ Some z' :: Some y :: post]> hp) L w')
    | (inl e, z', w') =>
        if is_nothrow_move_constructible then Aborted
        else Exn e (State R Z (<[h := pre ++ Some z' :: None :: post]> hp) L w')
    end.
Proof.
  intros Hh ->. unfold uninitialized_move_n, uninitialized_n. cbn [construct_n shift].
  unfold bind at 1 2, attempt. rewrite !Nat.add_0_r.
  rewrite (new_move_adjacent_eval h (length pre) z pre post) by done.
  destruct (move_construct z w) as [[[e|y] z'] w']; [|done].
  by destruct is_nothrow_move_constructible.
Qed.

Lemma assign_move_from_eval h i d tmp pre post R Z hp L w :
  hp !! h = Some (pre ++ Some d :: post) -> i = length pre ->
  assign_move_from (Ptr h i) (tmp, State R Z hp L w)
  = match move_assign d tmp w with
    | (None, d', tmp', w') =>
        Ok tt (tmp', State R Z (<[h := pre ++ Some d' :: post]> hp) L w')
    | (Some e, d', tmp', w') =>
        Exn e (tmp', State R Z (<[h := pre ++ Some d' :: post]> hp) L w')
    end.
Proof.
  intros Hh ->. unfold assign_move_from, bind, lift, get_local, read_obj, write_obj, throw.
  repeat (csimp; first [ rewrite lookup_middle by done | lookup_step ]).
  destruct (move_assign d tmp w) as [[[[e|] d'] tmp'] w'];
    repeat (csimp; first [ rewrite lookup_middle by done | rewrite insert_middle by done
                         | lookup_step | astep | progress snorm ]);
    done.
Qed.

Lemma VectorH_Emplace_middle_eval this h1 xa mid z c1 args R Z hp L w :
  vec_at (State R Z hp L w) this (Ptr h1 0) (xa ++ mid ++ [z]) c1 ->
  length (xa ++ mid ++ [z]) < c1 ->
  VectorH.Emplace this (Ptr h1 (length xa)) args (State R Z hp L w)
  = commit_in_place (State R Z hp L w) this (Ptr h1 0) c1 (Ptr h1 (length xa))
      (S (length (xa ++ mid ++ [z]))) (insert_in_place xa mid z args w).
Proof.
  intros Ht Hlt. pose proof (vec_at_size_bound _ _ _ _ _ Ht) as Hsz.
  destruct Ht as [T1 T2 T3 (_ & T4 & T6) T5]. csimp in *.
  rewrite block_of_room in T6 by done.
  set (n := length (xa ++ mid ++ [z])) in *.
  assert (n = length xa + length mid + 1) as Hn by (subst n; list_len).
  unfold VectorH.Emplace, commit_in_place, insert_in_place, with_elements. crun'.
  rewrite bool_decide_eq_false_2 by (intros [=]; lia).
  crun'. rewrite run_args_ctor_eval.
  destruct (args_outcome args w) as [[[e|tmp] w0]|]; crun'; [| |done].
  { rewrite block_of_room by done. state_eq. }
  unfold scoped_obj. crun'.
  rewrite !fmap_app, <- !app_assoc in T6. cbn [app fmap list_fmap] in T6.
  rewrite app_assoc in T6.
  replace (Ptr h1 n) with (Ptr h1 (S (n - 1))) by (f_equal; lia).
  erewrite (uninitialized_move_one h1 (n - 1) z ((Some <$> xa) ++ (Some <$> mid)));
    [| exact T6 | list_len].
  destruct (move_construct z w0) as [[[e|y] z'] w1].
  { destruct is_nothrow_move_constructible; [done|]. crun'.
    rewrite block_of_room by list_len. lnorm.
    replace (c1 - length (xa ++ mid ++ [z']) - 1) with (c1 - n - 1) by list_len.
    state_eq. }
  crun'. unfold move_backward. crun'.
  replace (n - 1 - length xa) with (length mid) by lia.
  replace (Ptr h1 (n - 1)) with (Ptr h1 (length xa + length mid)) by (f_equal; lia).
  replace (Ptr h1 n) with (Ptr h1 (S (length xa + length mid))) by (f_equal; lia).
  erewrite (move_backward_loop_eval h1 mid (length xa + length mid) z' (Some <$> xa)
              (Some y :: replicate (c1 - n - 1) None)); [| | list_len].
  2:{ rewrite lookup_insert_eq. lnorm. done. }
  pose proof (move_chain_length z' (rev mid) w1) as Hcl.
  destruct (move_chain z' (rev mid) w1) as [[seg [e|]] w2]; cbn [fst] in Hcl.
  { crun'. unfold block_of. lnorm.
    replace (c1 - length (xa ++ rev seg ++ [y])) with (c1 - n - 1).
    2:{ rewrite !length_app, length_rev, Hcl, length_rev. cbn [length]. lia. }
    state_eq. }
  crun'.
  destruct (rev seg) as [|d rest] eqn:Hrev.
  { apply (f_equal length) in Hrev. rewrite length_rev, Hcl in Hrev. done. }
  assert (length rest = length mid) as Hrest.
  { apply (f_equal length) in Hrev. rewrite length_rev, Hcl, length_rev in Hrev.
    cbn in Hrev. lia. }
  cbn [fmap list_fmap app].
  erewrite (assign_move_from_eval h1 (length xa) d tmp (Some <$> xa)); [| lk | list_len].
  destruct (move_assign d tmp w2) as [[[[e|] d'] tmp'] w3]; crun'.
  - unfold block_of. lnorm.
    replace (c1 - length (xa ++ d' :: rest ++ [y])) with (c1 - n - 1) by list_len.
    state_eq.
  - rewrite size_add_small by size_tac. unfold block_of. lnorm.
    replace (c1 - length (xa ++ d' :: rest ++ [y])) with (c1 - n - 1) by list_len.
    rewrite Nat.add_1_r. state_eq.
Qed.

Lemma Part000_Emplace_end_eval this h1 xs c1 args R Z hp L w :
  vec_at (State R Z hp L w) this (Ptr h1 0) xs c1 ->
  length xs < c1 ->
  Part000.Emplace this (Ptr h1 (length xs)) args (State R Z hp L w)
  = commit_in_place (State R Z hp L w) this (Ptr h1 0) c1 (Ptr h1 (length xs))
      (S (length xs)) (append_in_place xs args w).
Proof.
  intros Ht Hlt. pose proof (vec_at_size_bound _ _ _ _ _ Ht) as Hsz.
  destruct Ht as [T1 T2 T3 (_ & T4 & T6) T5]. csimp in *.
  rewrite block_of_room in T6 by done.
  unfold Part000.Emplace, commit_in_place, append_in_place, with_elements. crun'.
  erewrite (new_args_eval h1 (length xs) args (Some <$> xs)); [| lk | list_len].
  destruct (args_outcome args w) as [[[e|x] w']|]; crun'; [| |done].
  - rewrite block_of_room by done. state_eq.
  - rewrite size_add_small by size_tac. rewrite block_of_snoc, Nat.add_1_r. state_eq.
Qed.

Lemma Part000_Emplace_middle_eval this h1 xa mid z c1 args R Z hp L w :
  vec_at (State R Z hp L w) this (Ptr h1 0) (xa ++ mid ++ [z]) c1 ->
  length (xa ++ mid ++ [z]) < c1 ->
  Part000.Emplace this (Ptr h1 (length xa)) args (State R Z hp L w)
  = commit_in_place (State R Z hp L w) this (Ptr h1 0) c1 (Ptr h1 (length xa))
      (S (length (xa ++ mid ++ [z]))) (insert_in_place xa mid z args w).
Proof.
  intros Ht Hlt. pose proof (vec_at_size_bound _ _ _ _ _ Ht) as Hsz.
  destruct Ht as [T1 T2 T3 (_ & T4 & T6) T5]. csimp in *.
  rewrite block_of_room in T6 by done.
  set (n := length (xa ++ mid ++ [z])) in *.
  assert (n = length xa + length mid + 1) as Hn by (subst n; list_len).
  unfold Part000.Emplace, commit_in_place, insert_in_place, with_elements. crun'.
  rewrite bool_decide_eq_false_2 by (intros [=]; lia).
  crun'. rewrite run_args_ctor_eval.
  destruct (args_outcome args w) as [[[e|tmp] w0]|]; crun'; [| |done].
  { rewrite block_of_room by done. state_eq. }
  unfold scoped_obj. crun'.
  rewrite !fmap_app, <- !app_assoc in T6. cbn [app fmap list_fmap] in T6.
  rewrite app_assoc in T6.
  replace (Ptr h1 n) with (Ptr h1 (S (n - 1))) by (f_equal; lia).
  erewrite (uninitialized_move_one h1 (n - 1) z ((Some <$> xa) ++ (Some <$> mid)));
    [| exact T6 | list_len].
  destruct (move_construct z w0) as [[[e|y] z'] w1].
  { destruct is_nothrow_move_constructible; [done|]. crun'.
    rewrite block_of_room by list_len. lnorm.
    replace (c1 - length (xa ++ mid ++ [z']) - 1) with (c1 - n - 1) by list_len.
    state_eq. }
  crun'. unfold move_backward. crun'.
  replace (n - 1 - length xa) with (length mid) by lia.
  replace (Ptr h1 (n - 1)) with (Ptr h1 (length xa + length mid)) by (f_equal; lia).
  replace (Ptr h1 n) with (Ptr h1 (S (length xa + length mid))) by (f_equal; lia).
  erewrite (move_backward_loop_eval h1 mid (length xa + length mid) z' (Some <$> xa)
              (Some y :: replicate (c1 - n - 1) None)); [| | list_len].
  2:{ rewrite lookup_insert_eq. lnorm. done. }
  pose proof (move_chain_length z' (rev mid) w1) as Hcl.
  destruct (move_chain z' (rev mid) w1) as [[seg [e|]] w2]; cbn [fst] in Hcl.
  { crun'. unfold block_of. lnorm.
    replace (c1 - length (xa ++ rev seg ++ [y])) with (c1 - n - 1).
    2:{ rewrite !length_app, length_rev, Hcl, length_rev. cbn [length]. lia. }
    state_eq. }
  crun'.
  destruct (rev seg) as [|d rest] eqn:Hrev.
  { apply (f_equal length) in Hrev. rewrite length_rev, Hcl in Hrev. done. }
  assert (length rest = length mid) as Hrest.
  { apply (f_equal length) in Hrev. rewrite length_rev, Hcl, length_rev in Hrev.
    cbn in Hrev. lia. }
  cbn [fmap list_fmap app].
  erewrite (assign_move_from_eval h1 (length xa) d tmp (Some <$> xa)); [| lk | list_len].
  destruct (move_assign d tmp w2) as [[[[e|] d'] tmp'] w3]; crun'.
  - unfold block_of. lnorm.
    replace (c1 - length (xa ++ d' :: rest ++ [y])) with (c1 - n - 1) by list_len.
    state_eq.
  - rewrite size_add_small by size_tac. unfold block_of. lnorm.
    replace (c1 - length (xa ++ d' :: rest ++ [y])) with (c1 - n - 1) by list_len.
    rewrite Nat.add_1_r. state_eq.
Qed.

Lemma VectorH_Erase_eval this h1 xa d xb c1 R Z hp L w :
  vec_at (State R Z hp L w) this (Ptr h1 0) (xa ++ d :: xb) c1 ->
  VectorH.Erase this (Ptr h1 (length xa)) (State R Z hp L w)
  = commit_in_place (State R Z hp L w) this (Ptr h1 0) c1 (Ptr h1 (length xa))
      (length (xa ++ xb)) (erase_at xa d xb w).
Proof.
  intros Ht. pose proof (vec_at_size_bound _ _ _ _ _ Ht) as Hsz.
  pose proof Ht as [T1 T2 T3 (_ & T4 & T6) T5]. csimp in *.
  unfold block_of in T6.
  set (n := length (xa ++ d :: xb)) in *.
  assert (n = length xa + length xb + 1) as Hn by (subst n; list_len).
  unfold VectorH.Erase, commit_in_place, erase_at, with_elements. crun'.
  unfold std_move. crun'.
  replace (n - (length xa + 1)) with (length xb) by lia.
  replace (Ptr h1 (length xa + 1)) with (Ptr h1 (S (length xa))) by (f_equal; lia).
  rewrite fmap_app, <- app_assoc in T6.
  erewrite (move_loop_eval h1 xb (length xa) d (Some <$> xa)); [| exact T6 | list_len].
  pose proof (move_chain_length d xb w) as Hcl.
  destruct (move_chain d xb w) as [[seg [e|]] w']; cbn [fst] in Hcl.
  { csimp. unfold block_of. lnorm.
    replace (c1 - length (xa ++ seg)) with (c1 - n) by list_len. done. }
  csimp.
  destruct (rev seg) as [|last front] eqn:Hrev.
  { apply (f_equal length) in Hrev. rewrite length_rev, Hcl in Hrev. done. }
  assert (seg = rev front ++ [last]) as ->.
  { rewrite <- (rev_involutive seg), Hrev. done. }
  assert (length front = length xb) as Hfr by list_len.
  erewrite (VectorH_PopBack_eval _ _ _ _ _ this h1 (xa ++ rev front) last c1).
  2:{ rewrite <- app_assoc. split; csimp.
      - exact T1.
      - rewrite T2. f_equal. list_len.
      - list_len.
      - split; [done|]. split; [done|]. rewrite lookup_insert_eq.
        unfold block_of. lnorm.
        replace (c1 - length (xa ++ rev front ++ [last])) with (c1 - n) by list_len. done.
      - exact T5. }
  csimp. rewrite insert_insert_eq.
  replace (length (xa ++ rev front)) with (length (xa ++ xb)) by list_len. done.
Qed.

Lemma Part000_Erase_eval this h1 xa d xb c1 R Z hp L w :
  vec_at (State R Z hp L w) this (Ptr h1 0) (xa ++ d :: xb) c1 ->
  Part000.Erase this (Ptr h1 (length xa)) (State R Z hp L w)
  = commit_in_place (State R Z hp L w) this (Ptr h1 0) c1 (Ptr h1 (length xa))
      (length (xa ++ xb)) (erase_at xa d xb w).
Proof.
  intros Ht. pose proof (vec_at_size_bound _ _ _ _ _ Ht) as Hsz.
  pose proof Ht as [T1 T2 T3 (_ & T4 & T6) T5]. csimp in *.
  unfold block_of in T6.
  set (n := length (xa ++ d :: xb)) in *.
  assert (n = length xa + length xb + 1) as Hn by (subst n; list_len).
  unfold Part000.Erase, commit_in_place, erase_at, with_elements. crun'.
  unfold std_move. crun'.
  replace (n - (length xa + 1)) with (length xb) by lia.
  replace (Ptr h1 (length xa + 1)) with (Ptr h1 (S (length xa))) by (f_equal; lia).
  rewrite fmap_app, <- app_assoc in T6.
  erewrite (move_loop_eval h1 xb (length xa) d (Some <$> xa)); [| exact T6 | list_len].
  pose proof (move_chain_length d xb w) as Hcl.
  destruct (move_chain d xb w) as [[seg [e|]] w']; cbn [fst] in Hcl.
  { csimp. unfold block_of. lnorm.
    replace (c1 - length (xa ++ seg)) with (c1 - n) by list_len. done. }
  destruct (rev seg) as [|last front] eqn:Hrev.
  { apply (f_equal length) in Hrev. rewrite length_rev, Hcl in Hrev. done. }
  assert (seg = rev front ++ [last]) as ->.
  { rewrite <- (rev_involutive seg), Hrev. done. }
  assert (length front = length xb) as Hfr by list_len.
  rewrite fmap_app, <- !app_assoc. cbn [fmap list_fmap app].
  rewrite (app_assoc (Some <$> xa)).
  crun'. unfold block_of. lnorm.
  replace (c1 - length (xa ++ rev front)) with (S (c1 - n)) by list_len.
  replace (n - 1) with (length (xa ++ xb)) by list_len.
  cbn [replicate]. state_eq.
Qed.

End Chains.

(** ** The strong guarantee of the reallocating insertion *)

Section ReallocInsert.
Context {T A W : Type} {HE : Element T A W} {HB : Build}.
Local Abbreviation st := (state T W).
Implicit Types (hp : gmap positive (list (option T))) (R : gmap positive RawMemoryObj)
  (Z : gmap positive nat) (L : list T) (w : W) (xs ys : list T) (s : st).

Lemma end_eval s v buf xs cap :
  vec_at s v buf xs cap -> Vector.end_ v s = Ok (iter buf (length xs)) s.
Proof.
  destruct s as [R Z hp L w]. intros [H1 H2 H3 H4 H5]. csimp in *.
  unfold Vector.end_, iter. destruct buf as [|h i].
  - subst cap. assert (length xs = 0) as -> by lia. crun. done.
  - destruct H4 as (-> & H4 & H6). crun.
    assert (length xs <= length (block_of xs cap)) by (unfold block_of; list_len).
    crun. done.
Qed.

Lemma VectorH_Emplace_full_eval this b1 xa xb c1 args s :
  vec_at s this b1 (xa ++ xb) c1 ->
  length (xa ++ xb) = c1 ->
  representable 1 ->
  VectorH.Emplace this (iter b1 (length xa)) args s
  = commit_realloc s this b1 c1 (length xa) (length (xa ++ xb))
      (realloc_insert (xa ++ xb) (length xa) args (world s)).
Proof.
  intros Ht Hfull Hrep. destruct s as [R Z hp L w].
  transitivity (VectorH.EmplaceRealloc this (iter b1 (length xa)) args (State R Z hp L w)).
  - destruct Ht as [T1 T2 T3 T4 T5]. csimp in *.
    unfold VectorH.Emplace. crun. done.
  - by rewrite (EmplaceRealloc_eval this b1 xa xb c1 args).
Qed.

Lemma Part000_Emplace_full_eval this b1 xa xb c1 args s :
  vec_at s this b1 (xa ++ xb) c1 ->
  length (xa ++ xb) = c1 ->
  representable 1 ->
  Part000.Emplace this (iter b1 (length xa)) args s
  = commit_realloc s this b1 c1 (length xa) (length (xa ++ xb))
      (realloc_insert (xa ++ xb) (length xa) args (world s)).
Proof.
  intros Ht Hfull Hrep. destruct s as [R Z hp L w].
  by rewrite (Part000_Emplace_realloc_eval this b1 xa xb c1 args).
Qed.

Lemma with_elements_same s v buf xs cap :
  vec_at s v buf xs cap -> with_elements buf xs cap (heap s) = heap s.
Proof.
  intros [_ _ _ H4 _]. destruct buf as [|h i]; [done|].
  destruct H4 as (_ & _ & H6). unfold with_elements. by apply insert_id.
Qed.

Lemma safe_args_outcome a w :
  safe_relocation -> args_outcome a w <> None.
Proof.
  unfold safe_relocation. intros Hsafe. destruct a as [a|x|x]; cbn; [done|done|].
  destruct is_nothrow_move_constructible.
  - destruct (Hsafe x w) as (y & x' & w' & ->). done.
  - by destruct (move_construct x w) as [[[e|y] x'] w'].
Qed.

(** Under [safe_relocation] the reallocating insertion does not call
    [std::terminate], leaves the old elements as they were when it fails,
    and puts the new element at its index when it completes. *)
Lemma realloc_insert_safe xs indx args w :
  safe_relocation -> indx <= length xs ->
  match realloc_insert xs indx args w with
  | Done elems w' =>
      exists x ys1 ys2 w0 w1, elems = ys1 ++ x :: ys2 /\ length ys1 = indx
        /\ length ys2 = length xs - indx
        /\ allocation (grown (length xs)) w = (true, w0)
        /\ args_outcome args w0 = Some (inr x, w1)
  | Failed e elems w' => elems = xs
  | Terminated => False
  end.
Proof.
  intros Hsafe Hle. unfold realloc_insert.
  destruct (allocation (grown (length xs)) w) as [[|] w0] eqn:Hal; [|done].
  pose proof (safe_args_outcome args w0 Hsafe) as Harg.
  destruct (args_outcome args w0) as [[[e|x] w1]|] eqn:Hao; [done| |done].
  pose proof (relocate_list_length (take indx xs) w1) as Hl1.
  destruct (relocate_list (take indx xs) w1) as [[[ys1 srcs1] [e|]] w2] eqn:Hr1.
  { destruct (safe_relocation_fails _ _ _ _ _ _ Hsafe Hr1) as [Hcp ->].
    destruct is_nothrow_move_constructible eqn:Hnt.
    - unfold relocates_by_move in Hcp. rewrite Hnt in Hcp. done.
    - by rewrite take_drop. }
  pose proof (relocate_list_length (drop indx xs) w2) as Hl2.
  destruct (relocate_list (drop indx xs) w2) as [[[ys2 srcs2] [e|]] w3] eqn:Hr2.
  { destruct (safe_relocation_fails _ _ _ _ _ _ Hsafe Hr2) as [Hcp ->].
    destruct is_nothrow_move_constructible eqn:Hnt.
    - unfold relocates_by_move in Hcp. rewrite Hnt in Hcp. done.
    - assert (srcs1 = take indx xs) as ->; [|by rewrite take_drop].
      unfold relocate_list in Hr1. rewrite Hcp in Hr1.
      destruct (copy_list (take indx xs) w1) as [[? ?] ?]. by injection Hr1 as _ <- _ _. }
  destruct Hl1 as (_ & _ & Hl1). destruct Hl2 as (_ & _ & Hl2).
  specialize (Hl1 eq_refl). specialize (Hl2 eq_refl).
  rewrite length_take in Hl1. rewrite length_drop in Hl2.
  exists x, ys1, ys2, w0, w1. split; [done|]. split; [lia|]. split; [lia|]. done.
Qed.

(** C1 (amended): the reallocating insertion, under the proviso that relocation
    cannot damage the old elements (it copies them, or it moves them with
    a move constructor that does not throw).  For a full vector holding
    [xa ++ xb] and an insertion before index [length xa], both versions of
    [Emplace] run [realloc_insert]: the new element is constructed first,
    then the elements before the position are transferred, then those
    from the position on.  When a step throws, the exception propagates
    and the state is the one before the call up to the world: the vector
    object, the old block and its elements are untouched, the new block
    is gone, and the world is the one [realloc_insert] computes, in which
    exactly the objects constructed in the new block were destroyed.  In
    particular, when the constructor of the new element throws, no old
    element was transferred.  Only when all steps complete are the old
    elements destroyed and the new block installed.  ([representable 1]
    says that [sizeof(T)] fits [size_t].) *)
Theorem realloc_insert_rolls_back (s : st) (this : positive) (b1 : ptr)
    (xa xb : list T) (c1 : nat) (args : ctor_args T A) :
  safe_relocation ->
  representable 1 ->
  vec_at s this b1 (xa ++ xb) c1 ->
  length (xa ++ xb) = c1 ->
  Part000.Emplace this (iter b1 (length xa)) args s
  = VectorH.Emplace this (iter b1 (length xa)) args s
  /\ match VectorH.Emplace this (iter b1 (length xa)) args s with
     | Ok p s' =>
         exists elems,
           realloc_insert (xa ++ xb) (length xa) args (world s) = Done elems (world s')
           /\ vec_at s' this (Ptr (free_block s) 0) elems (grown c1)
           /\ p = Ptr (free_block s) (length xa)
           /\ heap s' = released b1 (<[free_block s := block_of elems (grown c1)]> (heap s))
           /\ leaked s' = leaked s
     | Exn e s' =>
         exists w',
           realloc_insert (xa ++ xb) (length xa) args (world s) = Failed e (xa ++ xb) w'
           /\ s' = set_world w' s
           /\ (forall w0 w1, allocation (grown c1) (world s) = (true, w0) ->
                 args_outcome args w0 = Some (inl e, w1) -> w' = w1)
     | Undefined | Aborted => False
     end.
Proof.
  intros Hsafe Hrep Ht Hfull.
  rewrite (Part000_Emplace_full_eval this b1 xa xb c1) by done.
  rewrite (VectorH_Emplace_full_eval this b1 xa xb c1) by done.
  split; [done|].
  pose proof (realloc_insert_safe (xa ++ xb) (length xa) args (world s) Hsafe) as Hri.
  pose proof (with_elements_same _ _ _ _ _ Ht) as Hsame.
  pose proof (free_block_heap s) as Hfree.
  destruct s as [R Z hp L w]. unfold commit_realloc. csimp in *.
  generalize dependent (free_block (State R Z hp L w)). intros fb Hfree.
  assert (length xa <= length (xa ++ xb)) as Hle by list_len. specialize (Hri Hle).
  destruct (realloc_insert (xa ++ xb) (length xa) args w) as [elems w'|e elems w'|] eqn:Hins;
    csimp; [| |done].
  - destruct Hri as (x & ys1 & ys2 & w0 & w1 & -> & Hl1 & Hl2 & Hal & Hao).
    exists (ys1 ++ x :: ys2). split; [done|].
    split; [|split; [done|split; [by rewrite Hfull|done]]].
    pose proof Ht as [T1 T2 T3 T4 T5]. csimp in *.
    pose proof (grown_gt (length (xa ++ xb))) as Hgt. rewrite Hfull in *.
    split; csimp.
    + by rewrite lookup_insert_eq.
    + rewrite lookup_insert_eq. f_equal. list_len.
    + list_len.
    + split; [done|]. split; [lia|].
      destruct b1 as [|h1 i1]; unfold released; [by rewrite lookup_insert_eq|].
      destruct T4 as (_ & _ & T6). assert (h1 <> fb) by congruence.
      rewrite lookup_delete_ne by done. by rewrite lookup_insert_eq.
    + by eapply allocation_bound.
  - subst elems. exists w'. split; [done|]. rewrite Hsame. split; [done|].
    intros w0 w1 Hal Hao. unfold realloc_insert in Hins.
    rewrite Hfull, Hal, Hao in Hins. congruence.
Qed.

End ReallocInsert.

(** ** The iterators that [Emplace] and [Erase] return *)

Section Positions.
Context {T A W : Type} {HE : Element T A W} {HB : Build}.
Local Abbreviation st := (state T W).
Implicit Types (hp : gmap positive (list (option T))) (R : gmap positive RawMemoryObj)
  (Z : gmap positive nat) (L : list T) (w : W) (xs ys : list T) (s : st).

Lemma realloc_insert_done xs indx args w elems w' :
  realloc_insert xs indx args w = Done elems w' -> indx <= length xs ->
  exists x ys1 ys2 w0 w1, elems = ys1 ++ x :: ys2 /\ length ys1 = indx
    /\ length ys2 = length xs - indx
    /\ allocation (grown (length xs)) w = (true, w0)
    /\ args_outcome args w0 = Some (inr x, w1).
Proof.
  unfold realloc_insert. intros Hri Hle.
  destruct (allocation (grown (length xs)) w) as [[|] w0] eqn:Hal; [|done].
  destruct (args_outcome args w0) as [[[e|x] w1]|] eqn:Hao; [done| |done].
  pose proof (relocate_list_length (take indx xs) w1) as Hl1.
  destruct (relocate_list (take indx xs) w1) as [[[ys1 srcs1] [e|]] w2] eqn:Hr1.
  { by destruct is_nothrow_move_constructible. }
  pose proof (relocate_list_length (drop indx xs) w2) as Hl2.
  destruct (relocate_list (drop indx xs) w2) as [[[ys2 srcs2] [e|]] w3] eqn:Hr2.
  { by destruct is_nothrow_move_constructible. }
  destruct Hl1 as (_ & _ & Hl1). destruct Hl2 as (_ & _ & Hl2).
  specialize (Hl1 eq_refl). specialize (Hl2 eq_refl).
  rewrite length_take in Hl1. rewrite length_drop in Hl2.
  injection Hri as <- _.
  exists x, ys1, ys2, w0, w1. split; [done|]. split; [lia|]. split; [lia|]. done.
Qed.

Lemma vec_at_realloc s this b1 xs c1 elems w' w0 :
  vec_at s this b1 xs c1 ->
  length elems = S (length xs) ->
  allocation (grown (length xs)) (world s) = (true, w0) ->
  vec_at (State (<[this := {| buffer_ := Ptr (free_block s) 0;
                              capacity_ := grown (length xs) |}]> (raws s))
                (<[this := S (length xs)]> (sizes s))
                (released b1 (<[free_block s := block_of elems (grown (length xs))]> (heap s)))
                (leaked s) w')
    this (Ptr (free_block s) 0) elems (grown (length xs)).
Proof.
  intros Ht Hlen Hal. pose proof (free_block_heap s) as Hfree.
  pose proof (grown_gt (length xs)) as Hgt.
  destruct Ht as [T1 T2 T3 T4 T5]. split; csimp.
  - by rewrite lookup_insert_eq.
  - rewrite lookup_insert_eq. by rewrite Hlen.
  - lia.
  - split; [done|]. split; [lia|].
    destruct b1 as [|h1 i1]; unfold released; [by rewrite lookup_insert_eq|].
    destruct T4 as (_ & _ & T6). assert (h1 <> free_block s) by congruence.
    rewrite lookup_delete_ne by done. by rewrite lookup_insert_eq.
  - by eapply allocation_bound.
Qed.

Lemma vec_at_in_place R Z hp L w this h1 xs c1 elems w' :
  vec_at (State R Z hp L w) this (Ptr h1 0) xs c1 ->
  length elems <= c1 ->
  vec_at (State R (<[this := length elems]> Z) (with_elements (Ptr h1 0) elems c1 hp) L w')
    this (Ptr h1 0) elems c1.
Proof.
  intros [T1 T2 T3 (_ & T4 & T6) T5] Hle. csimp in *. unfold with_elements.
  split; csimp; [done| |done| |done].
  - by rewrite lookup_insert_eq.
  - split; [done|]. split; [done|]. by rewrite lookup_insert_eq.
Qed.

Lemma insert_in_place_done xa mid z args w elems w' :
  insert_in_place xa mid z args w = Done elems w' ->
  length elems = S (length (xa ++ mid ++ [z]))
  /\ exists x, elems !! length xa = Some x /\ inserted args x.
Proof.
  unfold insert_in_place. intros Hi.
  destruct (args_outcome args w) as [[[e|tmp] w0]|] eqn:Hao; [done| |done].
  destruct (move_construct z w0) as [[[e|y] z'] w1].
  { by destruct is_nothrow_move_constructible. }
  pose proof (move_chain_length z' (rev mid) w1) as Hcl.
  destruct (move_chain z' (rev mid) w1) as [[seg [e|]] w2]; [done|]. cbn [fst] in Hcl.
  destruct (rev seg) as [|d rest] eqn:Hrev; [done|].
  apply (f_equal length) in Hrev. rewrite length_rev, Hcl, length_rev in Hrev.
  destruct (move_assign d tmp w2) as [[[[e|] d'] tmp'] w3] eqn:Hma; [done|].
  injection Hi as <- _. split; [list_len|].
  exists d'. split; [by apply lookup_middle|].
  exists w, w0, tmp. split; [done|]. right. by eexists _, _, _, _.
Qed.

Lemma Emplace_commit s this b1 xa xb c1 args :
  vec_at s this b1 (xa ++ xb) c1 ->
  representable 1 ->
  Part000.Emplace this (iter b1 (length xa)) args s
  = VectorH.Emplace this (iter b1 (length xa)) args s
  /\ match VectorH.Emplace this (iter b1 (length xa)) args s with
     | Ok p s' =>
         exists b' elems x,
           vec_at s' this b' elems (if length (xa ++ xb) =? c1 then grown c1 else c1)
           /\ p = iter b' (length xa)
           /\ length elems = S (length (xa ++ xb))
           /\ elems !! length xa = Some x /\ inserted args x
     | Exn _ _ | Aborted => True
     | Undefined => False
     end.
Proof.
  intros Ht Hrep. destruct (Nat.eqb_spec (length (xa ++ xb)) c1) as [Hfull|Hroom].
  - rewrite (Part000_Emplace_full_eval this b1 xa xb c1) by done.
    rewrite (VectorH_Emplace_full_eval this b1 xa xb c1) by done.
    split; [done|]. unfold commit_realloc.
    destruct (realloc_insert (xa ++ xb) (length xa) args (world s))
      as [elems w'|e elems w'|] eqn:Hins; [|done|done].
    apply realloc_insert_done in Hins as (x & ys1 & ys2 & w0 & w1 & -> & Hl1 & Hl2 & Hal & Hao);
      [|list_len].
    exists (Ptr (free_block s) 0), (ys1 ++ x :: ys2), x. rewrite <- Hfull at 1.
    split; [|split; [done|split; [list_len|split; [by apply lookup_middle|]]]].
    + eapply vec_at_realloc; [done|list_len|done].
    + exists w0, w1, x. split; [done|]. by left.
  - pose proof Ht as [_ _ Hle Hbuf _].
    destruct b1 as [|h1 i1]; [lia|]. destruct Hbuf as (-> & _ & _).
    destruct s as [R Z hp L w]. cbn [iter shift Nat.add].
    destruct xb as [|z mid _] using rev_ind.
    + rewrite app_nil_r in *.
      rewrite (Part000_Emplace_end_eval this h1 xa c1) by (done || lia).
      rewrite (VectorH_Emplace_end_eval this h1 xa c1) by (done || lia).
      split; [done|]. unfold commit_in_place, append_in_place.
      destruct (args_outcome args w) as [[[e|x] w']|] eqn:Hao; [done| |done]. csimp.
      exists (Ptr h1 0), (xa ++ [x]), x.
      split; [|split; [done|split; [list_len|split; [by apply lookup_middle|]]]].
      * replace (S (length xa)) with (length (xa ++ [x])) by list_len.
        eapply vec_at_in_place; [done|list_len].
      * exists w, w', x. split; [done|]. by left.
    + rewrite (Part000_Emplace_middle_eval this h1 xa mid z c1) by (done || lia).
      rewrite (VectorH_Emplace_middle_eval this h1 xa mid z c1) by (done || lia).
      split; [done|]. unfold commit_in_place.
      destruct (insert_in_place xa mid z args w) as [elems w'|e elems w'|] eqn:Hins;
        [|done|done].
      apply insert_in_place_done in Hins as (Hlen & x & Hx & Hnew). csimp.
      exists (Ptr h1 0), elems, x.
      split; [|done]. rewrite <- Hlen. eapply vec_at_in_place; [done|lia].
Qed.

Lemma erase_at_done xa d xb w :
  match erase_at xa d xb w with
  | Done elems w' =>
      length elems = length (xa ++ xb)
      /\ forall next xb', xb = next :: xb' ->
           exists x, elems !! length xa = Some x /\ received d next x
  | Failed _ _ _ => True
  | Terminated => False
  end.
Proof.
  unfold erase_at. pose proof (move_chain_length d xb w) as Hcl.
  destruct (move_chain d xb w) as [[seg [e|]] w'] eqn:Hmc; [done|]. cbn [fst] in Hcl.
  destruct (rev seg) as [|last front] eqn:Hrev.
  { apply (f_equal length) in Hrev. rewrite length_rev, Hcl in Hrev. done. }
  assert (seg = rev front ++ [last]) as Hseg.
  { rewrite <- (rev_involutive seg), Hrev. done. }
  split.
  { apply (f_equal length) in Hseg. rewrite Hcl in Hseg. list_len. }
  intros next xb' ->. cbn in Hmc.
  destruct (move_assign d next w) as [[[[e|] d'] next'] w1] eqn:Hma; [done|].
  pose proof (move_chain_length next' xb' w1) as Hcl'.
  destruct (move_chain next' xb' w1) as [[seg' r] w2]. cbn [fst] in Hcl'.
  injection Hmc as <- -> <-.
  destruct (rev front) as [|f fr].
  { cbn in Hseg. injection Hseg as _ ->. done. }
  cbn in Hseg. injection Hseg as <- _.
  exists d'. split; [by apply lookup_middle|]. by eexists _, _, _.
Qed.

Lemma Erase_position s this b1 xa d xb c1 :
  vec_at s this b1 (xa ++ d :: xb) c1 ->
  Part000.Erase this (iter b1 (length xa)) s = VectorH.Erase this (iter b1 (length xa)) s
  /\ match VectorH.Erase this (iter b1 (length xa)) s with
     | Ok p s' =>
         exists elems,
           vec_at s' this b1 elems c1 /\ p = iter b1 (length xa)
           /\ length elems = length (xa ++ xb)
           /\ forall next xb', xb = next :: xb' ->
                exists x, elems !! length xa = Some x /\ received d next x
     | Exn _ _ => True
     | Undefined | Aborted => False
     end.
Proof.
  intros Ht. pose proof Ht as [_ _ Hle Hbuf _].
  destruct b1 as [|h1 i1]; [subst c1; rewrite length_app in Hle; cbn in Hle; lia|].
  destruct Hbuf as (-> & _ & _).
  destruct s as [R Z hp L w]. cbn [iter shift Nat.add].
  rewrite (Part000_Erase_eval this h1 xa d xb c1) by done.
  rewrite (VectorH_Erase_eval this h1 xa d xb c1) by done.
  split; [done|]. unfold commit_in_place.
  pose proof (erase_at_done xa d xb w) as He.
  destruct (erase_at xa d xb w) as [elems w'|e elems w'|]; [|done|done].
  destruct He as [Hlen Hnext]. csimp.
  exists elems. split; [|done]. rewrite <- Hlen.
  eapply vec_at_in_place; [done|]. rewrite Hlen. list_len.
Qed.

(** C9: the iterators that insertion and removal return.  For a vector
    holding [xa ++ xb] and the position [begin() + length xa], a completed
    [Emplace] (hence [Insert]) returns [begin() + length xa] of the
    updated vector, whose buffer may be a new one; the vector has one
    element more and the slot the iterator points to holds the inserted
    element.  When the vector holds [xa ++ d :: xb'], a completed [Erase]
    of [d] returns the position of [d] in the unchanged buffer; the
    vector has one element less, and when an element followed [d], that
    slot holds what [d] became when its follower was move-assigned to it.
    Both versions of the header compute the same result, and neither has
    undefined behaviour at a valid position.  ([representable 1] says
    that [sizeof(T)] fits [size_t].) *)
Theorem insert_erase_return_position (s : st) (this : positive) (b1 : ptr)
    (xa xb : list T) (c1 : nat) (args : ctor_args T A) :
  vec_at s this b1 (xa ++ xb) c1 ->
  representable 1 ->
  (Part000.Emplace this (iter b1 (length xa)) args s
   = VectorH.Emplace this (iter b1 (length xa)) args s
   /\ match VectorH.Emplace this (iter b1 (length xa)) args s with
      | Ok p s' =>
          exists b' elems c' x,
            vec_at s' this b' elems c' /\ p = iter b' (length xa)
            /\ length elems = S (length (xa ++ xb))
            /\ elems !! length xa = Some x /\ inserted args x
      | Exn _ _ | Aborted => True
      | Undefined => False
      end)
  /\ (forall d xb', xb = d :: xb' ->
       Part000.Erase this (iter b1 (length xa)) s = VectorH.Erase this (iter b1 (length xa)) s
       /\ match VectorH.Erase this (iter b1 (length xa)) s with
          | Ok p s' =>
              exists elems,
                vec_at s' this b1 elems c1 /\ p = iter b1 (length xa)
                /\ length elems = length (xa ++ xb')
                /\ forall next xb'', xb' = next :: xb'' ->
                     exists x, elems !! length xa = Some x /\ received d next x
          | Exn _ _ => True
          | Undefined | Aborted => False
          end).
Proof.
  intros Ht Hrep. split.
  - destruct (Emplace_commit s this b1 xa xb c1 args Ht Hrep) as [Heq Hres].
    split; [done|].
    destruct (VectorH.Emplace this (iter b1 (length xa)) args s) as [p s'|e s'| |]; try done.
    destruct Hres as (b' & elems & x & Hres). exists b', elems. eexists. exists x. exact Hres.
  - intros d xb' ->. by apply (Erase_position s this b1 xa d xb' c1).
Qed.

End Positions.

(** ** The growth of the capacity *)

Section Growth.
Context {T A W : Type} {HE : Element T A W} {HB : Build}.
Local Abbreviation st := (state T W).
Implicit Types (hp : gmap positive (list (option T))) (R : gmap positive RawMemoryObj)
  (Z : gmap positive nat) (L : list T) (w : W) (xs ys : list T) (s : st).

Lemma Capacity_eval s v buf xs cap :
  vec_at s v buf xs cap -> Vector.Capacity v s = Ok cap s.
Proof.
  destruct s as [R Z hp L w]. intros [H1 _ _ _ _]. csimp in *.
  unfold Vector.Capacity. crun. done.
Qed.

Lemma Size_eval s v buf xs cap :
  vec_at s v buf xs cap -> Vector.Size v s = Ok (length xs) s.
Proof.
  destruct s as [R Z hp L w]. intros [_ H2 _ _ _]. csimp in *.
  unfold Vector.Size. crun. done.
Qed.

Lemma grown_max n : grown n = Nat.max 1 (2 * n).
Proof. unfold grown. destruct (Nat.eqb_spec n 0); lia. Qed.

(** One [EmplaceBack]: same result in both versions; when it completes
    the vector has one element more, and the capacity has grown exactly
    when the vector was full. *)
Lemma EmplaceBack_step s v buf elems cap args :
  vec_at s v buf elems cap ->
  representable 1 ->
  Part000.EmplaceBack v args s = VectorH.EmplaceBack v args s
  /\ match VectorH.EmplaceBack v args s with
     | Ok _ s' =>
         exists buf' elems',
           vec_at s' v buf' elems' (if length elems =? cap then grown cap else cap)
           /\ length elems' = S (length elems)
     | Exn _ _ | Aborted => True
     | Undefined => False
     end.
Proof.
  intros Ht Hrep. unfold Part000.EmplaceBack, VectorH.EmplaceBack, bind.
  rewrite (end_eval s v buf elems cap Ht).
  rewrite <- (app_nil_r elems) in Ht.
  destruct (Emplace_commit s v buf elems [] cap args Ht Hrep) as [Heq Hres].
  rewrite app_nil_r in *. split; [done|].
  destruct (VectorH.Emplace v (iter buf (length elems)) args s) as [p s'|e s'| |]; try done.
  destruct Hres as (b' & elems' & x & Hv & _ & Hlen & _). by exists b', elems'.
Qed.

Lemma PushBack_step push s v buf elems cap x :
  is_PushBack push ->
  vec_at s v buf elems cap ->
  representable 1 ->
  match push v x s with
  | Ok _ s' =>
      exists buf' elems',
        vec_at s' v buf' elems' (if length elems =? cap then grown cap else cap)
        /\ length elems' = S (length elems)
  | Exn _ _ | Aborted => True
  | Undefined => False
  end.
Proof.
  intros Hpush Ht Hrep.
  assert (exists args, push v x s = (VectorH.EmplaceBack v args ;; ret tt) s) as [args ->].
  { destruct Hpush as [-> | [-> | [-> | ->]]].
    - by exists (FromLvalue x).
    - by exists (FromRvalue x).
    - exists (FromLvalue x). unfold Part000.PushBack, bind.
      by destruct (EmplaceBack_step s v buf elems cap (FromLvalue x) Ht Hrep) as [-> _].
    - exists (FromRvalue x). unfold Part000.PushBack_rvalue, bind.
      by destruct (EmplaceBack_step s v buf elems cap (FromRvalue x) Ht Hrep) as [-> _]. }
  destruct (EmplaceBack_step s v buf elems cap args Ht Hrep) as [_ Hres].
  unfold bind. by destruct (VectorH.EmplaceBack v args s) as [p s'|e s'| |].
Qed.

Lemma push_all_capacity push v xs : forall s buf elems,
  is_PushBack push ->
  representable 1 ->
  vec_at s v buf elems (spec_capacity (length elems)) ->
  match push_all push v xs s with
  | Ok _ s' =>
      exists buf' elems',
        vec_at s' v buf' elems' (spec_capacity (length elems + length xs))
        /\ length elems' = length elems + length xs
  | Exn _ _ | Aborted => True
  | Undefined => False
  end.
Proof.
  induction xs as [|x xs IH]; intros s buf elems Hpush Hrep Ht; cbn [push_all length].
  - rewrite Nat.add_0_r. by exists buf, elems.
  - pose proof (PushBack_step push s v buf elems _ x Hpush Ht Hrep) as Hstep.
    unfold bind. destruct (push v x s) as [[] s1|e s1| |]; try done.
    destruct Hstep as (buf1 & elems1 & Ht1 & Hlen1).
    rewrite grown_max in Ht1.
    change (if length elems =? spec_capacity (length elems)
            then Nat.max 1 (2 * spec_capacity (length elems))
            else spec_capacity (length elems))
      with (spec_capacity (S (length elems))) in Ht1.
    rewrite <- Hlen1 in Ht1. specialize (IH s1 buf1 elems1 Hpush Hrep Ht1).
    destruct (push_all push v xs s1) as [[] s2|e s2| |]; try done.
    destruct IH as (buf2 & elems2 & Ht2 & Hlen2).
    exists buf2, elems2. rewrite Hlen1 in *.
    replace (length elems + S (length xs)) with (S (length elems) + length xs) by lia. done.
Qed.

(** C6: geometric growth.  Starting from an empty vector of capacity 0,
    when [length xs] consecutive calls of [PushBack] (either overload, in
    either version of the header) all complete, [Capacity()] is
    [spec_capacity (length xs)], the value the specification's recurrence
    [capacity' = max(1, 2 * capacity)] yields when it is applied at the
    steps where size equals capacity, and [Size()] is [length xs].  No
    call has undefined behaviour.  ([representable 1] says that
    [sizeof(T)] fits [size_t].) *)
Theorem push_back_grows_geometrically (s : st) (v : positive) (xs : list T)
    (push : positive -> T -> M st unit) :
  is_PushBack push ->
  representable 1 ->
  vec_at s v nullptr [] 0 ->
  match push_all push v xs s with
  | Ok _ s' =>
      Vector.Capacity v s' = Ok (spec_capacity (length xs)) s'
      /\ Vector.Size v s' = Ok (length xs) s'
  | Exn _ _ | Aborted => True
  | Undefined => False
  end.
Proof.
  intros Hpush Hrep Ht.
  pose proof (push_all_capacity push v xs s nullptr [] Hpush Hrep Ht) as Hall.
  destruct (push_all push v xs s) as [[] s'|e s'| |]; try done.
  destruct Hall as (buf' & elems' & Ht' & Hlen). cbn in Hlen, Ht'.
  split.
  - by eapply Capacity_eval.
  - rewrite <- Hlen. by eapply Size_eval.
Qed.

End Growth.

(** ** Transactional operations *)

Lemma replicate_add_split {X} (x : X) k n :
  k <= n -> replicate n x = replicate k x ++ replicate (n - k) x.
Proof. intros Hle. rewrite <- replicate_add. f_equal. lia. Qed.

Section Transactional.
Context {T A W : Type} {HE : Element T A W} {HB : Build}.
Local Abbreviation st := (state T W).
Implicit Types (hp : gmap positive (list (option T))) (R : gmap positive RawMemoryObj)
  (Z : gmap positive nat) (L : list T) (w : W) (xs ys : list T) (s : st).

Lemma ctor_size_eval this n R Z hp L w :
  0 < n -> representable n ->
  R !! this = None -> Z !! this = None ->
  Vector.ctor_size this n (State R Z hp L w)
  = match allocation n w with
    | (false, w') => Exn bad_alloc (State R Z hp L w')
    | (true, w') =>
        match value_list n w' with
        | (ys, None, w'') =>
            Ok tt (State (<[this := {| buffer_ := Ptr (free_block (State R Z hp L w)) 0;
                                       capacity_ := n |}]> R)
                     (<[this := n]> Z)
                     (<[free_block (State R Z hp L w) := Some <$> ys]> hp) L w'')
        | (ys, Some e, w'') => Exn e (State R Z hp L (destroy_all ys w''))
        end
    end.
Proof.
  intros Hn Hrep Hr Hz.
  pose proof (free_block_heap (State R Z hp L w)) as Hfree. csimp in Hfree.
  unfold Vector.ctor_size. crun.
  rewrite RawMemory_ctor_eval by done.
  generalize dependent (free_block (State R Z hp L w)). intros h Hfree.
  destruct (allocation n w) as [[|] w']; [|done].
  crun.
  erewrite (uninitialized_value_construct_n_eval h 0 n [] []); try done.
  - pose proof (value_list_length n w') as Hlen.
    destruct (value_list n w') as [[ys [e|]] w'']; crun.
    + unfold operator_delete. crun. rewrite live_objects_raw, app_nil_r.
      do 2 f_equal; map_norm.
    + rewrite app_nil_r. do 2 f_equal. map_norm.
  - rewrite lookup_insert_eq. by rewrite app_nil_r.
Qed.

Lemma ctor_size_zero this R Z hp L w :
  Vector.ctor_size this 0 (State R Z hp L w)
  = Ok tt (State (<[this := {| buffer_ := nullptr; capacity_ := 0 |}]> R)
             (<[this := 0]> Z) hp L w).
Proof.
  unfold Vector.ctor_size. crun. rewrite RawMemory_ctor_zero. crun.
  unfold uninitialized_value_construct_n, uninitialized_n. crun. done.
Qed.

Lemma vec_at_null R Z hp L w v :
  vec_at (State (<[v := {| buffer_ := nullptr; capacity_ := 0 |}]> R) (<[v := 0]> Z) hp L w)
    v nullptr [] 0.
Proof. split; csimp; try done; try by rewrite lookup_insert_eq. Qed.

Lemma vec_at_new R Z hp L w v h ys n :
  length ys = n -> 0 < n ->
  (N.of_nat n * Npos sizeof <= PTRDIFF_MAX)%N ->
  vec_at (State (<[v := {| buffer_ := Ptr h 0; capacity_ := n |}]> R) (<[v := n]> Z)
            (<[h := Some <$> ys]> hp) L w) v (Ptr h 0) ys n.
Proof.
  intros Hlen Hn Hal. split; csimp.
  - by rewrite lookup_insert_eq.
  - rewrite lookup_insert_eq. by rewrite Hlen.
  - lia.
  - split; [done|]. split; [done|]. rewrite lookup_insert_eq.
    by rewrite block_of_exact.
  - done.
Qed.

Lemma ctor_size_transactional s l n :
  raws s !! l = None -> sizes s !! l = None -> representable n ->
  transactional s l (Vector.ctor_size l n s).
Proof.
  intros Hr Hz Hrep. destruct s as [R Z hp L w]. csimp in *.
  destruct n as [|n].
  - rewrite ctor_size_zero. cbn. eexists _, _, _. apply vec_at_null.
  - rewrite ctor_size_eval by (done || lia).
    destruct (allocation (S n) w) as [[|] w'] eqn:Hal; [|by eexists].
    pose proof (value_list_length (S n) w') as Hlen.
    destruct (value_list (S n) w') as [[ys [e|]] w'']; [by eexists|].
    cbn. eexists _, _, _. eapply vec_at_new; [by apply Hlen|lia|].
    by eapply allocation_bound.
Qed.

Lemma vec_at_installed R' Z hp L w v b1 h elems n :
  R' !! v = Some {| buffer_ := Ptr h 0; capacity_ := n |} ->
  Z !! v = Some (length elems) ->
  length elems <= n -> 0 < n ->
  (N.of_nat n * Npos sizeof <= PTRDIFF_MAX)%N ->
  (forall h1 i, b1 = Ptr h1 i -> h1 <> h) ->
  vec_at (State R' Z (released b1 (<[h := block_of elems n]> hp)) L w) v (Ptr h 0) elems n.
Proof.
  intros Hr Hz Hle Hn Hb Hne. split; csimp; try done.
  split; [done|]. split; [done|].
  destruct b1 as [|h1 i1]; unfold released; [by rewrite lookup_insert_eq|].
  rewrite lookup_delete_ne by (by eapply Hne). by rewrite lookup_insert_eq.
Qed.

Lemma copy_ctor_transactional s this buf xs cap l :
  vec_at s this buf xs cap ->
  raws s !! l = None -> sizes s !! l = None ->
  transactional s l (Vector.copy_ctor l this s).
Proof.
  intros Ht Hr Hz. destruct s as [R Z hp L w]. csimp in *.
  destruct xs as [|x xs].
  - rewrite (copy_ctor_empty l this buf cap) by done. cbn.
    eexists _, _, _. apply vec_at_null.
  - pose proof Ht as [_ _ Hle Hbuf _].
    destruct buf as [|h i]; [subst cap; cbn in Hle; lia|]. destruct Hbuf as (-> & _ & _).
    rewrite (copy_ctor_eval l this h (x :: xs) cap) by (done || cbn; lia).
    destruct (allocation (length (x :: xs)) w) as [[|] w'] eqn:Hal; [|by eexists].
    pose proof (copy_list_length (x :: xs) w') as Hlen.
    destruct (copy_list (x :: xs) w') as [[ys [e|]] w'']; [by eexists|].
    cbn -[length]. eexists _, _, _. eapply vec_at_new; [by apply Hlen|cbn; lia|].
    by eapply allocation_bound.
Qed.

Lemma copy_assign_realloc_transactional s this rhs b1 b2 xs ys c1 c2 :
  vec_at s this b1 xs c1 ->
  vec_at s rhs b2 ys c2 ->
  this <> rhs -> separate b1 b2 -> c1 < length ys ->
  transactional s this (Vector.copy_assign this rhs s).
Proof.
  intros Ht Hr Hne Hsep Hlt. destruct s as [R Z hp L w].
  destruct b2 as [|h2 i2].
  { destruct Hr as [_ _ R3 R4 _]. csimp in *. lia. }
  assert (i2 = 0) as -> by (by destruct Hr as [_ _ _ (? & _) _]).
  rewrite (copy_assign_realloc_eval this rhs b1 xs c1 h2 ys c2) by done.
  pose proof (free_block_heap (State R Z hp L w)) as Hfree. csimp in Hfree.
  generalize dependent (free_block (State R Z hp L w)). intros h Hfree.
  destruct (allocation (length ys) w) as [[|] w'] eqn:Hal; [|by eexists].
  pose proof (copy_list_length ys w') as Hlen.
  destruct (copy_list ys w') as [[ys' [e|]] w''] eqn:Hcl; [by eexists|].
  destruct Hlen as [_ Hlen]. specialize (Hlen eq_refl).
  cbn. exists (Ptr h 0), ys', (length ys).
  rewrite <- (block_of_full ys'), Hlen.
  apply vec_at_installed.
  - by rewrite lookup_insert_eq.
  - rewrite lookup_insert_eq. by rewrite Hlen.
  - lia.
  - lia.
  - by eapply allocation_bound.
  - intros h1 i -> ->. destruct Ht as [_ _ _ (_ & _ & T6) _]. csimp in T6. congruence.
Qed.

Lemma move_assign_transactional s this rhs b1 b2 xs ys c1 c2 :
  vec_at s this b1 xs c1 ->
  vec_at s rhs b2 ys c2 ->
  this <> rhs ->
  transactional s this (Vector.move_assign this rhs s).
Proof.
  intros Ht Hr Hne. destruct s as [R Z hp L w].
  pose proof Ht as [Ht1 Ht2 Ht3 Ht4 Ht5]. pose proof Hr as [Hr1 Hr2 Hr3 Hr4 Hr5]. csimp in *.
  unfold Vector.move_assign, noexcept, bind. erewrite Swap_eval by done. cbn.
  exists b2, ys, c2. split; csimp; repeat mstep; done.
Qed.

Lemma Reserve_transactional s this buf xs cap n :
  vec_at s this buf xs cap ->
  safe_relocation ->
  representable n ->
  transactional s this (Vector.Reserve this n s).
Proof.
  intros Ht Hsafe Hrep. pose proof (with_elements_same _ _ _ _ _ Ht) as Hsame.
  destruct s as [R Z hp L w]. csimp in *.
  destruct (decide (n <= cap)) as [Hle|Hgt].
  { pose proof Ht as [T1 _ _ _ _]. csimp in *. unfold Vector.Reserve. crun. cbn.
    by exists buf, xs, cap. }
  rewrite (Reserve_eval this buf xs cap n) by (done || lia).
  pose proof (free_block_heap (State R Z hp L w)) as Hfree. csimp in Hfree.
  generalize dependent (free_block (State R Z hp L w)). intros h Hfree.
  destruct (allocation n w) as [[|] w'] eqn:Hal; [|by eexists].
  pose proof (relocate_list_length xs w') as Hlen.
  destruct (relocate_list xs w') as [[[ys srcs] [e|]] w''] eqn:Hrl.
  - destruct (safe_relocation_fails _ _ _ _ _ _ Hsafe Hrl) as [-> ->]. cbn.
    rewrite Hsame. by eexists.
  - destruct Hlen as (_ & _ & Hlen). specialize (Hlen eq_refl).
    pose proof Ht as [T1 T2 T3 T4 T5]. csimp in *.
    cbn. exists (Ptr h 0), ys, n. apply vec_at_installed.
    + by rewrite lookup_insert_eq.
    + by rewrite Hlen.
    + lia.
    + lia.
    + by eapply allocation_bound.
    + intros h1 i -> ->. destruct T4 as (_ & _ & T6). congruence.
Qed.

Lemma Resize_transactional s this buf xs cap n :
  vec_at s this buf xs cap ->
  n <= cap ->
  transactional s this (Vector.Resize this n s).
Proof.
  intros Ht Hn. destruct s as [R Z hp L w].
  pose proof Ht as [T1 T2 T3 T4 T5]. csimp in *.
  unfold Vector.Resize. crun.
  destruct (Nat.eqb_spec n (length xs)) as [->|Hne]; crun.
  { cbn. by exists buf, xs, cap. }
  destruct buf as [|h i]; [lia|]. destruct T4 as (-> & T4 & T6).
  destruct (Nat.ltb_spec n (length xs)) as [Hlt|Hge]; crun.
  - rewrite <- (take_drop n xs) in T6. unfold block_of in T6.
    rewrite fmap_app, <- app_assoc in T6.
    assert (length (take n xs) = n) as Htk by (rewrite length_take; lia).
    assert (n <= length (block_of xs cap)) by (unfold block_of; list_len).
    unfold block_of in *. crun.
    rewrite size_sub_le by lia.
    replace (length xs - n) with (length (drop n xs)) by (rewrite length_drop; lia).
    erewrite (destroy_n_eval h (drop n xs) n (Some <$> take n xs)); [| done | list_len].
    crun. cbn. exists (Ptr h 0), (take n xs), cap. split; csimp.
    + done.
    + rewrite lookup_insert_eq. by rewrite Htk.
    + lia.
    + split; [done|]. split; [done|]. rewrite lookup_insert_eq. unfold block_of.
      rewrite <- replicate_add. do 3 f_equal.
      rewrite length_take, length_app, length_take, !length_drop. lia.
    + done.
  - unfold Vector.Reserve. crun.
    assert (length xs <= length (block_of xs cap)) by (unfold block_of; list_len).
    crun. rewrite size_sub_le by lia.
    unfold block_of in T6.
    rewrite (replicate_add_split None (n - length xs) (cap - length xs)) in T6 by lia.
    erewrite (uninitialized_value_construct_n_eval h (length xs) (n - length xs)
                (Some <$> xs)); [| exact T6 | list_len].
    pose proof (value_list_length (n - length xs) w) as Hlen.
    destruct (value_list (n - length xs) w) as [[ys [e|]] w'']; crun.
    + cbn. by eexists.
    + destruct Hlen as [_ Hlen]. specialize (Hlen eq_refl).
      cbn. exists (Ptr h 0), (xs ++ ys), cap. split; csimp.
      * done.
      * rewrite lookup_insert_eq. f_equal. list_len.
      * list_len.
      * split; [done|]. split; [done|]. rewrite lookup_insert_eq. unfold block_of.
        rewrite fmap_app, <- app_assoc. do 4 f_equal. list_len.
      * done.
Qed.

Lemma commit_realloc_transactional s this buf xs cap indx args :
  vec_at s this buf xs cap ->
  safe_relocation ->
  indx <= length xs ->
  transactional s this
    (commit_realloc s this buf cap indx (length xs) (realloc_insert xs indx args (world s))).
Proof.
  intros Ht Hsafe Hle.
  pose proof (realloc_insert_safe xs indx args (world s) Hsafe Hle) as Hri.
  pose proof (with_elements_same _ _ _ _ _ Ht) as Hsame.
  unfold commit_realloc.
  destruct (realloc_insert xs indx args (world s)) as [elems w'|e elems w'|]; [| |done].
  - destruct Hri as (x & ys1 & ys2 & w0 & w1 & -> & Hl1 & Hl2 & Hal & Hao).
    cbn. eexists _, _, _. eapply vec_at_realloc; [done|list_len|done].
  - subst elems. rewrite Hsame. cbn. exists w'. by destruct s.
Qed.

Lemma commit_append_transactional R Z hp L w this h1 xs cap ret args :
  vec_at (State R Z hp L w) this (Ptr h1 0) xs cap ->
  safe_relocation ->
  length xs < cap ->
  transactional (State R Z hp L w) this
    (commit_in_place (State R Z hp L w) this (Ptr h1 0) cap ret (S (length xs))
       (append_in_place xs args w)).
Proof.
  intros Ht Hsafe Hlt.
  pose proof (with_elements_same _ _ _ _ _ Ht) as Hsame. csimp in Hsame.
  pose proof (safe_args_outcome args w Hsafe) as Hao.
  unfold commit_in_place, append_in_place.
  destruct (args_outcome args w) as [[[e|x] w']|]; [| |done]; csimp.
  - rewrite Hsame. cbn. by exists w'.
  - cbn. exists (Ptr h1 0), (xs ++ [x]), cap.
    replace (S (length xs)) with (length (xs ++ [x])) by list_len.
    eapply vec_at_in_place; [done|list_len].
Qed.

(** Insertion into a full vector, and insertion at the end. *)
Lemma Emplace_transactional s this buf xa xb cap args :
  vec_at s this buf (xa ++ xb) cap ->
  safe_relocation ->
  representable 1 ->
  length (xa ++ xb) = cap \/ xb = [] ->
  transactional s this (VectorH.Emplace this (iter buf (length xa)) args s)
  /\ transactional s this (Part000.Emplace this (iter buf (length xa)) args s).
Proof.
  intros Ht Hsafe Hrep Hcase.
  destruct (decide (length (xa ++ xb) = cap)) as [Hfull|Hroom].
  - rewrite (Part000_Emplace_full_eval this buf xa xb cap) by done.
    rewrite (VectorH_Emplace_full_eval this buf xa xb cap) by done.
    split; apply commit_realloc_transactional; (done || list_len).
  - destruct Hcase as [?| ->]; [done|]. rewrite app_nil_r in *.
    pose proof Ht as [_ _ Hle Hbuf _].
    destruct buf as [|h1 i1]; [lia|]. destruct Hbuf as (-> & _ & _).
    destruct s as [R Z hp L w]. cbn [iter shift Nat.add].
    rewrite (Part000_Emplace_end_eval this h1 xa cap) by (done || lia).
    rewrite (VectorH_Emplace_end_eval this h1 xa cap) by (done || lia).
    split; apply commit_append_transactional; (done || lia).
Qed.

Lemma PushBack_transactional push s this buf xs cap x :
  is_PushBack push ->
  vec_at s this buf xs cap ->
  safe_relocation ->
  representable 1 ->
  transactional s this (push this x s).
Proof.
  intros Hpush Ht Hsafe Hrep.
  assert (forall args,
    transactional s this ((VectorH.EmplaceBack this args ;; ret tt) s)
    /\ transactional s this ((Part000.EmplaceBack this args ;; ret tt) s)) as Hboth.
  { intros args. unfold VectorH.EmplaceBack, Part000.EmplaceBack, bind.
    rewrite (end_eval s this buf xs cap Ht).
    rewrite <- (app_nil_r xs) in Ht.
    destruct (Emplace_transactional s this buf xs [] cap args Ht Hsafe Hrep) as [H1 H2];
      [by right|].
    split.
    - by destruct (VectorH.Emplace this (iter buf (length xs)) args s).
    - by destruct (Part000.Emplace this (iter buf (length xs)) args s). }
  destruct Hpush as [-> | [-> | [-> | ->]]]; apply Hboth.
Qed.

Lemma PopBack_transactional s this buf xs cap :
  vec_at s this buf xs cap ->
  0 < length xs ->
  transactional s this (VectorH.PopBack this s)
  /\ transactional s this (Part000.PopBack this s).
Proof.
  intros Ht Hpos. destruct xs as [|x xs _] using rev_ind; [cbn in Hpos; lia|].
  destruct (PopBack_nonempty s this buf xs x cap Ht) as (s' & -> & -> & Ht' & _).
  split; cbn; by exists buf, xs, cap.
Qed.

(** C2 (amended): the operations that are transactional.  For a vector
    [this] in a consistent state, an element type whose relocation cannot
    damage the old elements, and requests whose byte count [size_t] can
    represent: construction with a size and copy construction of a new
    vector [l]; copy assignment from a source longer than the capacity;
    move assignment; [Reserve]; [Resize] to at most the capacity;
    insertion into a full vector and insertion at the end, in particular
    [PushBack]; and [PopBack] on a non-empty vector either complete and
    leave a consistent vector, or throw and leave the state they found,
    up to the world.  None of them has undefined behaviour or terminates
    the program.  ([representable n] says that the byte count of [n]
    elements fits [size_t]; [Allocate] multiplies without a check.) *)
Theorem transactional_operations (s : st) (this : positive) (buf : ptr) (xs : list T)
    (cap : nat) :
  vec_at s this buf xs cap ->
  safe_relocation ->
  representable 1 ->
  (forall l n, raws s !! l = None -> sizes s !! l = None -> representable n ->
     transactional s l (Vector.ctor_size l n s))
  /\ (forall l, raws s !! l = None -> sizes s !! l = None ->
       transactional s l (Vector.copy_ctor l this s))
  /\ (forall rhs b2 ys c2,
       vec_at s rhs b2 ys c2 -> this <> rhs -> separate buf b2 -> cap < length ys ->
       transactional s this (Vector.copy_assign this rhs s))
  /\ (forall rhs b2 ys c2,
       vec_at s rhs b2 ys c2 -> this <> rhs ->
       transactional s this (Vector.move_assign this rhs s))
  /\ (forall n, representable n -> transactional s this (Vector.Reserve this n s))
  /\ (forall n, n <= cap -> transactional s this (Vector.Resize this n s))
  /\ (forall i args, i <= length xs -> length xs = cap \/ i = length xs ->
       transactional s this (VectorH.Emplace this (iter buf i) args s)
       /\ transactional s this (Part000.Emplace this (iter buf i) args s))
  /\ (forall push x, is_PushBack push -> transactional s this (push this x s))
  /\ (0 < length xs ->
       transactional s this (VectorH.PopBack this s)
       /\ transactional s this (Part000.PopBack this s)).
Proof.
  intros Ht Hsafe Hrep.
  split; [|split; [|split; [|split; [|split; [|split; [|split; [|split]]]]]]].
  - intros l n Hr Hz Hn. by apply ctor_size_transactional.
  - intros l Hr Hz. by eapply copy_ctor_transactional.
  - intros rhs b2 ys c2 Hrhs Hne Hsep Hlt. by eapply copy_assign_realloc_transactional.
  - intros rhs b2 ys c2 Hrhs Hne. by eapply move_assign_transactional.
  - intros n Hn. by eapply Reserve_transactional.
  - intros n Hn. by eapply Resize_transactional.
  - intros i args Hi Hcase.
    assert (i = length (take i xs)) as Hlen by (rewrite length_take; lia).
    rewrite Hlen. rewrite <- (take_drop i xs) in Ht.
    eapply Emplace_transactional; [done|done|done|].
    rewrite take_drop. destruct Hcase as [?| ->]; [by left|right].
    by rewrite drop_all.
  - intros push x Hpush. by eapply PushBack_transactional.
  - intros Hpos. by eapply PopBack_transactional.
Qed.

End Transactional.


(** * The two versions of the header *)

Section Agreement.
Context {T A W : Type} {HE : Element T A W} {HB : Build}.
Local Abbreviation st := (state T W).

(** X1: on a consistent vector and valid positions the insertion and
    removal functions of the two versions compute the same result: the
    returned iterator, the state, the exception.  ([Reserve], [Resize],
    the constructors and the assignments are the same text in both.)  The
    versions differ in [PopBack] on an empty vector only. *)
Lemma versions_agree_on_valid_calls (s : st) (this : positive) (buf : ptr)
    (xa xb : list T) (cap : nat) (args : ctor_args T A) :
  vec_at s this buf (xa ++ xb) cap ->
  representable 1 ->
  Part000.Emplace this (iter buf (length xa)) args s
  = VectorH.Emplace this (iter buf (length xa)) args s
  /\ Part000.EmplaceBack this args s = VectorH.EmplaceBack this args s
  /\ (forall x, Part000.PushBack this x s = VectorH.PushBack this x s
              /\ Part000.PushBack_rvalue this x s = VectorH.PushBack_rvalue this x s)
  /\ (xb <> [] ->
       Part000.Erase this (iter buf (length xa)) s = VectorH.Erase this (iter buf (length xa)) s)
  /\ (xa ++ xb <> [] -> Part000.PopBack this s = VectorH.PopBack this s)
  /\ (NDEBUG = true -> Part000.PopBack this s = VectorH.PopBack this s).
Proof.
  intros Ht Hrep.
  split; [by apply (Emplace_commit s this buf xa xb cap)|].
  split; [by apply (EmplaceBack_step s this buf (xa ++ xb) cap)|].
  split; [|split; [|split]].
  - intros x. unfold Part000.PushBack, VectorH.PushBack, Part000.PushBack_rvalue,
      VectorH.PushBack_rvalue, bind.
    destruct (EmplaceBack_step s this buf (xa ++ xb) cap (FromLvalue x) Ht Hrep) as [-> _].
    by destruct (EmplaceBack_step s this buf (xa ++ xb) cap (FromRvalue x) Ht Hrep) as [-> _].
  - intros Hne. destruct xb as [|d xb']; [done|].
    by apply (Erase_position s this buf xa d xb' cap).
  - intros Hne. destruct (xa ++ xb) as [|x xs _] using rev_ind; [done|].
    by destruct (PopBack_nonempty s this buf xs x cap Ht) as (s' & -> & -> & _).
  - intros Hrel. destruct (xa ++ xb) as [|x xs _] using rev_ind.
    + rewrite (VectorH_PopBack_empty s this buf cap Ht), Hrel.
      destruct s as [R Z hp L w]. destruct Ht as [H1 H2 H3 H4 H5]. csimp in *.
      unfold Part000.PopBack. autounfold with cpp. crun.
      destruct buf as [|h i]; csimp.
      * subst cap. crun. done.
      * destruct H4 as (-> & ? & H4). crun. unfold block_of in *. csimp in *. crun. done.
    + by destruct (PopBack_nonempty s this buf xs x cap Ht) as (s' & -> & -> & _).
Qed.

(** X2: on a non-empty vector [PopBack] destroys the last element,
    decrements the size by one, keeps buffer and capacity, and cannot
    fail, in both versions of the header. *)
Theorem PopBack_destroys_last (s : st) (v : positive) (buf : ptr) (xs : list T) (x : T)
    (cap : nat) :
  vec_at s v buf (xs ++ [x]) cap ->
  exists s', VectorH.PopBack v s = Ok tt s' /\ Part000.PopBack v s = Ok tt s'
    /\ vec_at s' v buf xs cap /\ world s' = destroy x (world s)
    /\ Vector.Size v s' = Ok (length xs) s'.
Proof.
  intros Ht.
  destruct (PopBack_nonempty s v buf xs x cap Ht) as (s' & H1 & H2 & Ht' & Hw & _).
  exists s'. split; [done|]. split; [done|]. split; [done|]. split; [done|].
  by eapply Size_eval.
Qed.

End Agreement.

(** * Concrete runs *)

(** the representation invariant of a concrete state, by evaluation *)
Ltac vec_at_concrete :=
  split; vm_compute;
  first [ reflexivity | lia | discriminate
        | repeat split; first [ reflexivity | lia ] ].

(** ** Runs that contradict the specification *)

(** C1: a full vector of move-only elements whose move constructor throws
    on 13.  Appending 5 to [1; 13] reallocates; the first element is moved
    out before the move of 13 throws, and the failed insertion leaves
    [0; 13] in the old buffer, in both versions. *)
Lemma realloc_insert_throwing_move_damages_source :
  snapshot (one_vector [1; 13] 2) 1 = Some ([1; 13], 2)
  /\ throws_leaving
       (@VectorH.Emplace nat nat nat move_only_nat debug_build 1 (Ptr 1 2) (FromArgs 5)
          (one_vector [1; 13] 2))
       (thrown 13) 1 ([0; 13], 2)
  /\ throws_leaving
       (@Part000.Emplace nat nat nat move_only_nat debug_build 1 (Ptr 1 2) (FromArgs 5)
          (one_vector [1; 13] 2))
       (thrown 13) 1 ([0; 13], 2).
Proof. vm_compute. repeat split. Qed.

(** C2: operations that throw and leave a changed vector.  [Resize(3)] of
    [1; 2] with capacity 2 reallocates before the default constructor
    throws: the capacity stays 3.  Copy assignment within the capacity
    stops at the element whose copy throws, after the first element was
    overwritten.  [Erase] and the insertion in the middle stop at the move
    assignment that throws, with the elements before it shifted.
    [Reserve] for elements moved by a throwing move constructor leaves the
    moved-from objects in the old buffer. *)
Lemma operations_that_are_not_transactional :
  throws_leaving
    (@Vector.Resize nat nat nat no_default_nat debug_build 1 3 (one_vector [1; 2] 2))
    (thrown 0) 1 ([1; 2], 3)
  /\ throws_leaving
       (@Vector.copy_assign nat nat nat fragile_nat debug_build 1 2
          (two_vectors [1; 2; 3] 3 [7; 13; 9] 3))
       (thrown 13) 1 ([7; 2; 3], 3)
  /\ throws_leaving
       (@VectorH.Erase nat nat nat move_only_nat debug_build 1 (Ptr 1 0)
          (one_vector [1; 2; 13] 3))
       (thrown 13) 1 ([2; 0; 13], 3)
  /\ throws_leaving
       (@Part000.Erase nat nat nat move_only_nat debug_build 1 (Ptr 1 0)
          (one_vector [1; 2; 13] 3))
       (thrown 13) 1 ([2; 0; 13], 3)
  /\ throws_leaving
       (@VectorH.Emplace nat nat nat move_only_nat debug_build 1 (Ptr 1 0) (FromArgs 5)
          (one_vector [13; 2] 3))
       (thrown 13) 1 ([13; 0], 3)
  /\ throws_leaving
       (@Part000.Emplace nat nat nat move_only_nat debug_build 1 (Ptr 1 0) (FromArgs 5)
          (one_vector [13; 2] 3))
       (thrown 13) 1 ([13; 0], 3)
  /\ throws_leaving
       (@Vector.Reserve nat nat nat move_only_nat 1 4 (one_vector [1; 13] 2))
       (thrown 13) 1 ([0; 13], 2).
Proof. vm_compute. repeat split. Qed.

(** C3: move assignment into a vector that holds [1; 2] hands these two
    elements to the source, whose [Size()] is then 2. *)
Lemma move_assign_source_not_empty :
  match @Vector.move_assign nat nat 1 2 (two_vectors [1; 2] 2 [7] 1) with
  | Ok _ s' =>
      Vector.Size 2 s' = Ok 2 s' /\ snapshot s' 2 = Some ([1; 2], 2)
      /\ snapshot s' 1 = Some ([7], 1)
  | _ => False
  end.
Proof. vm_compute. repeat split. Qed.

(** C8: in a debug build, [PopBack] on an empty vector stops at the
    assertion in [vector.h] and runs into undefined behaviour in
    [part_000], which has no assertion.  In a release build the two
    versions agree on this call too: both are undefined. *)
Theorem versions_differ_on_empty_PopBack :
  @VectorH.PopBack nat nat nat fragile_nat debug_build 1 empty_vector = Aborted
  /\ @Part000.PopBack nat nat nat fragile_nat debug_build 1 empty_vector = Undefined
  /\ @VectorH.PopBack nat nat nat fragile_nat release_build 1 empty_vector = Undefined
  /\ @Part000.PopBack nat nat nat fragile_nat release_build 1 empty_vector = Undefined.
Proof. repeat split; vm_compute; reflexivity. Qed.

(** ** Runs that satisfy the hypotheses of the theorems *)

Section FragileRuns.
#[local] Existing Instance fragile_nat.
#[local] Existing Instance debug_build.

Lemma fragile_safe_relocation : safe_relocation.
Proof. reflexivity. Qed.

Lemma fragile_representable : representable 1.
Proof. vm_compute. reflexivity. Qed.

Lemma realloc_insert_rolls_back_witness :
  Part000.Emplace 1 (iter (Ptr 1 0) (length [1])) (FromLvalue 7) (one_vector [1; 2] 2)
  = VectorH.Emplace 1 (iter (Ptr 1 0) (length [1])) (FromLvalue 7) (one_vector [1; 2] 2)
  /\ match VectorH.Emplace 1 (iter (Ptr 1 0) (length [1])) (FromLvalue 7)
            (one_vector [1; 2] 2) with
     | Ok p s' =>
         exists elems,
           realloc_insert ([1] ++ [2]) (length [1]) (FromLvalue 7)
             (world (one_vector [1; 2] 2)) = Done elems (world s')
           /\ vec_at s' 1 (Ptr (free_block (one_vector [1; 2] 2)) 0) elems (grown 2)
           /\ p = Ptr (free_block (one_vector [1; 2] 2)) (length [1])
           /\ heap s' = released (Ptr 1 0)
                          (<[free_block (one_vector [1; 2] 2) := block_of elems (grown 2)]>
                             (heap (one_vector [1; 2] 2)))
           /\ leaked s' = leaked (one_vector [1; 2] 2)
     | Exn e s' =>
         exists w',
           realloc_insert ([1] ++ [2]) (length [1]) (FromLvalue 7)
             (world (one_vector [1; 2] 2)) = Failed e ([1] ++ [2]) w'
           /\ s' = set_world w' (one_vector [1; 2] 2)
           /\ (forall w0 w1,
                 allocation (grown 2) (world (one_vector [1; 2] 2)) = (true, w0) ->
                 args_outcome (FromLvalue 7) w0 = Some (inl e, w1) -> w' = w1)
     | Undefined | Aborted => False
     end.
Proof.
  apply (realloc_insert_rolls_back (one_vector [1; 2] 2) 1%positive (Ptr 1 0) [1] [2] 2
           (FromLvalue 7)).
  - exact fragile_safe_relocation.
  - exact fragile_representable.
  - vec_at_concrete.
  - reflexivity.
Defined.

Lemma transactional_operations_witness :
  (forall l n,
     raws small_and_large !! l = None -> sizes small_and_large !! l = None ->
     representable n ->
     transactional small_and_large l (Vector.ctor_size l n small_and_large))
  /\ (forall l,
       raws small_and_large !! l = None -> sizes small_and_large !! l = None ->
       transactional small_and_large l (Vector.copy_ctor l 1 small_and_large))
  /\ (forall rhs b2 ys c2,
       vec_at small_and_large rhs b2 ys c2 -> 1%positive <> rhs ->
       separate (Ptr 1 0) b2 -> 2 < length ys ->
       transactional small_and_large 1 (Vector.copy_assign 1 rhs small_and_large))
  /\ (forall rhs b2 ys c2,
       vec_at small_and_large rhs b2 ys c2 -> 1%positive <> rhs ->
       transactional small_and_large 1 (Vector.move_assign 1 rhs small_and_large))
  /\ (forall n, representable n ->
       transactional small_and_large 1 (Vector.Reserve 1 n small_and_large))
  /\ (forall n, n <= 2 ->
       transactional small_and_large 1 (Vector.Resize 1 n small_and_large))
  /\ (forall i args, i <= length [1; 2] -> length [1; 2] = 2 \/ i = length [1; 2] ->
       transactional small_and_large 1
         (VectorH.Emplace 1 (iter (Ptr 1 0) i) args small_and_large)
       /\ transactional small_and_large 1
            (Part000.Emplace 1 (iter (Ptr 1 0) i) args small_and_large))
  /\ (forall push x, is_PushBack push ->
       transactional small_and_large 1 (push 1%positive x small_and_large))
  /\ (0 < length [1; 2] ->
       transactional small_and_large 1 (VectorH.PopBack 1 small_and_large)
       /\ transactional small_and_large 1 (Part000.PopBack 1 small_and_large)).
Proof.
  apply (transactional_operations small_and_large 1%positive (Ptr 1 0) [1; 2] 2).
  - vec_at_concrete.
  - exact fragile_safe_relocation.
  - exact fragile_representable.
Defined.

Lemma move_exchanges_vectors_witness :
  (exists s1, Vector.move_ctor 3 2 (two_vectors [1; 2] 2 [7] 1) = Ok tt s1
     /\ vec_at s1 3 (Ptr 2 0) [7] 1 /\ vec_at s1 2 nullptr [] 0
     /\ Vector.Size 2 s1 = Ok 0 s1)
  /\ (exists s2, Vector.move_assign 1 2 (two_vectors [1; 2] 2 [7] 1) = Ok 1%positive s2
     /\ vec_at s2 1 (Ptr 2 0) [7] 1 /\ vec_at s2 2 (Ptr 1 0) [1; 2] 2
     /\ Vector.Size 2 s2 = Ok (length [1; 2]) s2).
Proof.
  apply (move_exchanges_vectors (two_vectors [1; 2] 2 [7] 1) 1%positive 2%positive 3%positive
           (Ptr 1 0) (Ptr 2 0) [1; 2] [7] 2 1).
  - vec_at_concrete.
  - vec_at_concrete.
  - discriminate.
  - vm_compute. reflexivity.
  - vm_compute. reflexivity.
Defined.

(** What the source that is not reset leads to: the two objects own one
    block, and the second destructor releases a block that is gone. *)
Lemma move_constructed_RawMemory_is_released_twice :
  move_construct_client 2 (State ∅ ∅ ∅ [] 0) = Undefined.
Proof. vm_compute. reflexivity. Qed.

Lemma RawMemory_move_ctor_keeps_source_witness :
  RawMemory.move_ctor 2 1 (one_vector [1; 2] 2)
  = Ok tt (set_raws <[2%positive := {| buffer_ := Ptr 1 0; capacity_ := 2 |}]>
             (one_vector [1; 2] 2))
  /\ raws (set_raws <[2%positive := {| buffer_ := Ptr 1 0; capacity_ := 2 |}]>
             (one_vector [1; 2] 2)) !! 1%positive
     = Some {| buffer_ := Ptr 1 0; capacity_ := 2 |}.
Proof.
  apply (RawMemory_move_ctor_keeps_source (one_vector [1; 2] 2) 2%positive 1%positive
           {| buffer_ := Ptr 1 0; capacity_ := 2 |}).
  - discriminate.
  - vm_compute. reflexivity.
Defined.

Lemma copy_assign_realloc_strong_witness :
  match Vector.copy_assign 1 2 (two_vectors [1] 1 [7; 8; 9] 3) with
  | Ok r s' =>
      r = 1%positive /\ exists b' ys' w0 w1,
        allocation (length [7; 8; 9]) (world (two_vectors [1] 1 [7; 8; 9] 3)) = (true, w0)
        /\ copy_list [7; 8; 9] w0 = (ys', None, w1)
        /\ world s' = destroy_all [1] w1
        /\ vec_at s' 1 b' ys' (length [7; 8; 9]) /\ copies_of [7; 8; 9] ys'
        /\ vec_at s' 2 (Ptr 2 0) [7; 8; 9] 3
        /\ b' = Ptr (free_block (two_vectors [1] 1 [7; 8; 9] 3)) 0
        /\ (forall h i, Ptr 1 0 = Ptr h i -> heap s' !! h = None)
        /\ leaked s' = leaked (two_vectors [1] 1 [7; 8; 9] 3)
  | Exn e s' =>
      exists w', s' = set_world w' (two_vectors [1] 1 [7; 8; 9] 3)
        /\ (allocation (length [7; 8; 9]) (world (two_vectors [1] 1 [7; 8; 9] 3)) = (false, w')
            /\ e = bad_alloc
            \/ exists w0 ys' w1,
                 allocation (length [7; 8; 9]) (world (two_vectors [1] 1 [7; 8; 9] 3))
                 = (true, w0)
                 /\ copy_list [7; 8; 9] w0 = (ys', Some e, w1)
                 /\ w' = destroy_all ys' w1)
  | Undefined | Aborted => False
  end.
Proof.
  apply (copy_assign_realloc_strong (two_vectors [1] 1 [7; 8; 9] 3) 1%positive 2%positive
           (Ptr 1 0) (Ptr 2 0) [1] [7; 8; 9] 1 3).
  - vec_at_concrete.
  - vec_at_concrete.
  - discriminate.
  - simpl. discriminate.
  - simpl. lia.
Defined.

Lemma push_back_grows_geometrically_witness :
  match push_all VectorH.PushBack 1 [1; 2; 3; 4; 5] empty_vector with
  | Ok _ s' =>
      Vector.Capacity 1 s' = Ok (spec_capacity (length [1; 2; 3; 4; 5])) s'
      /\ Vector.Size 1 s' = Ok (length [1; 2; 3; 4; 5]) s'
  | Exn _ _ | Aborted => True
  | Undefined => False
  end.
Proof.
  apply (push_back_grows_geometrically empty_vector 1%positive [1; 2; 3; 4; 5]
           VectorH.PushBack).
  - left. reflexivity.
  - exact fragile_representable.
  - vec_at_concrete.
Defined.

Lemma Part000_PopBack_empty_no_assertion_witness :
  Part000.PopBack 1 empty_vector = Undefined /\ VectorH.PopBack 1 empty_vector = Aborted.
Proof.
  apply (Part000_PopBack_empty_no_assertion empty_vector 1%positive nullptr 0).
  - vec_at_concrete.
  - reflexivity.
Defined.

Lemma insert_erase_return_position_witness :
  (Part000.Emplace 1 (iter (Ptr 1 0) (length [1])) (FromLvalue 7) (one_vector [1; 2; 3] 4)
   = VectorH.Emplace 1 (iter (Ptr 1 0) (length [1])) (FromLvalue 7) (one_vector [1; 2; 3] 4)
   /\ match VectorH.Emplace 1 (iter (Ptr 1 0) (length [1])) (FromLvalue 7)
             (one_vector [1; 2; 3] 4) with
      | Ok p s' =>
          exists b' elems c' x,
            vec_at s' 1 b' elems c' /\ p = iter b' (length [1])
            /\ length elems = S (length ([1] ++ [2; 3]))
            /\ elems !! length [1] = Some x /\ inserted (FromLvalue 7) x
      | Exn _ _ | Aborted => True
      | Undefined => False
      end)
  /\ (forall d xb', [2; 3] = d :: xb' ->
       Part000.Erase 1 (iter (Ptr 1 0) (length [1])) (one_vector [1; 2; 3] 4)
       = VectorH.Erase 1 (iter (Ptr 1 0) (length [1])) (one_vector [1; 2; 3] 4)
       /\ match VectorH.Erase 1 (iter (Ptr 1 0) (length [1])) (one_vector [1; 2; 3] 4) with
          | Ok p s' =>
              exists elems,
                vec_at s' 1 (Ptr 1 0) elems 4 /\ p = iter (Ptr 1 0) (length [1])
                /\ length elems = length ([1] ++ xb')
                /\ forall next xb'', xb' = next :: xb'' ->
                     exists x, elems !! length [1] = Some x /\ received d next x
          | Exn _ _ => True
          | Undefined | Aborted => False
          end).
Proof.
  apply (insert_erase_return_position (one_vector [1; 2; 3] 4) 1%positive (Ptr 1 0)
           [1] [2; 3] 4 (FromLvalue 7)).
  - vec_at_concrete.
  - exact fragile_representable.
Defined.

Lemma versions_agree_on_valid_calls_witness :
  Part000.Emplace 1 (iter (Ptr 1 0) (length [1])) (FromLvalue 7) (one_vector [1; 2; 3] 4)
  = VectorH.Emplace 1 (iter (Ptr 1 0) (length [1])) (FromLvalue 7) (one_vector [1; 2; 3] 4)
  /\ Part000.EmplaceBack 1 (FromLvalue 7) (one_vector [1; 2; 3] 4)
     = VectorH.EmplaceBack 1 (FromLvalue 7) (one_vector [1; 2; 3] 4)
  /\ (forall x,
       Part000.PushBack 1 x (one_vector [1; 2; 3] 4)
       = VectorH.PushBack 1 x (one_vector [1; 2; 3] 4)
       /\ Part000.PushBack_rvalue 1 x (one_vector [1; 2; 3] 4)
          = VectorH.PushBack_rvalue 1 x (one_vector [1; 2; 3] 4))
  /\ ([2; 3] <> [] ->
       Part000.Erase 1 (iter (Ptr 1 0) (length [1])) (one_vector [1; 2; 3] 4)
       = VectorH.Erase 1 (iter (Ptr 1 0) (length [1])) (one_vector [1; 2; 3] 4))
  /\ ([1] ++ [2; 3] <> [] ->
       Part000.PopBack 1 (one_vector [1; 2; 3] 4) = VectorH.PopBack 1 (one_vector [1; 2; 3] 4))
  /\ (NDEBUG = true ->
       Part000.PopBack 1 (one_vector [1; 2; 3] 4) = VectorH.PopBack 1 (one_vector [1; 2; 3] 4)).
Proof.
  apply (versions_agree_on_valid_calls (one_vector [1; 2; 3] 4) 1%positive (Ptr 1 0)
           [1] [2; 3] 4 (FromLvalue 7)).
  - vec_at_concrete.
  - exact fragile_representable.
Defined.

Lemma RawMemory_move_assign_eval_witness :
  RawMemory.move_assign 1 2 (two_vectors [1; 2] 2 [7] 1)
  = Ok tt (State (<[2%positive := {| buffer_ := nullptr; capacity_ := 0 |}]>
                    (<[1%positive := {| buffer_ := Ptr 2 0; capacity_ := 1 |}]>
                       (raws (two_vectors [1; 2] 2 [7] 1))))
             (sizes (two_vectors [1; 2] 2 [7] 1)) (heap (two_vectors [1; 2] 2 [7] 1))
             (leaked (two_vectors [1; 2] 2 [7] 1)) (world (two_vectors [1; 2] 2 [7] 1))).
Proof.
  apply (RawMemory_move_assign_eval (raws (two_vectors [1; 2] 2 [7] 1))
           (sizes (two_vectors [1; 2] 2 [7] 1)) (heap (two_vectors [1; 2] 2 [7] 1))
           (leaked (two_vectors [1; 2] 2 [7] 1)) (world (two_vectors [1; 2] 2 [7] 1))
           1%positive 2%positive
           {| buffer_ := Ptr 1 0; capacity_ := 2 |} {| buffer_ := Ptr 2 0; capacity_ := 1 |}).
  - discriminate.
  - vm_compute. reflexivity.
  - vm_compute. reflexivity.
Defined.

Lemma PopBack_destroys_last_witness :
  exists s', VectorH.PopBack 1 (one_vector [1; 2; 3] 4) = Ok tt s'
    /\ Part000.PopBack 1 (one_vector [1; 2; 3] 4) = Ok tt s'
    /\ vec_at s' 1 (Ptr 1 0) [1; 2] 4
    /\ world s' = destroy 3 (world (one_vector [1; 2; 3] 4))
    /\ Vector.Size 1 s' = Ok (length [1; 2]) s'.
Proof.
  apply (PopBack_destroys_last (one_vector [1; 2; 3] 4) 1%positive (Ptr 1 0) [1; 2] 3 4).
  vec_at_concrete.
Defined.

End FragileRuns.


(** * Further properties of the member functions *)

(** ** Insertion and removal for element types that keep their values *)

Section Faithful.
Context {T A W : Type} {HE : Element T A W} {HB : Build}.
Local Abbreviation st := (state T W).
Implicit Types (hp : gmap positive (list (option T))) (R : gmap positive RawMemoryObj)
  (Z : gmap positive nat) (L : list T) (w : W) (xs ys : list T) (s : st).

Lemma faithful_copy_list xs w ys w' :
  faithful -> copy_list xs w = (ys, None, w') -> ys = xs.
Proof.
  intros Hf. revert w ys. induction xs as [|x xs IH]; intros w ys Hc; cbn in Hc.
  - by injection Hc as <- _.
  - destruct (copy_construct x w) as [[e|y] w1] eqn:Hx; [done|].
    destruct (copy_list xs w1) as [[ys1 r] w2] eqn:Hxs.
    injection Hc as <- -> ->. f_equal.
    + exact (copy_construct_value Hf _ _ _ _ Hx).
    + exact (IH _ _ Hxs).
Qed.

Lemma faithful_move_list xs w ys srcs w' :
  faithful -> move_list xs w = (ys, srcs, None, w') -> ys = xs.
Proof.
  intros Hf. revert w ys srcs w'. induction xs as [|x xs IH]; intros w ys srcs w' Hc; cbn in Hc.
  - by injection Hc as <- _ _.
  - destruct (move_construct x w) as [[[e|y] x'] w1] eqn:Hx; [done|].
    destruct (move_list xs w1) as [[[ys1 srcs1] r] w2] eqn:Hxs.
    injection Hc as <- _ -> _. f_equal.
    + exact (move_construct_value Hf _ _ _ _ _ Hx).
    + exact (IH _ _ _ _ Hxs).
Qed.

Lemma faithful_relocate_list xs w ys srcs w' :
  faithful -> relocate_list xs w = (ys, srcs, None, w') -> ys = xs.
Proof.
  intros Hf. unfold relocate_list. destruct relocates_by_move.
  - by apply faithful_move_list.
  - destruct (copy_list xs w) as [[ys1 r] w1] eqn:Hc. intros [= <- _ -> _].
    by eapply faithful_copy_list.
Qed.

Lemma faithful_move_chain d xs w seg w' :
  faithful -> move_chain d xs w = (seg, None, w') -> exists m, seg = xs ++ [m].
Proof.
  intros Hf. revert d w seg w'. induction xs as [|x xs IH]; intros d w seg w' Hc; cbn in Hc.
  - injection Hc as <- _. by exists d.
  - destruct (move_assign d x w) as [[[[e|] d'] x'] w1] eqn:Hx; [done|].
    destruct (move_chain x' xs w1) as [[seg1 r] w2] eqn:Hxs.
    injection Hc as <- -> _.
    destruct (IH _ _ _ _ Hxs) as [m ->]. exists m. cbn. f_equal.
    exact (move_assign_value Hf _ _ _ _ _ _ Hx).
Qed.

Lemma faithful_args_outcome (args : ctor_args T A) w x w' v :
  faithful -> args = FromLvalue v \/ args = FromRvalue v ->
  args_outcome args w = Some (inr x, w') -> x = v.
Proof.
  intros Hf [-> | ->]; cbn.
  - intros [= Hc]. exact (copy_construct_value Hf _ _ _ _ Hc).
  - destruct (move_construct v w) as [[[e|y] x'] w1] eqn:Hx.
    + by destruct is_nothrow_move_constructible.
    + intros [= <- _]. exact (move_construct_value Hf _ _ _ _ _ Hx).
Qed.

Lemma faithful_realloc_insert xs indx args w elems w' :
  faithful -> indx <= length xs ->
  realloc_insert xs indx args w = Done elems w' ->
  exists x w0 w1,
    elems = take indx xs ++ x :: drop indx xs
    /\ allocation (grown (length xs)) w = (true, w0)
    /\ args_outcome args w0 = Some (inr x, w1).
Proof.
  intros Hf Hle. unfold realloc_insert.
  destruct (allocation (grown (length xs)) w) as [[|] w0] eqn:Hal; [|done].
  destruct (args_outcome args w0) as [[[e|x] w1]|] eqn:Hao; [done| |done].
  destruct (relocate_list (take indx xs) w1) as [[[ys1 srcs1] [e|]] w2] eqn:Hr1.
  { by destruct is_nothrow_move_constructible. }
  destruct (relocate_list (drop indx xs) w2) as [[[ys2 srcs2] [e|]] w3] eqn:Hr2.
  { by destruct is_nothrow_move_constructible. }
  intros [= <- _]. exists x, w0, w1.
  rewrite (faithful_relocate_list _ _ _ _ _ Hf Hr1), (faithful_relocate_list _ _ _ _ _ Hf Hr2).
  done.
Qed.

Lemma faithful_insert_in_place xa mid z args w elems w' :
  faithful ->
  insert_in_place xa mid z args w = Done elems w' ->
  exists x w1, elems = xa ++ x :: mid ++ [z] /\ args_outcome args w = Some (inr x, w1).
Proof.
  intros Hf. unfold insert_in_place.
  destruct (args_outcome args w) as [[[e|tmp] w0]|] eqn:Hao; [done| |done].
  destruct (move_construct z w0) as [[[e|y] z'] w1] eqn:Hz.
  { by destruct is_nothrow_move_constructible. }
  destruct (move_chain z' (rev mid) w1) as [[seg [e|]] w2] eqn:Hmc; [done|].
  destruct (faithful_move_chain _ _ _ _ _ Hf Hmc) as [m ->].
  rewrite rev_app_distr, rev_involutive. cbn.
  destruct (move_assign m tmp w2) as [[[[e|] d'] tmp'] w3] eqn:Hma; [done|].
  intros [= <- _]. exists tmp, w0. split; [|done].
  rewrite (move_assign_value Hf _ _ _ _ _ _ Hma), (move_construct_value Hf _ _ _ _ _ Hz).
  done.
Qed.

Lemma faithful_erase_at xa d xb w elems w' :
  faithful -> erase_at xa d xb w = Done elems w' -> elems = xa ++ xb.
Proof.
  intros Hf. unfold erase_at.
  destruct (move_chain d xb w) as [[seg [e|]] w1] eqn:Hmc; [done|].
  destruct (faithful_move_chain _ _ _ _ _ Hf Hmc) as [m ->].
  rewrite rev_app_distr. cbn. intros [= <- _]. by rewrite rev_involutive.
Qed.

Lemma read_at s v buf xs cap i x :
  vec_at s v buf xs cap -> xs !! i = Some x -> read_obj (iter buf i) s = Ok x s.
Proof.
  intros [_ _ Hle Hbuf _] Hx. pose proof (lookup_lt_Some _ _ _ Hx) as Hi.
  destruct buf as [|h j]; [lia|]. destruct Hbuf as (-> & _ & Hh).
  unfold read_obj, slot_of, iter, shift. rewrite Hh. cbn [Nat.add]. unfold block_of.
  rewrite lookup_app_l by (rewrite length_fmap; lia).
  by rewrite list_lookup_fmap, Hx.
Qed.

(** A completed [Emplace] before index [length xa], for an element type
    that keeps its values: the elements before and behind the position
    are the ones that were there, in their order; within the capacity the
    buffer is the old one. *)
Lemma Emplace_exact s this b1 xa xb c1 args :
  faithful ->
  vec_at s this b1 (xa ++ xb) c1 ->
  representable 1 ->
  match VectorH.Emplace this (iter b1 (length xa)) args s with
  | Ok p s' =>
      exists b' x w0 w1,
        args_outcome args w0 = Some (inr x, w1)
        /\ vec_at s' this b' (xa ++ x :: xb)
             (if length (xa ++ xb) =? c1 then grown c1 else c1)
        /\ p = iter b' (length xa)
        /\ leaked s' = leaked s
        /\ (length (xa ++ xb) < c1 -> b' = b1)
  | Exn _ _ | Aborted => True
  | Undefined => False
  end.
Proof.
  intros Hf Ht Hrep. destruct (Nat.eqb_spec (length (xa ++ xb)) c1) as [Hfull|Hroom].
  - rewrite (VectorH_Emplace_full_eval this b1 xa xb c1) by done.
    unfold commit_realloc.
    destruct (realloc_insert (xa ++ xb) (length xa) args (world s))
      as [elems w'|e elems w'|] eqn:Hins; [|done|done].
    apply faithful_realloc_insert in Hins as (x & w0 & w1 & Hel & Hal & Hao);
      [|done|list_len].
    rewrite take_app_length, drop_app_length in Hel. subst elems.
    exists (Ptr (free_block s) 0), x, w0, w1. rewrite <- Hfull at 1.
    split; [done|]. split; [|split; [done|split; [done|lia]]].
    eapply vec_at_realloc; [done|list_len|done].
  - pose proof Ht as [_ _ Hle Hbuf _].
    destruct b1 as [|h1 i1]; [lia|]. destruct Hbuf as (-> & _ & _).
    destruct s as [R Z hp L w]. cbn [iter shift Nat.add].
    destruct xb as [|z mid _] using rev_ind.
    + rewrite app_nil_r in *.
      rewrite (VectorH_Emplace_end_eval this h1 xa c1) by (done || lia).
      unfold commit_in_place, append_in_place.
      destruct (args_outcome args w) as [[[e|x] w']|] eqn:Hao; [done| |done]. csimp.
      exists (Ptr h1 0), x, w, w'.
      split; [done|]. split; [|done].
      replace (S (length xa)) with (length (xa ++ [x])) by list_len.
      eapply vec_at_in_place; [done|list_len].
    + rewrite (VectorH_Emplace_middle_eval this h1 xa mid z c1) by (done || lia).
      unfold commit_in_place.
      destruct (insert_in_place xa mid z args w) as [elems w'|e elems w'|] eqn:Hins;
        [|done|done].
      pose proof Hins as Hdone. apply insert_in_place_done in Hdone as (Hlen & _).
      apply faithful_insert_in_place in Hins as (x & w1 & -> & Hao); [|done]. csimp.
      exists (Ptr h1 0), x, w, w1.
      split; [done|]. split; [|done]. rewrite <- Hlen.
      eapply vec_at_in_place; [done|lia].
Qed.

Lemma Insert_exact (s : st) (this : positive) (b1 : ptr) (xa xb : list T)
    (c1 : nat) (v : T) (ins : positive -> ptr -> T -> M st ptr) :
  is_Insert ins ->
  faithful ->
  representable 1 ->
  vec_at s this b1 (xa ++ xb) c1 ->
  match ins this (iter b1 (length xa)) v s with
  | Ok p s' =>
      exists b',
        vec_at s' this b' (xa ++ v :: xb) (if length (xa ++ xb) =? c1 then grown c1 else c1)
        /\ p = iter b' (length xa)
        /\ read_obj p s' = Ok v s'
        /\ leaked s' = leaked s
        /\ (length (xa ++ xb) < c1 -> b' = b1)
  | Exn _ _ | Aborted => True
  | Undefined => False
  end.
Proof.
  intros Hins Hf Hrep Ht.
  assert (exists args, (args = FromLvalue v \/ args = FromRvalue v)
            /\ ins this (iter b1 (length xa)) v s
               = VectorH.Emplace this (iter b1 (length xa)) args s) as (args & Hargs & ->).
  { destruct Hins as [-> | [-> | [-> | ->]]].
    - exists (FromLvalue v). split; [by left|done].
    - exists (FromRvalue v). split; [by right|done].
    - exists (FromLvalue v). split; [by left|]. unfold Part000.Insert.
      by destruct (Emplace_commit s this b1 xa xb c1 (FromLvalue v) Ht Hrep) as [-> _].
    - exists (FromRvalue v). split; [by right|]. unfold Part000.Insert_rvalue.
      by destruct (Emplace_commit s this b1 xa xb c1 (FromRvalue v) Ht Hrep) as [-> _]. }
  pose proof (Emplace_exact s this b1 xa xb c1 args Hf Ht Hrep) as Hex.
  destruct (VectorH.Emplace this (iter b1 (length xa)) args s) as [p s'|e s'| |]; try done.
  destruct Hex as (b' & x & w0 & w1 & Hao & Ht' & -> & Hleak & Hsame).
  rewrite (faithful_args_outcome args w0 x w1 v Hf Hargs Hao) in Ht'.
  exists b'. split; [done|]. split; [done|]. split; [|done].
  eapply read_at; [done|]. by apply lookup_middle.
Qed.

(** X3: [Insert] for an element type that keeps its values.  When
    [Insert(pos, value)] completes on a vector holding [xa ++ xb], with
    [pos = begin() + length xa], the vector holds [xa ++ value :: xb]: the
    value stands at the position and the other elements keep their order.
    The iterator returned points to it, and reading through it gives
    [value].  The capacity has grown exactly when the vector was full;
    when it had room the buffer is the old one.  Nothing was leaked.
    Both overloads, both versions. *)
Theorem Insert_places_value (s : st) (this : positive) (b1 : ptr) (xa xb : list T)
    (c1 : nat) (v : T) (ins : positive -> ptr -> T -> M st ptr) :
  is_Insert ins ->
  faithful ->
  representable 1 ->
  vec_at s this b1 (xa ++ xb) c1 ->
  match ins this (iter b1 (length xa)) v s with
  | Ok p s' =>
      exists b',
        vec_at s' this b' (xa ++ v :: xb) (if length (xa ++ xb) =? c1 then grown c1 else c1)
        /\ p = iter b' (length xa)
        /\ read_obj p s' = Ok v s'
        /\ leaked s' = leaked s
        /\ (length (xa ++ xb) < c1 -> b' = b1)
  | Exn _ _ | Aborted => True
  | Undefined => False
  end.
Proof. apply Insert_exact. Qed.


Lemma Erase_exact s this b1 xa d xb c1 (ers : positive -> ptr -> M st ptr) :
  is_Erase ers ->
  faithful ->
  vec_at s this b1 (xa ++ d :: xb) c1 ->
  match ers this (iter b1 (length xa)) s with
  | Ok p s' =>
      vec_at s' this b1 (xa ++ xb) c1 /\ p = iter b1 (length xa) /\ leaked s' = leaked s
  | Exn _ _ => True
  | Undefined | Aborted => False
  end.
Proof.
  intros Hers Hf Ht.
  assert (ers this (iter b1 (length xa)) s = VectorH.Erase this (iter b1 (length xa)) s) as ->.
  { destruct Hers as [-> | ->]; [done|].
    by destruct (Erase_position s this b1 xa d xb c1 Ht) as [-> _]. }
  pose proof Ht as [_ _ Hle Hbuf _].
  destruct b1 as [|h1 i1]; [subst c1; rewrite length_app in Hle; cbn in Hle; lia|].
  destruct Hbuf as (-> & _ & _).
  destruct s as [R Z hp L w]. cbn [iter shift Nat.add].
  rewrite (VectorH_Erase_eval this h1 xa d xb c1) by done.
  unfold commit_in_place.
  destruct (erase_at xa d xb w) as [elems w'|e elems w'|] eqn:Hers'; [|done|].
  - apply faithful_erase_at in Hers' as ->; [|done]. csimp.
    split; [|done]. eapply vec_at_in_place; [done|]. list_len.
  - pose proof (erase_at_done xa d xb w) as Hd. by rewrite Hers' in Hd.
Qed.

(** X4: [Erase] for an element type that keeps its values.  When
    [Erase(pos)] completes on a vector holding [xa ++ d :: xb], with [pos]
    the position of [d], the vector holds [xa ++ xb] in the same buffer
    with the same capacity: exactly [d] is gone and the other elements
    keep their order.  The iterator returned is [pos].  [Erase] has no
    undefined behaviour at the position of an element and does not end
    the program.  Both versions. *)
Theorem Erase_removes_element (s : st) (this : positive) (b1 : ptr) (xa : list T) (d : T)
    (xb : list T) (c1 : nat) (ers : positive -> ptr -> M st ptr) :
  is_Erase ers ->
  faithful ->
  vec_at s this b1 (xa ++ d :: xb) c1 ->
  match ers this (iter b1 (length xa)) s with
  | Ok p s' =>
      vec_at s' this b1 (xa ++ xb) c1 /\ p = iter b1 (length xa) /\ leaked s' = leaked s
  | Exn _ _ => True
  | Undefined | Aborted => False
  end.
Proof. apply Erase_exact. Qed.

(** X5: inserting a value and erasing at the iterator [Insert] returned
    gives back the elements the vector had, in their order, for an
    element type that keeps its values.  The capacity is the one [Insert]
    left: grown when the vector was full. *)
Theorem Insert_then_Erase (s : st) (this : positive) (b1 : ptr) (xa xb : list T)
    (c1 : nat) (v : T) (ins : positive -> ptr -> T -> M st ptr)
    (ers : positive -> ptr -> M st ptr) :
  is_Insert ins ->
  is_Erase ers ->
  faithful ->
  representable 1 ->
  vec_at s this b1 (xa ++ xb) c1 ->
  match (p <- ins this (iter b1 (length xa)) v ;; ers this p) s with
  | Ok p' s' =>
      exists b',
        vec_at s' this b' (xa ++ xb) (if length (xa ++ xb) =? c1 then grown c1 else c1)
        /\ p' = iter b' (length xa)
        /\ leaked s' = leaked s
  | Exn _ _ | Aborted => True
  | Undefined => False
  end.
Proof.
  intros Hins Hers Hf Hrep Ht. unfold bind.
  pose proof (Insert_exact s this b1 xa xb c1 v ins Hins Hf Hrep Ht) as Hi.
  destruct (ins this (iter b1 (length xa)) v s) as [p s1|e s1| |]; try done.
  destruct Hi as (b' & Ht1 & -> & _ & Hl1 & _).
  pose proof (Erase_exact s1 this b' xa v xb _ ers Hers Hf Ht1) as He.
  destruct (ers this (iter b' (length xa)) s1) as [p' s2|e s2| |]; try done.
  destruct He as (Ht2 & -> & Hl2). exists b'. split; [done|]. split; [done|]. congruence.
Qed.

(** What a completed [EmplaceBack] leaves and returns: a pointer to the
    new last element, which is the object constructed from the
    arguments.  Within the capacity the buffer is the old one.  A failed
    one leaves the state it found when relocation is safe. *)
Lemma EmplaceBack_exact s this b1 xs c1 args :
  vec_at s this b1 xs c1 ->
  representable 1 ->
  Part000.EmplaceBack this args s = VectorH.EmplaceBack this args s
  /\ match VectorH.EmplaceBack this args s with
     | Ok p s' =>
         exists b' elems x w0 w1,
           args_outcome args w0 = Some (inr x, w1)
           /\ vec_at s' this b' (elems ++ [x]) (if length xs =? c1 then grown c1 else c1)
           /\ length elems = length xs
           /\ (faithful -> elems = xs)
           /\ p = iter b' (length xs)
           /\ leaked s' = leaked s
           /\ (length xs < c1 -> b' = b1 /\ elems = xs)
     | Exn _ _ | Aborted => True
     | Undefined => False
     end.
Proof.
  intros Ht Hrep.
  split; [by apply (EmplaceBack_step s this b1 xs c1)|].
  unfold VectorH.EmplaceBack, bind. rewrite (end_eval s this b1 xs c1 Ht).
  destruct (Nat.eqb_spec (length xs) c1) as [Hfull|Hroom].
  - pose proof Ht as Ht0. rewrite <- (app_nil_r xs) in Ht.
    rewrite (VectorH_Emplace_full_eval this b1 xs [] c1) by (done || by rewrite app_nil_r).
    rewrite app_nil_r in *. unfold commit_realloc.
    destruct (realloc_insert xs (length xs) args (world s))
      as [elems w'|e elems w'|] eqn:Hins; [|done|done].
    pose proof Hins as Hdone.
    apply realloc_insert_done in Hdone as (x & ys1 & ys2 & w0 & w1 & He & Hl1 & Hl2 & Hal & Hao);
      [|lia].
    destruct ys2; [|cbn in Hl2; lia]. subst elems.
    exists (Ptr (free_block s) 0), ys1, x, w0, w1. rewrite <- Hfull at 1.
    split; [done|]. split; [|split; [done|split; [|split; [done|split; [done|lia]]]]].
    + eapply vec_at_realloc; [done|list_len|done].
    + intros Hf. apply faithful_realloc_insert in Hins as (x' & _ & _ & Hel & _); [|done|lia].
      rewrite take_ge, drop_ge in Hel by lia. by apply app_inj_tail in Hel as [? _].
  - pose proof Ht as [_ _ Hle Hbuf _].
    destruct b1 as [|h1 i1]; [lia|]. destruct Hbuf as (-> & _ & _).
    destruct s as [R Z hp L w]. cbn [iter shift Nat.add].
    rewrite (VectorH_Emplace_end_eval this h1 xs c1) by (done || lia).
    unfold commit_in_place, append_in_place.
    destruct (args_outcome args w) as [[[e|x] w']|] eqn:Hao; [done| |done]. csimp.
    exists (Ptr h1 0), xs, x, w, w'.
    split; [done|]. split; [|done].
    replace (S (length xs)) with (length (xs ++ [x])) by list_len.
    eapply vec_at_in_place; [done|list_len].
Qed.

(** X6: [EmplaceBack] returns a reference to the element it appended.
    When it completes, the vector has one element more, the last one is
    the object constructed from the arguments, and reading through the
    returned reference gives that object.  Both versions return the same. *)
Theorem EmplaceBack_returns_new_last (s : st) (this : positive) (b1 : ptr) (xs : list T)
    (c1 : nat) (args : ctor_args T A) :
  vec_at s this b1 xs c1 ->
  representable 1 ->
  Part000.EmplaceBack this args s = VectorH.EmplaceBack this args s
  /\ match VectorH.EmplaceBack this args s with
     | Ok p s' =>
         exists b' elems x w0 w1,
           args_outcome args w0 = Some (inr x, w1)
           /\ vec_at s' this b' (elems ++ [x]) (if length xs =? c1 then grown c1 else c1)
           /\ length elems = length xs
           /\ read_obj p s' = Ok x s'
     | Exn _ _ | Aborted => True
     | Undefined => False
     end.
Proof.
  intros Ht Hrep. destruct (EmplaceBack_exact s this b1 xs c1 args Ht Hrep) as [Heq Hres].
  split; [done|].
  destruct (VectorH.EmplaceBack this args s) as [p s'|e s'| |]; try done.
  destruct Hres as (b' & elems & x & w0 & w1 & Hao & Ht' & Hlen & _ & -> & _).
  exists b', elems, x, w0, w1. split; [done|]. split; [done|]. split; [done|].
  eapply read_at; [done|]. rewrite <- Hlen. by apply lookup_middle.
Qed.

Lemma PushBack_exact push s this b1 xs c1 x :
  is_PushBack push ->
  faithful ->
  vec_at s this b1 xs c1 ->
  representable 1 ->
  match push this x s with
  | Ok _ s' =>
      exists b',
        vec_at s' this b' (xs ++ [x]) (if length xs =? c1 then grown c1 else c1)
        /\ leaked s' = leaked s
        /\ (length xs < c1 -> b' = b1)
  | Exn _ _ | Aborted => True
  | Undefined => False
  end.
Proof.
  intros Hpush Hf Ht Hrep.
  assert (exists args, (args = FromLvalue x \/ args = FromRvalue x)
            /\ push this x s = (VectorH.EmplaceBack this args ;; ret tt) s)
    as (args & Hargs & ->).
  { destruct Hpush as [-> | [-> | [-> | ->]]].
    - exists (FromLvalue x). split; [by left|done].
    - exists (FromRvalue x). split; [by right|done].
    - exists (FromLvalue x). split; [by left|]. unfold Part000.PushBack, bind.
      by destruct (EmplaceBack_exact s this b1 xs c1 (FromLvalue x) Ht Hrep) as [-> _].
    - exists (FromRvalue x). split; [by right|]. unfold Part000.PushBack_rvalue, bind.
      by destruct (EmplaceBack_exact s this b1 xs c1 (FromRvalue x) Ht Hrep) as [-> _]. }
  destruct (EmplaceBack_exact s this b1 xs c1 args Ht Hrep) as [_ Hres]. unfold bind.
  destruct (VectorH.EmplaceBack this args s) as [p s'|e s'| |]; try done. cbn.
  destruct Hres as (b' & elems & y & w0 & w1 & Hao & Ht' & _ & Hel & _ & Hleak & Hsame).
  rewrite (Hel Hf) in Ht'. rewrite (faithful_args_outcome args w0 y w1 x Hf Hargs Hao) in Ht'.
  exists b'. split; [done|]. split; [done|]. intros Hlt. by destruct (Hsame Hlt).
Qed.

(** X7: [PushBack] followed by [PopBack] gives back the elements the
    vector had, for an element type that keeps its values.  When the
    vector had room the buffer and the capacity are the old ones; when it
    was full the capacity stays grown.  Nothing is leaked. *)
Theorem PushBack_then_PopBack (s : st) (this : positive) (b1 : ptr) (xs : list T)
    (c1 : nat) (x : T) (push : positive -> T -> M st unit) (pop : positive -> M st unit) :
  is_PushBack push ->
  is_PopBack pop ->
  faithful ->
  representable 1 ->
  vec_at s this b1 xs c1 ->
  match (push this x ;; pop this) s with
  | Ok _ s' =>
      exists b',
        vec_at s' this b' xs (if length xs =? c1 then grown c1 else c1)
        /\ leaked s' = leaked s
        /\ (length xs < c1 -> b' = b1)
  | Exn _ _ | Aborted => True
  | Undefined => False
  end.
Proof.
  intros Hpush Hpop Hf Hrep Ht. unfold bind.
  pose proof (PushBack_exact push s this b1 xs c1 x Hpush Hf Ht Hrep) as Hp.
  destruct (push this x s) as [[] s1|e s1| |]; try done.
  destruct Hp as (b' & Ht1 & Hl1 & Hsame).
  destruct (PopBack_nonempty s1 this b' xs x _ Ht1) as (s2 & H1 & H2 & Ht2 & _ & _ & Hl2).
  assert (pop this s1 = Ok tt s2) as -> by (by destruct Hpop as [-> | ->]).
  exists b'. split; [done|]. split; [congruence|done].
Qed.

Lemma push_all_in_place push this ys : forall s b1 xs c1,
  is_PushBack push ->
  faithful ->
  representable 1 ->
  vec_at s this b1 xs c1 ->
  length xs + length ys <= c1 ->
  match push_all push this ys s with
  | Ok _ s' => vec_at s' this b1 (xs ++ ys) c1 /\ leaked s' = leaked s
  | Exn _ _ | Aborted => True
  | Undefined => False
  end.
Proof.
  induction ys as [|y ys IH]; intros s b1 xs c1 Hpush Hf Hrep Ht Hfit; cbn [push_all length] in *.
  - by rewrite app_nil_r.
  - unfold bind.
    pose proof (PushBack_exact push s this b1 xs c1 y Hpush Hf Ht Hrep) as Hp.
    destruct (push this y s) as [[] s1|e s1| |]; try done.
    destruct Hp as (b' & Ht1 & Hl1 & Hsame).
    rewrite (proj2 (Nat.eqb_neq (length xs) c1)) in Ht1 by lia.
    rewrite (Hsame ltac:(lia)) in Ht1.
    specialize (IH s1 b1 (xs ++ [y]) c1 Hpush Hf Hrep Ht1).
    rewrite length_app in IH. cbn in IH. specialize (IH ltac:(lia)).
    destruct (push_all push this ys s1) as [[] s2|e s2| |]; try done.
    rewrite <- app_assoc in IH. cbn in IH. destruct IH as [? ?]. split; [done|congruence].
Qed.

(** X8: within the capacity nothing is reallocated.  When the values
    [ys] fit into the spare capacity, pushing them one after the other
    keeps the buffer and the capacity, so pointers and iterators to the
    elements stay valid; for an element type that keeps its values the
    vector then holds [xs ++ ys]. *)
Theorem pushes_within_capacity_keep_buffer (s : st) (this : positive) (b1 : ptr)
    (xs ys : list T) (c1 : nat) (push : positive -> T -> M st unit) :
  is_PushBack push ->
  faithful ->
  representable 1 ->
  vec_at s this b1 xs c1 ->
  length xs + length ys <= c1 ->
  match push_all push this ys s with
  | Ok _ s' => vec_at s' this b1 (xs ++ ys) c1 /\ leaked s' = leaked s
  | Exn _ _ | Aborted => True
  | Undefined => False
  end.
Proof. intros. by eapply push_all_in_place. Qed.

End Faithful.


(** ** [Reserve], [Resize], construction and destruction *)

Section Capacity.
Context {T A W : Type} {HE : Element T A W} {HB : Build}.
Local Abbreviation st := (state T W).
Implicit Types (hp : gmap positive (list (option T))) (R : gmap positive RawMemoryObj)
  (Z : gmap positive nat) (L : list T) (w : W) (xs ys : list T) (s : st).

Lemma Reserve_small s this buf xs cap n :
  vec_at s this buf xs cap -> n <= cap -> Vector.Reserve this n s = Ok tt s.
Proof.
  intros [T1 _ _ _ _] Hle. destruct s as [R Z hp L w]. csimp in *.
  unfold Vector.Reserve. crun. done.
Qed.

Lemma Reserve_exact s this buf xs cap n :
  vec_at s this buf xs cap ->
  representable n ->
  cap < n ->
  match Vector.Reserve this n s with
  | Ok _ s' =>
      exists ys,
        vec_at s' this (Ptr (free_block s) 0) ys n
        /\ length ys = length xs
        /\ (faithful -> ys = xs)
        /\ leaked s' = leaked s
        /\ (forall h i, buf = Ptr h i -> heap s' !! h = None)
  | Exn e s' => safe_relocation -> exists w', s' = set_world w' s
  | Aborted => True
  | Undefined => False
  end.
Proof.
  intros Ht Hrep Hlt. pose proof (with_elements_same _ _ _ _ _ Ht) as Hsame.
  pose proof (free_block_heap s) as Hfree.
  destruct s as [R Z hp L w]. csimp in *.
  rewrite (Reserve_eval this buf xs cap n) by done.
  generalize dependent (free_block (State R Z hp L w)). intros fb Hfree.
  destruct (allocation n w) as [[|] w'] eqn:Hal; [|intros _; by eexists].
  pose proof (relocate_list_length xs w') as Hlen.
  destruct (relocate_list xs w') as [[[ys srcs] [e|]] w''] eqn:Hrl.
  - destruct (relocates_by_move && is_nothrow_move_constructible); [done|].
    intros Hsafe. destruct (safe_relocation_fails _ _ _ _ _ _ Hsafe Hrl) as [_ ->].
    rewrite Hsame. by eexists.
  - destruct Hlen as (_ & _ & Hlen). specialize (Hlen eq_refl).
    pose proof Ht as [T1 T2 T3 T4 T5]. csimp in *.
    exists ys. split; [|split; [done|split; [|split; [done|]]]].
    + apply vec_at_installed.
      * by rewrite lookup_insert_eq.
      * by rewrite Hlen.
      * lia.
      * lia.
      * by eapply allocation_bound.
      * intros h1 i -> ->. destruct T4 as (_ & _ & T6). congruence.
    + intros Hf. by eapply faithful_relocate_list.
    + intros h i ->. unfold released. by rewrite lookup_delete_eq.
Qed.

(** X9: [Reserve(n)] for a request whose byte count [n * sizeof(T)] fits
    [size_t].  A request that the capacity already covers changes
    nothing.  A larger request that completes gives the vector a new
    buffer of exactly the requested capacity and releases the old one; the
    size is unchanged, the elements are the relocated ones (the same
    values, for an element type that keeps its values), and nothing is
    leaked.  When relocation is safe, a failed [Reserve] leaves the state
    it found.  (A request whose byte count does not fit [size_t] is not
    covered: [Allocate] then asks for the wrapped count, X21.) *)
Theorem Reserve_effect (s : st) (this : positive) (buf : ptr) (xs : list T) (cap n : nat) :
  vec_at s this buf xs cap ->
  representable n ->
  (n <= cap -> Vector.Reserve this n s = Ok tt s)
  /\ (cap < n ->
      match Vector.Reserve this n s with
      | Ok _ s' =>
          exists ys,
            vec_at s' this (Ptr (free_block s) 0) ys n
            /\ length ys = length xs
            /\ (faithful -> ys = xs)
            /\ leaked s' = leaked s
            /\ (forall h i, buf = Ptr h i -> heap s' !! h = None)
      | Exn e s' => safe_relocation -> exists w', s' = set_world w' s
      | Aborted => True
      | Undefined => False
      end).
Proof.
  intros Ht Hrep. split.
  - intros Hle. by eapply Reserve_small.
  - intros Hlt. by apply (Reserve_exact s this buf xs cap n).
Qed.

(** X10: reserving and then pushing, for a request whose byte count
    [n * sizeof(T)] fits [size_t].  After [Reserve(n)], pushing values
    that fit into [n] reallocates nothing more: for an element type that
    keeps its values the vector ends with the old elements followed by
    the pushed ones, and its capacity is the larger of the old capacity
    and [n]. *)
Theorem Reserve_then_push_all (s : st) (this : positive) (buf : ptr) (xs ys : list T)
    (cap n : nat) (push : positive -> T -> M st unit) :
  is_PushBack push ->
  faithful ->
  representable 1 ->
  representable n ->
  vec_at s this buf xs cap ->
  length xs + length ys <= n ->
  match (Vector.Reserve this n ;; push_all push this ys) s with
  | Ok _ s' =>
      exists b', vec_at s' this b' (xs ++ ys) (Nat.max cap n) /\ leaked s' = leaked s
  | Exn _ _ | Aborted => True
  | Undefined => False
  end.
Proof.
  intros Hpush Hf Hrep1 Hrep Ht Hfit. unfold bind.
  destruct (decide (n <= cap)) as [Hle|Hgt].
  - rewrite (Reserve_small s this buf xs cap n Ht Hle).
    pose proof (push_all_in_place push this ys s buf xs cap Hpush Hf Hrep1 Ht) as Hp.
    specialize (Hp ltac:(lia)).
    destruct (push_all push this ys s) as [[] s2|e s2| |]; try done.
    exists buf. by rewrite Nat.max_l by lia.
  - pose proof (Reserve_exact s this buf xs cap n Ht Hrep ltac:(lia)) as Hr.
    destruct (Vector.Reserve this n s) as [[] s1|e s1| |]; try done.
    destruct Hr as (ys' & Ht1 & _ & Hel & Hl1 & _). rewrite (Hel Hf) in Ht1.
    pose proof (push_all_in_place push this ys s1 _ xs n Hpush Hf Hrep1 Ht1 Hfit) as Hp.
    destruct (push_all push this ys s1) as [[] s2|e s2| |]; try done.
    destruct Hp as [? ?]. eexists. rewrite Nat.max_r by lia. split; [done|congruence].
Qed.



Lemma set_size_eval s this buf xs cap n :
  vec_at s this buf xs cap ->
  set_size this n s = Ok tt (set_sizes <[this := n]> s).
Proof. intros [_ T2 _ _ _]. unfold set_size. by rewrite T2. Qed.



End Capacity.


(** ** Construction, destruction, element access, swap *)

Section Lifetime.
Context {T A W : Type} {HE : Element T A W} {HB : Build}.
Local Abbreviation st := (state T W).
Implicit Types (hp : gmap positive (list (option T))) (R : gmap positive RawMemoryObj)
  (Z : gmap positive nat) (L : list T) (w : W) (xs ys : list T) (s : st).

Lemma value_list_world n w vs w' :
  value_list n w = (vs, None, w') -> length vs = n.
Proof.
  intros Hv. pose proof (value_list_length n w) as Hl. rewrite Hv in Hl. by apply Hl.
Qed.


Lemma dtor_eval s v buf xs cap :
  vec_at s v buf xs cap ->
  Vector.dtor v s
  = Ok tt (State (delete v (raws s)) (delete v (sizes s)) (released buf (heap s))
             (leaked s) (destroy_all xs (world s))).
Proof.
  intros Ht. destruct s as [R Z hp L w]. pose proof Ht as [T1 T2 T3 T4 T5]. csimp in *.
  unfold Vector.dtor. crun.
  destruct buf as [|h i].
  - subst cap. destruct xs; [|csimp in *; lia]. crun. done.
  - destruct T4 as (-> & T4 & T6). unfold block_of in T6.
    erewrite (destroy_n_eval h xs 0 []); [| lk | done].
    crun. rewrite <- replicate_add, live_objects_raw, app_nil_r. unfold released.
    do 2 f_equal; try map_norm.
Qed.

(** X13: [~Vector].  The destructor destroys the elements from the first
    to the last, releases the buffer and ends the two members.  It cannot
    fail and leaks nothing; other objects and blocks stay as they are. *)
Theorem dtor_releases_everything (s : st) (v : positive) (buf : ptr) (xs : list T)
    (cap : nat) :
  vec_at s v buf xs cap ->
  exists s', Vector.dtor v s = Ok tt s'
    /\ raws s' = delete v (raws s) /\ sizes s' = delete v (sizes s)
    /\ heap s' = released buf (heap s)
    /\ world s' = destroy_all xs (world s)
    /\ leaked s' = leaked s.
Proof. intros Ht. rewrite (dtor_eval s v buf xs cap Ht). by eexists. Qed.

(** X14: a vector that is constructed with a size whose byte count
    [size * sizeof(T)] fits [size_t], and then destroyed, leaves no
    trace: whether the constructor completes or throws, the objects, the
    blocks and the list of leaked elements are the ones before, and only
    the world has seen the constructors and destructors run.  (A size
    whose byte count does not fit [size_t] is not covered.) *)
Theorem scoped_ctor_size_leaves_no_trace (s : st) (n : nat) :
  representable n ->
  match Vector.scoped (fun l => Vector.ctor_size l n) (fun _ => ret tt) s with
  | Ok _ s' | Exn _ s' => exists w', s' = set_world w' s
  | Undefined | Aborted => False
  end.
Proof.
  intros Hrep. unfold Vector.scoped, alloca, bind at 1.
  pose proof (free_address_raws s) as Hr. pose proof (free_address_sizes s) as Hz.
  generalize dependent (free_address s). intros l Hr Hz.
  unfold bind at 1.
  pose proof (free_block_heap s) as Hfb.
  destruct s as [R Z hp L w]. csimp in *.
  destruct n as [|n].
  - rewrite ctor_size_zero. unfold finally, ret. cbv beta iota. unfold bind at 1.
    rewrite (dtor_eval _ l nullptr [] 0) by apply vec_at_null. csimp.
    exists w. unfold set_world. csimp. f_equal; by rewrite delete_insert_eq, delete_id.
  - rewrite ctor_size_eval by (done || lia).
    generalize dependent (free_block (State R Z hp L w)). intros fb Hfb.
    destruct (allocation (S n) w) as [[|] w'] eqn:Hal; [|by eexists].
    destruct (value_list (S n) w') as [[vs [e|]] w''] eqn:Hvl; [by eexists|].
    pose proof (value_list_world _ _ _ _ Hvl) as Hlen.
    unfold finally, ret. cbv beta iota. unfold bind at 1.
    erewrite (dtor_eval _ l (Ptr fb 0) vs (S n)).
    2:{ eapply vec_at_new; [done|lia|]. by eapply allocation_bound. }
    csimp. eexists. unfold released, set_world. csimp.
    f_equal; by rewrite delete_insert_eq, delete_id.
Qed.

Lemma index_in_bounds s v buf xs cap i x :
  vec_at s v buf xs cap -> xs !! i = Some x ->
  Vector.index v i s = Ok (iter buf i) s.
Proof.
  intros Ht Hx. pose proof (lookup_lt_Some _ _ _ Hx) as Hi.
  destruct s as [R Z hp L w]. destruct Ht as [T1 T2 T3 T4 T5]. csimp in *.
  destruct buf as [|h j]; [lia|]. destruct T4 as (-> & T4 & T6).
  assert (i <= length (block_of xs cap)) by (unfold block_of; list_len).
  unfold Vector.index. crun. done.
Qed.

Lemma index_out_of_bounds s v buf xs cap i :
  vec_at s v buf xs cap -> length xs <= i ->
  (p <- Vector.index v i ;; read_obj p) s = if NDEBUG then Undefined else Aborted.
Proof.
  intros Ht Hi.
  destruct s as [R Z hp L w]. destruct Ht as [T1 T2 T3 T4 T5]. csimp in *.
  unfold Vector.index, read_obj, slot_of. autounfold with cpp. crun.
  unfold assert_. destruct NDEBUG; [|done]. crun.
  destruct buf as [|h j].
  - unfold ptr_add. destruct i; csimp; done.
  - destruct T4 as (-> & T4 & T6). unfold ptr_add. csimp. rewrite T6. cbn [Nat.add].
    destruct (Nat.leb_spec i (length (block_of xs cap))) as [Hle|Hgt]; [|done].
    csimp. rewrite T6. unfold block_of in *.
    rewrite lookup_app_r by (rewrite length_fmap; lia).
    destruct (replicate (cap - length xs) (@None T) !! (i - length (Some <$> xs)))
      as [o|] eqn:Hl; [|done].
    apply lookup_replicate in Hl as [-> _]. done.
Qed.

(** X15: [operator[]].  For an index below the size the reference is the
    address of that element, [begin() + index], and reading through it
    gives the element; the state is not changed.  For an index at or
    beyond the size nothing is read: with assertions compiled in the
    program stops, and without them the access is undefined. *)
Theorem index_access (s : st) (v : positive) (buf : ptr) (xs : list T) (cap i : nat) :
  vec_at s v buf xs cap ->
  (forall x, xs !! i = Some x ->
     Vector.index v i s = Ok (iter buf i) s /\ read_obj (iter buf i) s = Ok x s)
  /\ (length xs <= i ->
      (p <- Vector.index v i ;; read_obj p) s = if NDEBUG then Undefined else Aborted).
Proof.
  intros Ht. split.
  - intros x Hx. split; [by eapply index_in_bounds|by eapply read_at].
  - intros Hi. by eapply index_out_of_bounds.
Qed.

Lemma begin_eval s v buf xs cap :
  vec_at s v buf xs cap -> Vector.begin v s = Ok buf s.
Proof.
  destruct s as [R Z hp L w]. intros [T1 _ _ _ _]. csimp in *.
  unfold Vector.begin. crun. done.
Qed.

(** X16: the iterator range.  [begin()] is the address of the buffer,
    [end()] lies [Size()] elements behind it, so [end() - begin()] is
    [Size()]; [cbegin()] and [cend()] return the same as [begin()] and
    [end()].  None of them changes the state. *)
Theorem iterator_range (s : st) (v : positive) (buf : ptr) (xs : list T) (cap : nat) :
  vec_at s v buf xs cap ->
  Vector.begin v s = Ok buf s
  /\ Vector.end_ v s = Ok (iter buf (length xs)) s
  /\ Vector.cbegin v s = Vector.begin v s
  /\ Vector.cend v s = Vector.end_ v s
  /\ (e <- Vector.end_ v ;; b <- Vector.begin v ;; ptr_diff e b) s = Ok (length xs) s.
Proof.
  intros Ht. pose proof (begin_eval s v buf xs cap Ht) as Hb.
  pose proof (end_eval s v buf xs cap Ht) as He.
  split; [done|]. split; [done|].
  split; [unfold Vector.cbegin, noexcept; by rewrite Hb|].
  split; [unfold Vector.cend, noexcept; by rewrite He|].
  unfold bind. rewrite He, Hb. unfold iter, shift, ptr_diff.
  destruct buf as [|h j]; [by destruct Ht as [_ _ ? ? _]; subst; destruct xs; [|cbn in *; lia]|].
  rewrite decide_True by done. by rewrite size_sub_le, Nat.add_comm, Nat.add_sub by lia.
Qed.

Lemma Swap_same R Z hp L w a ra na :
  R !! a = Some ra -> Z !! a = Some na ->
  Vector.Swap a a (State R Z hp L w) = Ok tt (State R Z hp L w).
Proof.
  intros Ha Hna. unfold Vector.Swap, noexcept, bind.
  rewrite (std_swap_self _ _ _ _ _ a ra) by done.
  autounfold with cpp. crun. do 2 f_equal. map_norm.
Qed.

(** X17: [Swap].  Swapping two vectors exchanges their buffers,
    capacities and sizes, hence their elements, without touching an
    element: the blocks and the world are unchanged.  It cannot fail,
    swapping again restores the state exactly, and swapping a vector with
    itself changes nothing. *)
Theorem Swap_exchanges (s : st) (a b : positive) (b1 b2 : ptr) (xs ys : list T)
    (c1 c2 : nat) :
  vec_at s a b1 xs c1 ->
  vec_at s b b2 ys c2 ->
  a <> b ->
  (exists s', Vector.Swap a b s = Ok tt s'
     /\ vec_at s' a b2 ys c2 /\ vec_at s' b b1 xs c1
     /\ heap s' = heap s /\ world s' = world s /\ leaked s' = leaked s
     /\ Vector.Swap a b s' = Ok tt s)
  /\ Vector.Swap a a s = Ok tt s.
Proof.
  intros Ha Hb Hne. destruct s as [R Z hp L w].
  pose proof Ha as [A1 A2 A3 A4 A5]. pose proof Hb as [B1 B2 B3 B4 B5]. csimp in *.
  split; [|by eapply Swap_same].
  eexists. split; [by erewrite Swap_eval|].
  split; [split; csimp; repeat mstep; done|].
  split; [split; csimp; repeat mstep; done|].
  split; [done|]. split; [done|]. split; [done|].
  erewrite Swap_eval; [|done|lk|lk|lk|lk].
  do 2 f_equal; map_norm.
Qed.

(** X18: the copy constructor.  When it completes, the new vector holds
    copies of the source's elements (equal values, for an element type
    that keeps its values) in a buffer of its own whose capacity is the
    size of the source, not its capacity; copying an empty vector
    allocates nothing.  The source is not changed.  When the allocation
    or a copy throws, the copies made are destroyed, the buffer is
    released, and the state is the one before the call up to the world. *)
Theorem copy_ctor_effect (s : st) (l rhs : positive) (buf : ptr) (ys : list T) (c2 : nat) :
  vec_at s rhs buf ys c2 ->
  raws s !! l = None ->
  sizes s !! l = None ->
  match Vector.copy_ctor l rhs s with
  | Ok _ s' =>
      exists b' ys',
        vec_at s' l b' ys' (length ys)
        /\ copies_of ys ys'
        /\ (faithful -> ys' = ys)
        /\ separate b' buf
        /\ vec_at s' rhs buf ys c2
        /\ leaked s' = leaked s
  | Exn _ s' => exists w', s' = set_world w' s
  | Undefined | Aborted => False
  end.
Proof.
  intros Ht Hr Hz. destruct s as [R Z hp L w]. csimp in *.
  pose proof Ht as [T1 T2 T3 T4 T5]. csimp in *.
  assert (rhs <> l) as Hne by congruence.
  destruct ys as [|y ys].
  - rewrite (copy_ctor_empty l rhs buf c2) by done.
    exists nullptr, []. split; [apply vec_at_null|]. split; [constructor|].
    split; [done|]. split; [done|]. split; [|done].
    split; csimp; try done; by rewrite lookup_insert_ne.
  - destruct buf as [|h i]; [subst c2; cbn in T3; lia|]. destruct T4 as (-> & T4 & T6).
    rewrite (copy_ctor_eval l rhs h (y :: ys) c2) by (done || cbn; lia).
    pose proof (free_block_heap (State R Z hp L w)) as Hfree. csimp in Hfree.
    generalize dependent (free_block (State R Z hp L w)). intros fb Hfree.
    destruct (allocation (length (y :: ys)) w) as [[|] w'] eqn:Hal; [|by eexists].
    pose proof (copy_list_length (y :: ys) w') as Hlen.
    destruct (copy_list (y :: ys) w') as [[ys' [e|]] w''] eqn:Hcl; [by eexists|].
    destruct Hlen as [_ Hlen]. specialize (Hlen eq_refl).
    assert (h <> fb) by congruence.
    exists (Ptr fb 0), ys'.
    split; [|split; [by eapply copy_list_copies|split; [|split; [by cbn|split; [|done]]]]].
    + eapply vec_at_new; [done|cbn; lia|]. by eapply allocation_bound.
    + intros Hf. by eapply faithful_copy_list.
    + split; csimp; try done; by rewrite lookup_insert_ne.
Qed.

End Lifetime.


(** ** Copy assignment within the capacity *)

Section CopyAssign.
Context {T A W : Type} {HE : Element T A W} {HB : Build}.
Local Abbreviation st := (state T W).
Implicit Types (hp : gmap positive (list (option T))) (R : gmap positive RawMemoryObj)
  (Z : gmap positive nat) (L : list T) (w : W) (xs ys ds : list T) (s : st).

Lemma assign_list_length ds xs w : length (assign_list ds xs w).1.1 = length ds.
Proof.
  revert xs w. induction ds as [|d ds IH]; intros [|x xs] w; cbn; try done.
  destruct (copy_assign d x w) as [[[e|] d'] w']; cbn; [done|].
  specialize (IH xs w'). destruct (assign_list ds xs w') as [[r e] w'']. cbn in *. lia.
Qed.

Lemma faithful_assign_list ds xs w r w' :
  faithful -> length ds = length xs -> assign_list ds xs w = (r, None, w') -> r = xs.
Proof.
  intros Hf. revert xs w r w'.
  induction ds as [|d ds IH]; intros [|x xs] w r w' Hl Ha; cbn in *; try done.
  { by injection Ha as <- _. }
  destruct (copy_assign d x w) as [[[e|] d'] w1] eqn:Hc; [done|].
  destruct (assign_list ds xs w1) as [[r1 e1] w2] eqn:Hr.
  injection Ha as <- -> ->.
  rewrite (copy_assign_value Hf _ _ _ _ _ Hc). f_equal. eapply IH; [|done]. lia.
Qed.

Lemma assign_copy_eval hd hs i j d x pre post spre spost R Z hp L w :
  hs ≠ hd ->
  hp !! hd = Some (pre ++ Some d :: post) -> i = length pre ->
  hp !! hs = Some (spre ++ Some x :: spost) -> j = length spre ->
  assign_copy (Ptr hd i) (Ptr hs j) (State R Z hp L w)
  = match copy_assign d x w with
    | (None, d', w') => Ok tt (State R Z (<[hd := pre ++ Some d' :: post]> hp) L w')
    | (Some e, d', w') => Exn e (State R Z (<[hd := pre ++ Some d' :: post]> hp) L w')
    end.
Proof.
  intros Hne Hd -> Hs ->. unfold assign_copy, bind, read_obj, write_obj, throw.
  repeat (csimp; first [ rewrite lookup_middle by done | lookup_step ]).
  destruct (copy_assign d x w) as [[[e|] d'] w'];
    repeat (csimp; first [ rewrite lookup_middle by done | rewrite insert_middle by done
                         | lookup_step | astep | rewrite insert_insert_eq | progress snorm ]);
    done.
Qed.

Lemma assign_loop_eval this rhs hd hs c1 c2 ds : forall xs i pre post spre spost R Z hp L w,
  hs ≠ hd ->
  R !! this = Some {| buffer_ := Ptr hd 0; capacity_ := c1 |} ->
  R !! rhs = Some {| buffer_ := Ptr hs 0; capacity_ := c2 |} ->
  hp !! hd = Some (pre ++ (Some <$> ds) ++ post) -> i = length pre ->
  hp !! hs = Some (spre ++ (Some <$> xs) ++ spost) -> i = length spre ->
  length ds = length xs ->
  i + length ds <= c1 -> i + length ds <= c2 ->
  for_loop i (length ds) (Vector.assign_element this rhs) (State R Z hp L w)
  = match assign_list ds xs w with
    | (ds', None, w') =>
        Ok (i + length ds) (State R Z (<[hd := pre ++ (Some <$> ds') ++ post]> hp) L w')
    | (ds', Some e, w') =>
        Exn e (State R Z (<[hd := pre ++ (Some <$> ds') ++ post]> hp) L w')
    end.
Proof.
  induction ds as [|d ds IH]; intros [|x xs] i pre post spre spost R Z hp L w
    Hne Ht Hr Hd Hi Hs Hj Hl H1 H2; cbn [length] in *; try done.
  - cbn. unfold ret. rewrite Nat.add_0_r. by rewrite insert_id.
  - cbn [for_loop assign_list]. unfold bind at 1. unfold Vector.assign_element.
    cbn [fmap list_fmap app] in Hd, Hs.
    assert (i <= length (pre ++ Some d :: (Some <$> ds) ++ post)) by list_len.
    assert (i <= length (spre ++ Some x :: (Some <$> xs) ++ spost)) by list_len.
    crun.
    erewrite (assign_copy_eval hd hs i i d x pre _ spre);
      [| done | exact Hd | done | exact Hs | done ].
    destruct (copy_assign d x w) as [[[e|] d'] w1]; [done|].
    erewrite (IH xs (S i) (pre ++ [Some d']) post (spre ++ [Some x]) spost);
      [ | done | done | done | | list_len | | list_len | lia | lia | lia ].
    2:{ rewrite lookup_insert_eq. by rewrite <- app_assoc. }
    2:{ rewrite lookup_insert_ne by done. rewrite Hs. by rewrite <- app_assoc. }
    destruct (assign_list ds xs w1) as [[r [e|]] w2].
    + rewrite insert_insert_eq, <- app_assoc. done.
    + rewrite insert_insert_eq, <- app_assoc.
      by replace (S i + length ds) with (i + S (length ds)) by lia.
Qed.

Lemma plus_eval R Z hp L w v h blk cap k :
  R !! v = Some {| buffer_ := Ptr h 0; capacity_ := cap |} ->
  hp !! h = Some blk -> length blk = cap -> k <= cap ->
  RawMemory.plus v k (State R Z hp L w) = Ok (Ptr h k) (State R Z hp L w).
Proof. intros Hv Hh Hl Hk. by crun. Qed.

Lemma plus_null R Z hp L w v cap :
  R !! v = Some {| buffer_ := nullptr; capacity_ := cap |} ->
  RawMemory.plus v 0 (State R Z hp L w) = Ok nullptr (State R Z hp L w).
Proof. intros Hv. by crun. Qed.

Lemma block_of_length xs cap : length xs <= cap -> length (block_of xs cap) = cap.
Proof. intros Hle. unfold block_of. list_len. Qed.

Lemma plus_vec s v buf xs cap k :
  vec_at s v buf xs cap -> k <= cap -> RawMemory.plus v k s = Ok (iter buf k) s.
Proof.
  intros [T1 T2 T3 T4 T5] Hk. destruct s as [R Z hp L w]. csimp in *.
  destruct buf as [|h i].
  - subst cap. assert (k = 0) as -> by lia. by crun.
  - destruct T4 as (-> & T4 & T6). pose proof (block_of_length xs cap T3). by crun.
Qed.

Lemma vec_at_frame R Z hp L w R' Z' hp' L' w' v buf xs cap :
  vec_at (State R Z hp L w) v buf xs cap ->
  R' !! v = R !! v -> Z' !! v = Z !! v ->
  (forall h i, buf = Ptr h i -> hp' !! h = hp !! h) ->
  vec_at (State R' Z' hp' L' w') v buf xs cap.
Proof.
  intros [T1 T2 T3 T4 T5] HR HZ Hh. split; csimp in *; try congruence.
  destruct buf as [|h i]; [done|]. by rewrite (Hh h i).
Qed.

Lemma assign_prefix_eval this rhs h1 b2 c1 c2 ds post ys R Z hp L w :
  separate (Ptr h1 0) b2 ->
  R !! this = Some {| buffer_ := Ptr h1 0; capacity_ := c1 |} ->
  vec_at (State R Z hp L w) rhs b2 ys c2 ->
  hp !! h1 = Some ((Some <$> ds) ++ post) ->
  length ds <= length ys -> length ds <= c1 ->
  for_loop 0 (length ds) (Vector.assign_element this rhs) (State R Z hp L w)
  = match assign_list ds (take (length ds) ys) w with
    | (ds', None, w') =>
        Ok (length ds) (State R Z (<[h1 := (Some <$> ds') ++ post]> hp) L w')
    | (ds', Some e, w') => Exn e (State R Z (<[h1 := (Some <$> ds') ++ post]> hp) L w')
    end.
Proof.
  intros Hsep Ht [R1 R2 R3 R4 R5] Hh Hl Hc. csimp in *.
  destruct b2 as [|h2 i2].
  - subst c2. assert (ys = []) as -> by (destruct ys; [done|cbn in R3; lia]).
    destruct ds; [|cbn in Hl; lia]. cbn. unfold ret. by rewrite insert_id.
  - destruct R4 as (-> & R4 & R6). cbn in Hsep.
    rewrite <- (take_drop (length ds) ys) in R6. unfold block_of in R6.
    rewrite fmap_app, <- app_assoc in R6.
    erewrite (assign_loop_eval this rhs h1 h2 c1 c2 ds (take (length ds) ys) 0 [] post []);
      [ | done | done | done | exact Hh | done | exact R6 | done | | lia | lia ].
    + done.
    + rewrite length_take. lia.
Qed.

(** X19: copy assignment from another vector whose size fits the
    capacity of the target.  No storage is allocated: the target keeps
    its buffer and its capacity.  When the assignment completes, the
    target has the size of the source and, for an element type that
    keeps its values, the elements of the source; the source is not
    changed.  When an element assignment or copy throws, the target is
    still a vector of its old size and capacity (some of its elements may
    have been assigned), the source is not changed, and nothing leaks. *)
Theorem copy_assign_in_place (s : st) (this rhs : positive) (b1 b2 : ptr) (xs ys : list T)
    (c1 c2 : nat) :
  this <> rhs ->
  vec_at s this b1 xs c1 ->
  vec_at s rhs b2 ys c2 ->
  separate b1 b2 ->
  length ys <= c1 ->
  match Vector.copy_assign this rhs s with
  | Ok r s' =>
      r = this
      /\ exists ys',
           vec_at s' this b1 ys' c1
           /\ length ys' = length ys
           /\ (faithful -> ys' = ys)
           /\ vec_at s' rhs b2 ys c2
           /\ leaked s' = leaked s
  | Exn _ s' =>
      exists xs',
        vec_at s' this b1 xs' c1
        /\ length xs' = length xs
        /\ vec_at s' rhs b2 ys c2
        /\ leaked s' = leaked s
  | Undefined | Aborted => False
  end.
Proof.
  intros Hne Ht Hr Hsep Hfit. destruct s as [R Z hp L w].
  pose proof Ht as [T1 T2 T3 T4 T5]. pose proof Hr as [R1 R2 R3 R4 R5]. csimp in *.
  assert (rhs <> this) as Hne' by congruence.
  unfold Vector.copy_assign. crun'.
  destruct (Nat.ltb_spec (length ys) (length xs)) as [Hlt|Hge].
  - (* the target shrinks *)
    destruct b1 as [|h1 i1]; [lia|]. destruct T4 as (-> & T4 & T6).
    remember (length ys) as n eqn:Hn.
    assert (length (take n xs) = n) as Htk by (rewrite length_take; lia).
    rewrite <- (take_drop n xs) in T6. unfold block_of in T6.
    rewrite fmap_app, <- app_assoc in T6.
    pose proof (assign_prefix_eval this rhs h1 b2 c1 c2 (take n xs) _ ys R Z hp L w
                  Hsep T1 Hr T6 ltac:(lia) ltac:(lia)) as Hloop.
    rewrite Htk in Hloop. rewrite (take_ge ys n) in Hloop by lia.
    rewrite Hloop. clear Hloop.
    pose proof (assign_list_length (take n xs) ys w) as Hal.
    destruct (assign_list (take n xs) ys w) as [[ds' [e|]] w1] eqn:Has; cbn in Hal.
    + exists (ds' ++ drop n xs). split; [|split; [|split; [|done]]].
      * split; csimp; try done.
        -- rewrite T2. f_equal. list_len.
        -- list_len.
        -- split; [done|]. split; [done|]. rewrite lookup_insert_eq. unfold block_of.
           rewrite fmap_app, <- app_assoc. do 4 f_equal. list_len.
      * list_len.
      * eapply vec_at_frame; [exact Hr|done|done|].
        intros h i ->. cbn in Hsep. by rewrite lookup_insert_ne.
    + crun'.
      replace (length xs - n) with (length (drop n xs)) by (rewrite length_drop; lia).
      erewrite (destroy_n_eval h1 (drop n xs) n (Some <$> ds'));
        [| apply lookup_insert_eq | list_len].
      crun'. split; [done|]. exists ds'.
      split; [|split; [lia|split; [|split; [|done]]]].
      * split; csimp; try done.
        -- rewrite lookup_insert_eq. by rewrite Hal, Htk.
        -- lia.
        -- split; [done|]. split; [done|]. rewrite lookup_insert_eq. unfold block_of.
           rewrite <- replicate_add. do 3 f_equal. list_len.
      * intros Hf. eapply faithful_assign_list; [done| |exact Has]. lia.
      * eapply vec_at_frame; [exact Hr| | |].
        -- done.
        -- csimp. by rewrite lookup_insert_ne.
        -- intros h i ->. cbn in Hsep. csimp. by rewrite lookup_insert_ne.
  - (* the target does not shrink *)
    destruct b1 as [|h1 i1].
    + subst c1. assert (ys = []) as -> by (destruct ys; [done|cbn in Hfit; lia]).
      assert (xs = []) as -> by (destruct xs; [done|cbn in T3; lia]).
      cbn [length for_loop]. unfold Vector.copy_assign.
      assert (0 <= length (block_of (@nil T) c2)) by lia.
      destruct b2 as [|h2 i2]; [|destruct R4 as (-> & R4 & R6)]; crun';
        rewrite ?size_sub_le by lia; unfold uninitialized_copy_n;
        rewrite uninitialized_n_zero; crun'.
      all: split; [done|]; exists []; repeat split; csimp; try done;
        try lia; rewrite ?lookup_insert_eq, ?lookup_insert_ne by done; done.
    + destruct T4 as (-> & T4 & T6). unfold block_of in T6.
      pose proof (assign_prefix_eval this rhs h1 b2 c1 c2 xs _ ys R Z hp L w
                    Hsep T1 Hr T6 ltac:(lia) ltac:(lia)) as Hloop.
      rewrite Hloop. clear Hloop.
      remember (length xs) as m eqn:Hm.
      assert (length (take m ys) = m) as Htk by (rewrite length_take; lia).
      pose proof (assign_list_length xs (take m ys) w) as Hal.
      destruct (assign_list xs (take m ys) w) as [[ds' [e|]] w1] eqn:Has; cbn in Hal.
      * exists ds'. split; [|split; [lia|split; [|done]]].
        -- split; csimp; try done.
           ++ rewrite T2. f_equal. lia.
           ++ lia.
           ++ split; [done|]. split; [done|]. rewrite lookup_insert_eq. unfold block_of.
              do 3 f_equal. lia.
        -- eapply vec_at_frame; [exact Hr|done|done|].
           intros h i ->. cbn in Hsep. by rewrite lookup_insert_ne.
      * destruct b2 as [|h2 i2].
        -- subst c2. assert (ys = []) as -> by (destruct ys; [done|cbn in R3; lia]).
           cbn [length] in *. assert (m = 0) as -> by lia.
           crun'. rewrite ?size_sub_le by lia. unfold uninitialized_copy_n.
           rewrite uninitialized_n_zero. crun'.
           destruct ds' as [|? ?]; [|cbn in Hal; lia].
           split; [done|]. exists []. split; [|split; [done|split; [done|split; [|done]]]].
           ++ split; csimp; [done|by rewrite lookup_insert_eq|lia| |done].
              split; [done|]. split; [done|]. rewrite lookup_insert_eq. unfold block_of.
              cbn. do 2 f_equal. lia.
           ++ eapply vec_at_frame; [exact Hr|done| |done].
              csimp. by rewrite lookup_insert_ne.
        -- destruct R4 as (-> & R4 & R6). cbn in Hsep.
           rewrite <- (take_drop m ys) in R6. unfold block_of in R6.
           rewrite fmap_app, <- app_assoc in R6.
           assert (length (drop m ys) = length ys - m) as Hdr by (by rewrite length_drop).
           assert (h2 <> h1) as Hne2 by congruence.
           crun'.
           erewrite (uninitialized_copy_n_eval h2 h1 m m (length ys - m) (drop m ys)
                       (Some <$> take m ys) _ (Some <$> ds') (replicate (c1 - length ys) None));
             [ | done | by rewrite lookup_insert_ne | list_len | | list_len | done ].
           2:{ rewrite lookup_insert_eq. do 2 f_equal.
               rewrite <- replicate_add. f_equal. lia. }
           pose proof (copy_list_length (drop m ys) w1) as Hcl.
           destruct (copy_list (drop m ys) w1) as [[yt [e|]] w2] eqn:Hcp.
           ++ exists ds'. split; [|split; [lia|split; [|done]]].
              ** split; csimp; [done|rewrite T2; f_equal; lia|lia| |done].
                 split; [done|]. split; [done|]. rewrite lookup_insert_eq. unfold block_of.
                 do 3 f_equal. lia.
              ** eapply vec_at_frame; [exact Hr|done|done|].
                 intros h i [= <- <-]. csimp. by rewrite lookup_insert_ne.
           ++ destruct Hcl as [_ Hcl]. specialize (Hcl eq_refl).
              crun'. split; [done|]. exists (ds' ++ yt).
              split; [|split; [list_len|split; [|split; [|done]]]].
              ** split; csimp; [done| |list_len| |done].
                 { rewrite lookup_insert_eq. f_equal. list_len. }
                 split; [done|]. split; [done|]. rewrite lookup_insert_eq. unfold block_of.
                 rewrite fmap_app, <- app_assoc. do 4 f_equal. list_len.
              ** intros Hf. rewrite <- (take_drop m ys). f_equal.
                 --- eapply faithful_assign_list; [done| |exact Has]. lia.
                 --- by eapply faithful_copy_list.
              ** eapply vec_at_frame; [exact Hr|done| |].
                 --- csimp. by rewrite lookup_insert_ne.
                 --- intros h i [= <- <-]. csimp. by rewrite lookup_insert_ne.
Qed.

Lemma stranded_object this h1 c1 front y n R Z hp L w :
  R !! this = Some {| buffer_ := Ptr h1 0; capacity_ := c1 |} ->
  Z !! this = Some n -> length front = n -> n < c1 ->
  let s' := State R Z (<[h1 := block_of (front ++ [y]) c1]> hp) L w in
  Vector.Size this s' = Ok n s'
  /\ read_obj (iter (Ptr h1 0) n) s' = Ok y s'
  /\ exists s'', Vector.dtor this s' = Ok tt s''
       /\ leaked s'' = L ++ [y]
       /\ heap s'' = delete h1 hp.
Proof.
  intros T1 T2 Hl Hn s'. subst s'. split; [by crun|]. split.
  - cbn [iter shift Nat.add]. unfold block_of. rewrite fmap_app, <- app_assoc.
    cbn [fmap list_fmap app].
    by crun.
  - unfold Vector.dtor. crun. subst n.
    unfold block_of. rewrite fmap_app, <- app_assoc.
    erewrite (destroy_n_eval h1 front 0 []); [| apply lookup_insert_eq | done].
    unfold Vector.destroy_members. crun'.
    eexists. split; [done|]. csimp. split; [|by rewrite delete_insert_eq].
    rewrite live_objects_app, live_objects_raw. f_equal.
    change (live_objects (Some y :: ?l)) with (y :: live_objects l).
    by rewrite live_objects_raw.
Qed.

(** X20: an insertion before an element of a vector with room first
    moves the last element into the raw slot behind it.  When a move
    assignment of the shift that follows throws, the size is not
    incremented, so the object in that slot stays alive outside the
    elements of the vector: the destructor of the vector does not destroy
    it, and its storage is released with the object still alive. *)
Theorem middle_insert_failure_strands_last (s : st) (this : positive) (h1 : positive)
    (xa mid : list T) (z : T) (c1 : nat) (args : ctor_args T A) (tmp y z' : T) (w0 w1 : W)
    (emp : positive -> ptr -> ctor_args T A -> M st ptr) :
  is_Emplace emp ->
  vec_at s this (Ptr h1 0) (xa ++ mid ++ [z]) c1 ->
  length (xa ++ mid ++ [z]) < c1 ->
  args_outcome args (world s) = Some (inr tmp, w0) ->
  move_construct z w0 = (inr y, z', w1) ->
  match emp this (iter (Ptr h1 0) (length xa)) args s with
  | Ok _ _ => True
  | Exn _ s' =>
      Vector.Size this s' = Ok (length (xa ++ mid ++ [z])) s'
      /\ read_obj (iter (Ptr h1 0) (length (xa ++ mid ++ [z]))) s' = Ok y s'
      /\ exists s'', Vector.dtor this s' = Ok tt s''
           /\ leaked s'' = leaked s ++ [y]
           /\ heap s'' = delete h1 (heap s)
  | Undefined | Aborted => False
  end.
Proof.
  intros Hemp Ht Hlt Hao Hmc. destruct s as [R Z hp L w]. csimp in *.
  assert (emp this (iter (Ptr h1 0) (length xa)) args (State R Z hp L w)
          = commit_in_place (State R Z hp L w) this (Ptr h1 0) c1 (Ptr h1 (length xa))
              (S (length (xa ++ mid ++ [z]))) (insert_in_place xa mid z args w)) as ->.
  { cbn [iter shift Nat.add].
    destruct Hemp as [-> | ->];
      [by apply VectorH_Emplace_middle_eval|by apply Part000_Emplace_middle_eval]. }
  pose proof Ht as [T1 T2 T3 (_ & T4 & T6) T5]. csimp in *.
  unfold insert_in_place. rewrite Hao, Hmc.
  pose proof (move_chain_length z' (rev mid) w1) as Hcl.
  destruct (move_chain z' (rev mid) w1) as [[seg [e|]] w2] eqn:Hch; cbn [fst] in Hcl.
  - unfold commit_in_place, with_elements. csimp. rewrite app_assoc.
    apply stranded_object; [done|done|list_len|done].
  - destruct (rev seg) as [|d rest] eqn:Hrev.
    { apply (f_equal length) in Hrev. rewrite length_rev in Hrev. cbn in Hrev. lia. }
    apply (f_equal length) in Hrev. rewrite length_rev, Hcl, length_rev in Hrev.
    cbn [length] in Hrev.
    destruct (move_assign d tmp w2) as [[[[e|] d'] tmp'] w3]; [|done].
    unfold commit_in_place, with_elements. csimp.
    rewrite (app_comm_cons rest), app_assoc.
    apply stranded_object; [done|done|list_len|done].
Qed.

End CopyAssign.

(** ** Requests that do not fit [size_t] *)

Section Overflow.
Context {T A W : Type} {HE : Element T A W} {HB : Build}.
Local Abbreviation st := (state T W).

(** X21: [Allocate] multiplies [n] by [sizeof(T)] without a check.  When
    the product does not fit [size_t], the request that reaches
    [operator new] is the product modulo [2^64]; when it is granted,
    [RawMemory(n)] completes with [capacity_ = n] and a block that has
    room for fewer than [n] elements. *)
Theorem RawMemory_capacity_exceeds_block (s : st) (l : positive) (n : nat) (w' : W) :
  ~ representable n ->
  ((N.of_nat n * Npos sizeof) mod 2 ^ 64 <= PTRDIFF_MAX)%N ->
  allocator ((N.of_nat n * Npos sizeof) mod 2 ^ 64)%N (world s) = (true, w') ->
  exists h blk s',
    RawMemory.ctor l n s = Ok tt s'
    /\ raws s' !! l = Some {| buffer_ := Ptr h 0; capacity_ := n |}
    /\ heap s' !! h = Some blk
    /\ length blk < n.
Proof.
  intros Hrep Hfit Hal. unfold representable in Hrep. destruct s as [R Z hp L w].
  assert (n <> 0) as Hn.
  { intros ->. apply Hrep. cbn. lia. }
  unfold RawMemory.ctor, RawMemory.Allocate, operator_new.
  rewrite (proj2 (Nat.eqb_neq n 0)) by done. cbn [negb]. unfold bind at 1.
  rewrite (proj2 (N.ltb_ge _ _) Hfit). csimp in *. rewrite Hal.
  unfold init_raw. snorm.
  eexists _, _, _. split; [done|]. csimp.
  split; [by rewrite lookup_insert_eq|]. split; [by rewrite lookup_insert_eq|].
  rewrite length_replicate.
  assert ((N.of_nat n * N.pos sizeof) mod 2 ^ 64 / N.pos sizeof < N.of_nat n)%N; [|lia].
  apply N.Div0.div_lt_upper_bound.
  pose proof (N.mod_upper_bound (N.of_nat n * N.pos sizeof) (2 ^ 64)) as Hm. lia.
Qed.

End Overflow.

(** ** Calls outside the preconditions, and the buffer a move assignment drops *)

Section Edges.
Context {T A W : Type} {HE : Element T A W} {HB : Build}.
Local Abbreviation st := (state T W).

(** X22: [Erase(end())] has undefined behaviour in both versions and in
    both builds, on an empty vector too: the range of elements to shift,
    from [pos + 1] to [end()], is not a range. *)
Theorem Erase_end_undefined (s : st) (this : positive) (buf : ptr) (xs : list T) (cap : nat)
    (ers : positive -> ptr -> M st ptr) :
  is_Erase ers ->
  vec_at s this buf xs cap ->
  ers this (iter buf (length xs)) s = Undefined.
Proof.
  intros Hers [T1 T2 T3 T4 T5]. destruct s as [R Z hp L w]. csimp in *.
  destruct buf as [|h i].
  - subst cap. cbn [iter shift]. destruct Hers as [-> | ->].
    + unfold VectorH.Erase. by crun.
    + unfold Part000.Erase. by crun.
  - destruct T4 as (-> & T4 & T6). pose proof (block_of_length xs cap T3) as Hbl.
    cbn [iter shift Nat.add].
    destruct Hers as [-> | ->].
    + unfold VectorH.Erase. crun. rewrite Hbl.
      destruct (length xs + 1 <=? cap); [|done]. crun.
      unfold std_move, range_length. crun'. done.
    + unfold Part000.Erase. crun'. rewrite Hbl.
      destruct (length xs + 1 <=? cap); [|done]. crun.
      unfold std_move, range_length. crun'. done.
Qed.

(** X23: the move assignment of [RawMemory] overwrites the buffer of the
    target without releasing it.  After [a = std::move(b)] the target
    owns the buffer of [b], [b] is empty, and the block the target had is
    still allocated; the destructors of both objects release the block
    that came from [b] and leave the old block of the target behind. *)
Theorem RawMemory_move_assign_drops_buffer (s : st) (this rhs h : positive) (c : nat)
    (blk : list (option T)) (rr : RawMemoryObj) :
  this <> rhs ->
  raws s !! this = Some {| buffer_ := Ptr h 0; capacity_ := c |} ->
  heap s !! h = Some blk ->
  raws s !! rhs = Some rr ->
  match buffer_ rr with
  | nullptr => True
  | Ptr h2 i => i = 0 /\ h2 <> h /\ is_Some (heap s !! h2)
  end ->
  exists s1 s2,
    RawMemory.move_assign this rhs s = Ok tt s1
    /\ raws s1 !! this = Some rr
    /\ raws s1 !! rhs = Some {| buffer_ := nullptr; capacity_ := 0 |}
    /\ heap s1 = heap s
    /\ (RawMemory.dtor this ;; RawMemory.dtor rhs) s1 = Ok tt s2
    /\ heap s2 !! h = Some blk.
Proof.
  intros Hne Ht Hh Hr Hb. destruct s as [R Z hp L w]. csimp in *.
  rewrite (RawMemory_move_assign_eval R Z hp L w this rhs _ rr Hne Ht Hr).
  assert (rhs <> this) as Hne' by congruence.
  eexists. destruct rr as [[|h2 i] c2]; csimp in *.
  - eexists. split; [reflexivity|]. csimp.
    split; [by rewrite lookup_insert_ne, lookup_insert_eq|].
    split; [by rewrite lookup_insert_eq|]. split; [done|].
    split; [by crun'|]. done.
  - destruct Hb as (-> & Hne2 & [blk2 Hh2]).
    eexists. split; [reflexivity|]. csimp.
    split; [by rewrite lookup_insert_ne, lookup_insert_eq|].
    split; [by rewrite lookup_insert_eq|]. split; [done|].
    split; [by crun'|]. csimp. by rewrite lookup_delete_ne.
Qed.

End Edges.


(** ** Runs that satisfy the hypotheses of the further theorems *)

Section FaithfulRuns.
#[local] Existing Instance fragile_nat.
#[local] Existing Instance debug_build.

Lemma fragile_faithful : faithful.
Proof.
  split.
  - intros x w y w'. cbn. destruct (x =? 13); congruence.
  - intros x w y x' w'. cbn. congruence.
  - intros d x w d' w'. cbn. destruct (x =? 13); congruence.
  - intros d x w d' x' w'. cbn. congruence.
Qed.

Lemma Insert_places_value_witness :
  match VectorH.Insert 1%positive (iter (Ptr 1 0) (length [1])) 7 (one_vector [1; 2; 3] 4) with
  | Ok p s' =>
      exists b',
        vec_at s' 1%positive b' ([1] ++ 7 :: [2; 3]) (if length
            ([1] ++ [2; 3]) =? 4 then grown 4 else 4)
        /\ p = iter b' (length [1])
        /\ read_obj p s' = Ok 7 s'
        /\ leaked s' = leaked (one_vector [1; 2; 3] 4)
        /\ (length ([1] ++ [2; 3]) < 4 -> b' = (Ptr 1 0))
  | Exn _ _ | Aborted => True
  | Undefined => False
  end.
Proof.
  apply (Insert_places_value (one_vector [1; 2; 3] 4) 1%positive
      (Ptr 1 0) [1] [2; 3] 4 7 VectorH.Insert).
  - left; reflexivity.
  - exact fragile_faithful.
  - exact fragile_representable.
  - vec_at_concrete.
Defined.

Lemma Erase_removes_element_witness :
  match VectorH.Erase 1%positive (iter (Ptr 1 0) (length [1])) (one_vector [1; 2; 3] 4) with
  | Ok p s' =>
      vec_at s' 1%positive (Ptr 1 0) ([1] ++ [3]) 4 /\ p = iter (Ptr 1 0) (length [1])
          /\ leaked s' = leaked (one_vector [1; 2; 3] 4)
  | Exn _ _ => True
  | Undefined | Aborted => False
  end.
Proof.
  apply (Erase_removes_element (one_vector [1; 2; 3] 4) 1%positive
      (Ptr 1 0) [1] 2 [3] 4 VectorH.Erase).
  - left; reflexivity.
  - exact fragile_faithful.
  - vec_at_concrete.
Defined.

Lemma Insert_then_Erase_witness :
  match (p <- VectorH.Insert 1%positive (iter (Ptr 1 0)
      (length [1])) 7 ;; Part000.Erase 1%positive p) (one_vector [1; 2; 3] 4) with
  | Ok p' s' =>
      exists b',
        vec_at s' 1%positive b' ([1] ++ [2; 3]) (if length
            ([1] ++ [2; 3]) =? 4 then grown 4 else 4)
        /\ p' = iter b' (length [1])
        /\ leaked s' = leaked (one_vector [1; 2; 3] 4)
  | Exn _ _ | Aborted => True
  | Undefined => False
  end.
Proof.
  apply (Insert_then_Erase (one_vector [1; 2; 3] 4) 1%positive
      (Ptr 1 0) [1] [2; 3] 4 7 VectorH.Insert Part000.Erase).
  - left; reflexivity.
  - right; reflexivity.
  - exact fragile_faithful.
  - exact fragile_representable.
  - vec_at_concrete.
Defined.

Lemma EmplaceBack_returns_new_last_witness :
  Part000.EmplaceBack 1%positive (FromArgs 7)
      (one_vector [1; 2; 3] 4) = VectorH.EmplaceBack 1%positive (FromArgs 7)
      (one_vector [1; 2; 3] 4)
  /\ match VectorH.EmplaceBack 1%positive (FromArgs 7) (one_vector [1; 2; 3] 4) with
     | Ok p s' =>
         exists b' elems x w0 w1,
           args_outcome (FromArgs 7) w0 = Some (inr x, w1)
           /\ vec_at s' 1%positive b' (elems ++ [x])
               (if length [1; 2; 3] =? 4 then grown 4 else 4)
           /\ length elems = length [1; 2; 3]
           /\ read_obj p s' = Ok x s'
     | Exn _ _ | Aborted => True
     | Undefined => False
     end.
Proof.
  apply (EmplaceBack_returns_new_last (one_vector [1; 2; 3] 4) 1%positive (Ptr 1 0) [1; 2; 3] 4
      (FromArgs 7)).
  - vec_at_concrete.
  - exact fragile_representable.
Defined.

Lemma PushBack_then_PopBack_witness :
  match (VectorH.PushBack 1%positive 7 ;; Part000.PopBack 1%positive)
      (one_vector [1; 2; 3] 4) with
  | Ok _ s' =>
      exists b',
        vec_at s' 1%positive b' [1; 2; 3] (if length [1; 2; 3] =? 4 then grown 4 else 4)
        /\ leaked s' = leaked (one_vector [1; 2; 3] 4)
        /\ (length [1; 2; 3] < 4 -> b' = (Ptr 1 0))
  | Exn _ _ | Aborted => True
  | Undefined => False
  end.
Proof.
  apply (PushBack_then_PopBack (one_vector [1; 2; 3] 4) 1%positive
      (Ptr 1 0) [1; 2; 3] 4 7 VectorH.PushBack Part000.PopBack).
  - left; reflexivity.
  - right; reflexivity.
  - exact fragile_faithful.
  - exact fragile_representable.
  - vec_at_concrete.
Defined.

Lemma pushes_within_capacity_keep_buffer_witness :
  match push_all VectorH.PushBack 1%positive [7; 8] (one_vector [1; 2] 4) with
  | Ok _ s' => vec_at s' 1%positive (Ptr 1 0) ([1; 2] ++ [7; 8]) 4
      /\ leaked s' = leaked (one_vector [1; 2] 4)
  | Exn _ _ | Aborted => True
  | Undefined => False
  end.
Proof.
  apply (pushes_within_capacity_keep_buffer (one_vector [1; 2] 4) 1%positive
      (Ptr 1 0) [1; 2] [7; 8] 4 VectorH.PushBack).
  - left; reflexivity.
  - exact fragile_faithful.
  - exact fragile_representable.
  - vec_at_concrete.
  - simpl; lia.
Defined.

Lemma Reserve_effect_witness :
  (5 <= 2 -> Vector.Reserve 1%positive 5 (one_vector [1; 2] 2) = Ok tt (one_vector [1; 2] 2))
  /\ (2 < 5 ->
      match Vector.Reserve 1%positive 5 (one_vector [1; 2] 2) with
      | Ok _ s' =>
          exists ys,
            vec_at s' 1%positive (Ptr (free_block (one_vector [1; 2] 2)) 0) ys 5
            /\ length ys = length [1; 2]
            /\ (faithful -> ys = [1; 2])
            /\ leaked s' = leaked (one_vector [1; 2] 2)
            /\ (forall h i, (Ptr 1 0) = Ptr h i -> heap s' !! h = None)
      | Exn e s' => safe_relocation -> exists w', s' = set_world w' (one_vector [1; 2] 2)
      | Aborted => True
      | Undefined => False
      end).
Proof.
  apply (Reserve_effect (one_vector [1; 2] 2) 1%positive (Ptr 1 0) [1; 2] 2 5).
  - vec_at_concrete.
  - vm_compute; reflexivity.
Defined.

Lemma Reserve_then_push_all_witness :
  match (Vector.Reserve 1%positive 5 ;; push_all VectorH.PushBack 1%positive [7; 8; 9])
      (one_vector [1; 2] 2) with
  | Ok _ s' =>
      exists b', vec_at s' 1%positive b' ([1; 2] ++ [7; 8; 9]) (Nat.max 2 5)
          /\ leaked s' = leaked (one_vector [1; 2] 2)
  | Exn _ _ | Aborted => True
  | Undefined => False
  end.
Proof.
  apply (Reserve_then_push_all (one_vector [1; 2] 2) 1%positive
      (Ptr 1 0) [1; 2] [7; 8; 9] 2 5 VectorH.PushBack).
  - left; reflexivity.
  - exact fragile_faithful.
  - exact fragile_representable.
  - vm_compute; reflexivity.
  - vec_at_concrete.
  - simpl; lia.
Defined.



Lemma dtor_releases_everything_witness :
  exists s', Vector.dtor 1%positive (one_vector [1; 2; 3] 4) = Ok tt s'
    /\ raws s' = delete 1%positive (raws (one_vector [1; 2; 3] 4))
        /\ sizes s' = delete 1%positive (sizes (one_vector [1; 2; 3] 4))
    /\ heap s' = released (Ptr 1 0) (heap (one_vector [1; 2; 3] 4))
    /\ world s' = destroy_all [1; 2; 3] (world (one_vector [1; 2; 3] 4))
    /\ leaked s' = leaked (one_vector [1; 2; 3] 4).
Proof.
  apply (dtor_releases_everything (one_vector [1; 2; 3] 4) 1%positive (Ptr 1 0) [1; 2; 3] 4).
  - vec_at_concrete.
Defined.

Lemma scoped_ctor_size_leaves_no_trace_witness :
  match Vector.scoped (fun l => Vector.ctor_size l 3) (fun _ => ret tt) empty_vector with
  | Ok _ s' | Exn _ s' => exists w', s' = set_world w' empty_vector
  | Undefined | Aborted => False
  end.
Proof.
  apply (scoped_ctor_size_leaves_no_trace empty_vector 3).
  - vm_compute; reflexivity.
Defined.

Lemma index_access_witness :
  (forall x, [1; 2; 3] !! 1 = Some x ->
     Vector.index 1%positive 1 (one_vector [1; 2; 3] 4) = Ok (iter (Ptr 1 0) 1)
         (one_vector [1; 2; 3] 4)
         /\ read_obj (iter (Ptr 1 0) 1) (one_vector [1; 2; 3] 4) = Ok x (one_vector [1; 2; 3] 4))
  /\ (length [1; 2; 3] <= 1 ->
      (p <- Vector.index 1%positive 1 ;; read_obj p)
          (one_vector [1; 2; 3] 4) = if NDEBUG then Undefined else Aborted).
Proof.
  apply (index_access (one_vector [1; 2; 3] 4) 1%positive (Ptr 1 0) [1; 2; 3] 4 1).
  - vec_at_concrete.
Defined.

Lemma iterator_range_witness :
  Vector.begin 1%positive (one_vector [1; 2; 3] 4) = Ok (Ptr 1 0) (one_vector [1; 2; 3] 4)
  /\ Vector.end_ 1%positive (one_vector [1; 2; 3] 4) = Ok (iter (Ptr 1 0) (length [1; 2; 3]))
      (one_vector [1; 2; 3] 4)
  /\ Vector.cbegin 1%positive (one_vector [1; 2; 3] 4) = Vector.begin 1%positive
      (one_vector [1; 2; 3] 4)
  /\ Vector.cend 1%positive (one_vector [1; 2; 3] 4) = Vector.end_ 1%positive
      (one_vector [1; 2; 3] 4)
  /\ (e <- Vector.end_ 1%positive ;; b <- Vector.begin 1%positive ;; ptr_diff e b)
      (one_vector [1; 2; 3] 4) = Ok (length [1; 2; 3]) (one_vector [1; 2; 3] 4).
Proof.
  apply (iterator_range (one_vector [1; 2; 3] 4) 1%positive (Ptr 1 0) [1; 2; 3] 4).
  - vec_at_concrete.
Defined.

Lemma Swap_exchanges_witness :
  (exists s', Vector.Swap 1%positive 2%positive (two_vectors [1; 2] 2 [7] 1) = Ok tt s'
     /\ vec_at s' 1%positive (Ptr 2 0) [7] 1 /\ vec_at s' 2%positive (Ptr 1 0) [1; 2] 2
     /\ heap s' = heap (two_vectors [1; 2] 2 [7] 1)
         /\ world s' = world (two_vectors [1; 2] 2 [7] 1)
         /\ leaked s' = leaked (two_vectors [1; 2] 2 [7] 1)
     /\ Vector.Swap 1%positive 2%positive s' = Ok tt (two_vectors [1; 2] 2 [7] 1))
  /\ Vector.Swap 1%positive 1%positive (two_vectors [1; 2] 2 [7] 1) = Ok tt
      (two_vectors [1; 2] 2 [7] 1).
Proof.
  apply (Swap_exchanges (two_vectors [1; 2] 2 [7] 1) 1%positive 2%positive (Ptr 1 0)
      (Ptr 2 0) [1; 2] [7] 2 1).
  - vec_at_concrete.
  - vec_at_concrete.
  - discriminate.
Defined.

Lemma copy_ctor_effect_witness :
  match Vector.copy_ctor 2%positive 1%positive (one_vector [1; 2; 3] 4) with
  | Ok _ s' =>
      exists b' ys',
        vec_at s' 2%positive b' ys' (length [1; 2; 3])
        /\ copies_of [1; 2; 3] ys'
        /\ (faithful -> ys' = [1; 2; 3])
        /\ separate b' (Ptr 1 0)
        /\ vec_at s' 1%positive (Ptr 1 0) [1; 2; 3] 4
        /\ leaked s' = leaked (one_vector [1; 2; 3] 4)
  | Exn _ s' => exists w', s' = set_world w' (one_vector [1; 2; 3] 4)
  | Undefined | Aborted => False
  end.
Proof.
  apply (copy_ctor_effect (one_vector [1; 2; 3] 4) 2%positive 1%positive (Ptr 1 0) [1; 2; 3] 4).
  - vec_at_concrete.
  - reflexivity.
  - reflexivity.
Defined.

Lemma copy_assign_in_place_witness :
  match Vector.copy_assign 1%positive 2%positive (two_vectors [1; 2; 3] 3 [7; 8] 2) with
  | Ok r s' =>
      r = 1%positive
      /\ exists ys',
           vec_at s' 1%positive (Ptr 1 0) ys' 3
           /\ length ys' = length [7; 8]
           /\ (faithful -> ys' = [7; 8])
           /\ vec_at s' 2%positive (Ptr 2 0) [7; 8] 2
           /\ leaked s' = leaked (two_vectors [1; 2; 3] 3 [7; 8] 2)
  | Exn _ s' =>
      exists xs',
        vec_at s' 1%positive (Ptr 1 0) xs' 3
        /\ length xs' = length [1; 2; 3]
        /\ vec_at s' 2%positive (Ptr 2 0) [7; 8] 2
        /\ leaked s' = leaked (two_vectors [1; 2; 3] 3 [7; 8] 2)
  | Undefined | Aborted => False
  end.
Proof.
  apply (copy_assign_in_place (two_vectors [1; 2; 3] 3 [7; 8] 2) 1%positive 2%positive (Ptr 1 0)
      (Ptr 2 0)
           [1; 2; 3] [7; 8] 3 2).
  - discriminate.
  - vec_at_concrete.
  - vec_at_concrete.
  - simpl; discriminate.
  - simpl; lia.
Defined.

Lemma Erase_end_undefined_witness :
  VectorH.Erase 1%positive (iter (Ptr 1 0) (length [1; 2; 3]))
      (one_vector [1; 2; 3] 4) = Undefined.
Proof.
  apply (Erase_end_undefined (one_vector [1; 2; 3] 4) 1%positive
      (Ptr 1 0) [1; 2; 3] 4 VectorH.Erase).
  - left; reflexivity.
  - vec_at_concrete.
Defined.

Lemma RawMemory_move_assign_drops_buffer_witness :
  exists s1 s2,
    RawMemory.move_assign 1%positive 2%positive (two_vectors [1; 2] 2 [7] 1) = Ok tt s1
    /\ raws s1 !! 1%positive = Some {| buffer_ := Ptr 2 0; capacity_ := 1 |}
    /\ raws s1 !! 2%positive = Some {| buffer_ := nullptr; capacity_ := 0 |}
    /\ heap s1 = heap (two_vectors [1; 2] 2 [7] 1)
    /\ (RawMemory.dtor 1%positive ;; RawMemory.dtor 2%positive) s1 = Ok tt s2
    /\ heap s2 !! 1%positive = Some [Some 1; Some 2].
Proof.
  apply (RawMemory_move_assign_drops_buffer
      (two_vectors [1; 2] 2 [7] 1) 1%positive 2%positive 1%positive 2
           [Some 1; Some 2] {| buffer_ := Ptr 2 0; capacity_ := 1 |}).
  - discriminate.
  - reflexivity.
  - reflexivity.
  - reflexivity.
  - simpl; repeat split; [discriminate | vm_compute; eexists; reflexivity].
Defined.

End FaithfulRuns.

Section MoveOnlyRuns.
#[local] Existing Instance move_only_nat.
#[local] Existing Instance debug_build.

Lemma middle_insert_failure_strands_last_witness :
  match VectorH.Emplace 1%positive (iter (Ptr 1%positive 0) (length [1])) (FromArgs 7)
      (one_vector [1; 13; 3] 4) with
  | Ok _ _ => True
  | Exn _ s' =>
      Vector.Size 1%positive s' = Ok (length ([1] ++ [13] ++ [3])) s'
      /\ read_obj (iter (Ptr 1%positive 0) (length ([1] ++ [13] ++ [3]))) s' = Ok 3 s'
      /\ exists s'', Vector.dtor 1%positive s' = Ok tt s''
           /\ leaked s'' = leaked (one_vector [1; 13; 3] 4) ++ [3]
           /\ heap s'' = delete 1%positive (heap (one_vector [1; 13; 3] 4))
  | Undefined | Aborted => False
  end.
Proof.
  apply (middle_insert_failure_strands_last
      (one_vector [1; 13; 3] 4) 1%positive 1%positive [1] [13] 3 4 (FromArgs 7) 7 3 0 4 5
           VectorH.Emplace).
  - left; reflexivity.
  - vec_at_concrete.
  - simpl; lia.
  - reflexivity.
  - reflexivity.
Defined.

End MoveOnlyRuns.

Section WideRuns.
#[local] Existing Instance wide_nat.
#[local] Existing Instance debug_build.

Lemma RawMemory_capacity_exceeds_block_witness :
  exists h blk s',
    RawMemory.ctor 2%positive 5 empty_vector = Ok tt s'
    /\ raws s' !! 2%positive = Some {| buffer_ := Ptr h 0; capacity_ := 5 |}
    /\ heap s' !! h = Some blk
    /\ length blk < 5.
Proof.
  apply (RawMemory_capacity_exceeds_block empty_vector 2%positive 5 0).
  - vm_compute; discriminate.
  - vm_compute; discriminate.
  - reflexivity.
Defined.

End WideRuns.

